(** * Scene graph service of [packages/g]: hierarchy, lazy transforms, sort

    A shallow embedding of [SceneGraphService.ts].  Entities are object
    references in the TypeScript source; here they are natural numbers that
    index a component store.  Every method of the service becomes a function
    on the store.  Recursion of the source (walking up the parent chain,
    cascading down the children) is bounded by a fuel argument, and a
    [TypeError] raised by a field access on an absent component is the result
    [Throw].

    Conventions of the embedding:
    - vectors, quaternions and matrices are values; a [gl-matrix] call that
      writes its [out] argument is the assignment of the returned value.  The
      one array the source shares between callers, the [position] view that
      [setPosition] rebinds to its argument, is only ever read right after it
      is written, so it is a value here as well;
    - scratch buffers captured by closures are overwritten before every use
      and are local values here;
    - the setters take the vector form of their argument; the form with
      three numbers only builds that vector;
    - [emit] appends the entity to a log; listeners are outside the service.

    The file has two parts: the definitions (the service, a rational
    instance of [gl-matrix] to run it, concrete scenes, and the vocabulary of
    the properties), then the properties. *)

From Stdlib Require Import List ZArith QArith Qreduction Lia Bool Arith PeanoNat.
From Stdlib Require Import Permutation Sorted.
Import ListNotations.

Close Scope Q_scope.
Set Implicit Arguments.

(** ** Results of a call: a value, a JavaScript exception, or fuel exhausted *)

Inductive Res (A : Type) : Type :=
| Ok (a : A)
| Throw
| OutOfFuel.

Arguments Ok {A} a.
Arguments Throw {A}.
Arguments OutOfFuel {A}.

Definition bind {A B : Type} (c : Res A) (k : A -> Res B) : Res B :=
  match c with
  | Ok a => k a
  | Throw => Throw
  | OutOfFuel => OutOfFuel
  end.

Notation "x <- c ;; k" := (bind c (fun x => k))
  (at level 61, c at next level, right associativity).
Notation "' p <- c ;; k" := (bind c (fun p => k))
  (at level 61, p pattern, c at next level, right associativity).

(** ** The interface of the external [gl-matrix] library

    [gl-matrix] is a dependency of the package, not part of it.  The service
    only calls the functions listed here; each is taken in its functional
    reading (the [out] argument of the library is the returned value).
    [mat4_invert] is [None] where the library returns [null]. *)

Class GLMatrix : Type := {
  vec3 : Type;
  quat : Type;
  mat4 : Type;
  mat4_multiply : mat4 -> mat4 -> mat4;
  mat4_invert : mat4 -> option mat4;
  mat4_getScaling : mat4 -> vec3;
  mat4_getTranslation : mat4 -> vec3;
  mat4_getRotation : mat4 -> quat;
  mat4_fromRotationTranslationScaleOrigin : quat -> vec3 -> vec3 -> vec3 -> mat4;
  quat_fromEuler : vec3 -> quat;
  quat_multiply : quat -> quat -> quat;
  quat_invert : quat -> quat;
  quat_normalize : quat -> quat;
  vec3_add : vec3 -> vec3 -> vec3;
  vec3_multiply : vec3 -> vec3 -> vec3;
  vec3_transformQuat : vec3 -> quat -> vec3;
  vec3_transformMat4 : vec3 -> mat4 -> vec3
}.

(** The bounding box class of [../shapes] is not among the files of the
    service; the service only calls its [setFromTransformedAABB]. *)

Class Shapes (G : GLMatrix) : Type := {
  AABB : Type;
  setFromTransformedAABB : AABB -> mat4 -> AABB
}.

(** ** Components *)

Definition Entity : Type := nat.

Record SceneGraphNode : Type := mkNode {
  parent : option Entity;
  children : list Entity;
  frozen : bool
}.

Record Sortable : Type := mkSortable {
  zIndex : Z;
  sdirty : bool;
  sorted : list Entity
}.

Section Model.

Context {G : GLMatrix} {Sh : Shapes G}.

Record Transform : Type := mkTransform {
  localPosition : vec3;
  localRotation : quat;
  localScale : vec3;
  origin : vec3;
  localTransform : mat4;
  worldTransform : mat4;
  localDirtyFlag : bool;
  dirtyFlag : bool;
  position : vec3;
  rotation : quat;
  scaling : vec3
}.

Record Renderable : Type := mkRenderable {
  aabb : option AABB;
  rdirty : bool
}.

(** The components of one entity.  [SceneGraphNode] and [Sortable] are read
    without a guard everywhere in the service; [Transform], [Renderable] and
    [Geometry] are tested for presence at some places, so they are optional.
    Of [Geometry] only its [aabb] field is used. *)

Record Components : Type := mkComponents {
  node : SceneGraphNode;
  sortable : Sortable;
  transform : option Transform;
  renderable : option Renderable;
  geometry : option AABB
}.

(** The store, and the log of [AABBChanged] events emitted so far (oldest
    first). *)

Record State : Type := mkState {
  comps : Entity -> Components;
  events : list Entity
}.

Definition upd (e : Entity) (c : Components) (s : State) : State :=
  mkState (fun x => if Nat.eqb x e then c else comps s x) (events s).

Definition setNode (e : Entity) (n : SceneGraphNode) (s : State) : State :=
  let c := comps s e in
  upd e (mkComponents n (sortable c) (transform c) (renderable c) (geometry c)) s.

Definition setSortable (e : Entity) (o : Sortable) (s : State) : State :=
  let c := comps s e in
  upd e (mkComponents (node c) o (transform c) (renderable c) (geometry c)) s.

Definition setT (e : Entity) (t : Transform) (s : State) : State :=
  let c := comps s e in
  upd e (mkComponents (node c) (sortable c) (Some t) (renderable c) (geometry c)) s.

Definition setRenderable (e : Entity) (r : Renderable) (s : State) : State :=
  let c := comps s e in
  upd e (mkComponents (node c) (sortable c) (transform c) (Some r) (geometry c)) s.

Definition emit (e : Entity) (s : State) : State :=
  mkState (comps s) (events s ++ [e]).

Definition nodeOf (s : State) (e : Entity) : SceneGraphNode := node (comps s e).
Definition parentOf (s : State) (e : Entity) : option Entity := parent (nodeOf s e).
Definition childrenOf (s : State) (e : Entity) : list Entity := children (nodeOf s e).
Definition trOf (s : State) (e : Entity) : option Transform := transform (comps s e).

(** [entity.getComponent(Transform)] followed by a field access. *)
Definition getT (e : Entity) (s : State) : Res Transform :=
  match trOf s e with
  | Some t => Ok t
  | None => Throw
  end.

(** Field updates of a [Transform]. *)

Definition withLocalTRS (p : vec3) (r : quat) (sc : vec3) (t : Transform) : Transform :=
  mkTransform p r sc (origin t) (localTransform t) (worldTransform t)
    (localDirtyFlag t) (dirtyFlag t) (position t) (rotation t) (scaling t).

Definition withOrigin (o : vec3) (t : Transform) : Transform :=
  mkTransform (localPosition t) (localRotation t) (localScale t) o (localTransform t)
    (worldTransform t) (localDirtyFlag t) (dirtyFlag t) (position t) (rotation t) (scaling t).

Definition withLocalTransform (m : mat4) (t : Transform) : Transform :=
  mkTransform (localPosition t) (localRotation t) (localScale t) (origin t) m
    (worldTransform t) (localDirtyFlag t) (dirtyFlag t) (position t) (rotation t) (scaling t).

Definition withWorldTransform (m : mat4) (t : Transform) : Transform :=
  mkTransform (localPosition t) (localRotation t) (localScale t) (origin t) (localTransform t)
    m (localDirtyFlag t) (dirtyFlag t) (position t) (rotation t) (scaling t).

Definition withLocalDirty (b : bool) (t : Transform) : Transform :=
  mkTransform (localPosition t) (localRotation t) (localScale t) (origin t) (localTransform t)
    (worldTransform t) b (dirtyFlag t) (position t) (rotation t) (scaling t).

Definition withDirty (b : bool) (t : Transform) : Transform :=
  mkTransform (localPosition t) (localRotation t) (localScale t) (origin t) (localTransform t)
    (worldTransform t) (localDirtyFlag t) b (position t) (rotation t) (scaling t).

Definition withViews (p : vec3) (r : quat) (sc : vec3) (t : Transform) : Transform :=
  mkTransform (localPosition t) (localRotation t) (localScale t) (origin t) (localTransform t)
    (worldTransform t) (localDirtyFlag t) (dirtyFlag t) p r sc.

Definition withFrozen (b : bool) (n : SceneGraphNode) : SceneGraphNode :=
  mkNode (parent n) (children n) b.

(** ** Transform queries *)

(** [getLocalTransform]: rebuild the cached local matrix when it is stale. *)
Definition getLocalTransform (e : Entity) (s : State) : Res (mat4 * State) :=
  t <- getT e s ;;
  if localDirtyFlag t then
    let m := mat4_fromRotationTranslationScaleOrigin
               (localRotation t) (localPosition t) (localScale t) (origin t) in
    let t' := withLocalDirty false (withLocalTransform m t) in
    Ok (m, setT e t' s)
  else Ok (localTransform t, s).

(** [updateTransform]: the [transform] argument of the source is always the
    [Transform] of [entity], so it is looked up here. *)
Definition updateTransform (e : Entity) (s : State) : Res State :=
  t <- getT e s ;;
  s1 <- (if localDirtyFlag t
         then '(_, s') <- getLocalTransform e s ;; Ok s'
         else Ok s) ;;
  t1 <- getT e s1 ;;
  if dirtyFlag t1 then
    let parentTransform :=
      match parentOf s1 e with
      | Some p => trOf s1 p
      | None => None
      end in
    match parentTransform with
    | None =>
        '(l, s2) <- getLocalTransform e s1 ;;
        t2 <- getT e s2 ;;
        Ok (setT e (withDirty false (withWorldTransform l t2)) s2)
    | Some pt =>
        '(l, s2) <- getLocalTransform e s1 ;;
        t2 <- getT e s2 ;;
        Ok (setT e (withDirty false
                      (withWorldTransform (mat4_multiply (worldTransform pt) l) t2)) s2)
    end
  else Ok s1.

(** [getWorldTransform]: one ascent of the parent chain, then recomputation
    on the way back. *)
Fixpoint getWorldTransform (fuel : nat) (e : Entity) (s : State) : Res (mat4 * State) :=
  match fuel with
  | O => OutOfFuel
  | S f =>
      t <- getT e s ;;
      if negb (localDirtyFlag t) && negb (dirtyFlag t) then Ok (worldTransform t, s)
      else
        s1 <- match parentOf s e with
              | Some p =>
                  match trOf s p with
                  | Some _ => '(_, s') <- getWorldTransform f p s ;; Ok s'
                  | None => Ok s
                  end
              | None => Ok s
              end ;;
        s2 <- updateTransform e s1 ;;
        t2 <- getT e s2 ;;
        Ok (worldTransform t2, s2)
  end.

Definition getPosition (fuel : nat) (e : Entity) (s : State) : Res (vec3 * State) :=
  '(w, s1) <- getWorldTransform fuel e s ;;
  t <- getT e s1 ;;
  let p := mat4_getTranslation w in
  Ok (p, setT e (withViews p (rotation t) (scaling t) t) s1).

Definition getRotation (fuel : nat) (e : Entity) (s : State) : Res (quat * State) :=
  '(w, s1) <- getWorldTransform fuel e s ;;
  t <- getT e s1 ;;
  let r := mat4_getRotation w in
  Ok (r, setT e (withViews (position t) r (scaling t) t) s1).

Definition getScale (fuel : nat) (e : Entity) (s : State) : Res (vec3 * State) :=
  '(w, s1) <- getWorldTransform fuel e s ;;
  t <- getT e s1 ;;
  let sc := mat4_getScaling w in
  Ok (sc, setT e (withViews (position t) (rotation t) sc t) s1).

Definition getLocalPosition (e : Entity) (s : State) : Res vec3 :=
  t <- getT e s ;; Ok (localPosition t).

Definition getLocalRotation (e : Entity) (s : State) : Res quat :=
  t <- getT e s ;; Ok (localRotation t).

Definition getLocalScale (e : Entity) (s : State) : Res vec3 :=
  t <- getT e s ;; Ok (localScale t).

(** ** Bounding boxes *)

(** [updateRenderableAABB]: [geometry.aabb] is evaluated before the world
    transform is read; the event is emitted after the box is stored. *)
Definition updateRenderableAABB (fuel : nat) (e : Entity) (s : State) : Res State :=
  match renderable (comps s e) with
  | None => Throw
  | Some _ =>
      match geometry (comps s e) with
      | None => Throw
      | Some box =>
          '(w, s1) <- getWorldTransform fuel e s ;;
          let s2 := setRenderable e (mkRenderable (Some (setFromTransformedAABB box w)) true) s1 in
          Ok (emit e s2)
      end
  end.

Definition dirtifyAABB (fuel : nat) (e : Entity) (s : State) : Res State :=
  match renderable (comps s e) with
  | Some _ => updateRenderableAABB fuel e s
  | None => Ok s
  end.

(** ** The dirty-flag protocol *)

(** [Array.prototype.forEach] on a live array: the length is read once, the
    element at each index is read from the array as it is when the index is
    reached, and an index that is no longer present is skipped. *)
Fixpoint forEachLive {A : Type} (n k : nat) (arr : A -> list Entity)
    (body : Entity -> A -> Res A) (a : A) : Res A :=
  match n with
  | O => Ok a
  | S n' =>
      match nth_error (arr a) k with
      | Some x => a' <- body x a ;; forEachLive n' (S k) arr body a'
      | None => forEachLive n' (S k) arr body a
      end
  end.

Definition forEach {A : Type} (arr : A -> list Entity)
    (body : Entity -> A -> Res A) (a : A) : Res A :=
  forEachLive (length (arr a)) 0 arr body a.

(** [unfreezeParentToRoot]: the [while] loop over the parent chain. *)
Fixpoint unfreezeParentToRoot (fuel : nat) (e : Entity) (s : State) : Res State :=
  match fuel with
  | O => OutOfFuel
  | S f =>
      let s1 := setNode e (withFrozen false (nodeOf s e)) s in
      match parentOf s1 e with
      | Some p => unfreezeParentToRoot f p s1
      | None => Ok s1
      end
  end.

(** [dirtifyWorldInternal]: mark the node, cascade to the children that are
    not marked yet, then refresh the node's bounding box. *)
Fixpoint dirtifyWorldInternal (fuel : nat) (e : Entity) (s : State) : Res State :=
  match fuel with
  | O => OutOfFuel
  | S f =>
      t <- getT e s ;;
      s1 <- (if negb (dirtyFlag t) then
               let s' := setNode e (withFrozen false (nodeOf s e)) s in
               let s'' := setT e (withDirty true t) s' in
               forEach (fun st => childrenOf st e)
                 (fun c st =>
                    ct <- getT c st ;;
                    if negb (dirtyFlag ct) then dirtifyWorldInternal f c st else Ok st)
                 s''
             else Ok s) ;;
      dirtifyAABB f e s1
  end.

(** [setDirty(entity, transform)] with [value = true]. *)
Definition setDirty (fuel : nat) (e : Entity) (s : State) : Res State :=
  t <- getT e s ;;
  s1 <- (if negb (dirtyFlag t) then unfreezeParentToRoot fuel e s else Ok s) ;;
  dirtifyWorldInternal fuel e s1.

(** [setLocalDirty(entity, transform)] with [value = true]. *)
Definition setLocalDirty (fuel : nat) (e : Entity) (s : State) : Res State :=
  t <- getT e s ;;
  if negb (localDirtyFlag t) then
    let s1 := setT e (withLocalDirty true t) s in
    if negb (dirtyFlag t) then setDirty fuel e s1 else dirtifyAABB fuel e s1
  else Ok s.

(** ** Structural operations *)

(** [matrixTransform]: multiply the local matrix by [mat] on the right and
    decompose the product into the local fields. *)
Definition matrixTransform (fuel : nat) (e : Entity) (mat : mat4) (s : State) : Res State :=
  '(l, s1) <- getLocalTransform e s ;;
  t <- getT e s1 ;;
  let transformed := mat4_multiply l mat in
  let t' := withLocalTRS (mat4_getTranslation transformed) (mat4_getRotation transformed)
              (mat4_getScaling transformed) t in
  setLocalDirty fuel e (setT e t' s1).

(** [applyTransform(entity, transform)]: decompose the cached world matrix
    into the local fields. *)
Definition applyTransform (fuel : nat) (e : Entity) (s : State) : Res State :=
  t <- getT e s ;;
  let w := worldTransform t in
  let t' := withLocalTRS (mat4_getTranslation w) (mat4_getRotation w) (mat4_getScaling w) t in
  setDirty fuel e (setT e t' s).

(** [children.indexOf(entity)] followed by [splice(index, 1)]. *)
Fixpoint removeFirst (e : Entity) (l : list Entity) : list Entity :=
  match l with
  | [] => []
  | x :: r => if Nat.eqb x e then r else x :: removeFirst e r
  end.

Definition setParent (e : Entity) (p : option Entity) (s : State) : State :=
  setNode e (mkNode p (children (nodeOf s e)) (frozen (nodeOf s e))) s.

Definition setChildren (e : Entity) (l : list Entity) (s : State) : State :=
  setNode e (mkNode (parent (nodeOf s e)) l (frozen (nodeOf s e))) s.

(** [detach]: [applyTransform] leaves the hierarchy alone, so the parent read
    after it is the parent tested before it. *)
Definition detach (fuel : nat) (e : Entity) (s : State) : Res State :=
  match parentOf s e with
  | Some p =>
      s1 <- applyTransform fuel e s ;;
      let s2 := setChildren p (removeFirst e (childrenOf s1 p)) s1 in
      s3 <- dirtifyAABB fuel p s2 ;;
      Ok (setParent e None s3)
  | None => Ok s
  end.

(** [children.splice(index, 0, entity)]: a negative index counts from the
    end, and the start is clamped to the bounds of the array. *)
Definition spliceIn (index : Z) (e : Entity) (l : list Entity) : list Entity :=
  let len := Z.of_nat (length l) in
  let start := if (index <? 0)%Z then Z.max (len + index) 0 else Z.min index len in
  firstn (Z.to_nat start) l ++ e :: skipn (Z.to_nat start) l.

Definition attach (fuel : nat) (e p : Entity) (index : option Z) (s : State) : Res State :=
  s1 <- (match parentOf s e with
         | Some _ => detach fuel e s
         | None => Ok s
         end) ;;
  let s2 := setParent e (Some p) s1 in
  let kids := childrenOf s2 p in
  let s3 := setChildren p (match index with
                           | Some i => spliceIn i e kids
                           | None => kids ++ [e]
                           end) s2 in
  s4 <- dirtifyAABB fuel p s3 ;;
  match trOf s4 p with
  | Some pt =>
      match mat4_invert (worldTransform pt) with
      | Some inv => matrixTransform fuel e inv s4
      | None => Throw
      end
  | None => Ok s4
  end.

Definition detachChildren (fuel : nat) (p : Entity) (s : State) : Res State :=
  forEach (fun st => childrenOf st p) (fun c st => detach fuel c st) s.

(** ** Transform mutation

    Every setter of the source accepts a vector or three numbers; the second
    form only builds the vector, so the model takes the vector. *)

Definition setOrigin (e : Entity) (o : vec3) (s : State) : Res State :=
  t <- getT e s ;; Ok (setT e (withOrigin o t) s).

Definition setLocalRotationField (r : quat) (t : Transform) : Transform :=
  withLocalTRS (localPosition t) r (localScale t) t.

Definition setLocalPositionField (p : vec3) (t : Transform) : Transform :=
  withLocalTRS p (localRotation t) (localScale t) t.

Definition setLocalScaleField (sc : vec3) (t : Transform) : Transform :=
  withLocalTRS (localPosition t) (localRotation t) sc t.

Definition rotateLocal (fuel : nat) (e : Entity) (degrees : vec3) (s : State) : Res State :=
  t <- getT e s ;;
  let r := quat_fromEuler degrees in
  let q := quat_normalize (quat_multiply (localRotation t) r) in
  setLocalDirty fuel e (setT e (setLocalRotationField q t) s).

(** [rotate]: [parentInvertRotation] is computed by the source and not used
    afterwards, so it does not appear in the stored rotation. *)
Definition rotate (fuel : nat) (e : Entity) (degrees : vec3) (s : State) : Res State :=
  match parentOf s e with
  | None => rotateLocal fuel e degrees s
  | Some p =>
      let r := quat_fromEuler degrees in
      '(rot, s1) <- getRotation fuel e s ;;
      '(parentRot, s2) <- getRotation fuel p s1 ;;
      let parentInvertRotation := quat_multiply (quat_invert parentRot) r in
      t <- getT e s2 ;;
      let q := quat_normalize (quat_multiply r rot) in
      setLocalDirty fuel e (setT e (setLocalRotationField q t) s2)
  end.

Definition setLocalEulerAngles (fuel : nat) (e : Entity) (degrees : vec3) (s : State)
  : Res State :=
  t <- getT e s ;;
  setLocalDirty fuel e (setT e (setLocalRotationField (quat_fromEuler degrees) t) s).

Definition setEulerAngles (fuel : nat) (e : Entity) (degrees : vec3) (s : State)
  : Res State :=
  match parentOf s e with
  | None => setLocalEulerAngles fuel e degrees s
  | Some p =>
      t <- getT e s ;;
      let s1 := setT e (setLocalRotationField (quat_fromEuler degrees) t) s in
      '(parentRotation, s2) <- getRotation fuel p s1 ;;
      let invParentRot := quat_invert parentRotation in
      t2 <- getT e s2 ;;
      let q := quat_multiply (localRotation t2) invParentRot in
      setLocalDirty fuel e (setT e (setLocalRotationField q t2) s2)
  end.

Definition translateLocal (fuel : nat) (e : Entity) (translation : vec3) (s : State)
  : Res State :=
  t <- getT e s ;;
  let d := vec3_transformQuat translation (localRotation t) in
  setLocalDirty fuel e (setT e (setLocalPositionField (vec3_add (localPosition t) d) t) s).

Definition setLocalPosition (fuel : nat) (e : Entity) (pos : vec3) (s : State) : Res State :=
  t <- getT e s ;;
  setLocalDirty fuel e (setT e (setLocalPositionField pos t) s).

(** [setPosition]: the parent's cached world matrix is read directly; where
    it has no inverse, [mat4.invert] leaves its output, the copy, untouched. *)
Definition setPosition (fuel : nat) (e : Entity) (pos : vec3) (s : State) : Res State :=
  t <- getT e s ;;
  let s1 := setT e (withViews pos (rotation t) (scaling t) t) s in
  match parentOf s1 e with
  | None => setLocalPosition fuel e pos s1
  | Some p =>
      pt <- getT p s1 ;;
      let parentInvertMatrix :=
        match mat4_invert (worldTransform pt) with
        | Some m => m
        | None => worldTransform pt
        end in
      t1 <- getT e s1 ;;
      setLocalDirty fuel e
        (setT e (setLocalPositionField (vec3_transformMat4 pos parentInvertMatrix) t1) s1)
  end.

Definition scaleLocal (fuel : nat) (e : Entity) (sc : vec3) (s : State) : Res State :=
  t <- getT e s ;;
  setLocalDirty fuel e (setT e (setLocalScaleField (vec3_multiply (localScale t) sc) t) s).

Definition setLocalScale (fuel : nat) (e : Entity) (sc : vec3) (s : State) : Res State :=
  t <- getT e s ;;
  setLocalDirty fuel e (setT e (setLocalScaleField sc t) s).

Definition translate (fuel : nat) (e : Entity) (translation : vec3) (s : State) : Res State :=
  '(p, s1) <- getPosition fuel e s ;;
  let tr := vec3_add p translation in
  s2 <- setPosition fuel e tr s1 ;;
  setDirty fuel e s2.

(** ** Traversal and paint order *)

(** [visit]: the visitor is a predicate here (it returns [true] to prune);
    the result is the sequence of entities the visitor was called on. *)
Fixpoint visit (fuel : nat) (visitor : Entity -> bool) (e : Entity) (s : State)
  : Res (list Entity) :=
  match fuel with
  | O => OutOfFuel
  | S f =>
      if visitor e then Ok [e]
      else
        rest <- fold_left
                  (fun acc c => l <- acc ;; l' <- visit f visitor c s ;; Ok (l ++ l'))
                  (childrenOf s e) (Ok []) ;;
        Ok (e :: rest)
  end.

Definition zOf (s : State) (e : Entity) : Z := zIndex (sortable (comps s e)).

(** [Array.prototype.sort] with the comparator [sortByZIndex]: the sort of
    the language is stable, and so is this insertion sort.  The z-index is
    an integer here. *)
Fixpoint insertByZ (s : State) (e : Entity) (l : list Entity) : list Entity :=
  match l with
  | [] => [e]
  | x :: r => if (zOf s e <=? zOf s x)%Z then e :: x :: r else x :: insertByZ s e r
  end.

Fixpoint sortByZIndex (s : State) (l : list Entity) : list Entity :=
  match l with
  | [] => []
  | x :: r => insertByZ s x (sortByZIndex s r)
  end.

(** [flatten(hierarchy.children, result)] for the children array of [e]: the
    array is sorted in place, then walked. *)
Fixpoint flatten (fuel : nat) (e : Entity) (a : State * list Entity)
  : Res (State * list Entity) :=
  match fuel with
  | O => OutOfFuel
  | S f =>
      let '(s, result) := a in
      match childrenOf s e with
      | [] => Ok (s, result)
      | kids =>
          let s1 := setChildren e (sortByZIndex s kids) s in
          forEach (fun st : State * list Entity => childrenOf (fst st) e)
            (fun c st => flatten f c (fst st, snd st ++ [c]))
            (s1, result)
      end
  end.

(** [sort]: the outer call [flatten([entity], sorted)] works on a fresh
    one-element array: it pushes [entity] and flattens its children. *)
Definition sort (fuel : nat) (e : Entity) (force : bool) (s : State)
  : Res (list Entity * State) :=
  let o := sortable (comps s e) in
  if sdirty o || force then
    '(s1, result) <- flatten fuel e (s, [e]) ;;
    let o1 := sortable (comps s1 e) in
    Ok (result, setSortable e (mkSortable (zIndex o1) false result) s1)
  else Ok (sorted o, s).

End Model.

(** ** A rational instance of the [gl-matrix] interface

    The functions below follow the formulas of [gl-matrix] 3 (column-major
    4x4 matrices as 16 numbers, quaternions as x, y, z, w) over the rationals
    kept in lowest terms.  Square roots and the sines and cosines of
    [quat.fromEuler] are exact where the result is rational (squares of
    rationals; whole multiples of 180 degrees) and rounded elsewhere; a
    division by zero, which is an infinity or NaN in the library, is 0.  The
    instance is used to run the service on concrete scenes, none of which
    divides by zero or takes an inexact root or angle unless it is said so. *)

Module QGL.

Local Open Scope Q_scope.

Definition qadd (a b : Q) : Q := Qred (a + b).
Definition qsub (a b : Q) : Q := Qred (a - b).
Definition qmul (a b : Q) : Q := Qred (a * b).
Definition qdiv (a b : Q) : Q := Qred (a / b).
Definition qneg (a : Q) : Q := Qred (- a).
Definition qzero (a : Q) : bool := (Qnum a =? 0)%Z.
Definition qlt (a b : Q) : bool :=
  match Qcompare a b with Lt => true | _ => false end.

Declare Scope qgl_scope.
Delimit Scope qgl_scope with qgl.
Infix "+" := qadd : qgl_scope.
Infix "-" := qsub : qgl_scope.
Infix "*" := qmul : qgl_scope.
Infix "/" := qdiv : qgl_scope.
Local Open Scope qgl_scope.

Definition isSquareZ (n : Z) : bool := (Z.sqrt n * Z.sqrt n =? n)%Z.

(** [Math.sqrt]: exact on squares of rationals, rounded down to a multiple
    of [2^-32] of the denominator otherwise. *)
Definition qsqrt (a : Q) : Q :=
  let r := Qred a in
  let n := Qnum r in
  let d := Zpos (Qden r) in
  if (n <=? 0)%Z then 0%Q
  else if isSquareZ n && isSquareZ d then Qred (Z.sqrt n # Z.to_pos (Z.sqrt d))
  else Qred (Z.sqrt (n * d * 2 ^ 64) # Z.to_pos (d * 2 ^ 32)).

(** [Math.hypot] of three numbers. *)
Definition hypot3 (a b c : Q) : Q := qsqrt (a * a + b * b + c * c).

(** Sine and cosine of half of [d] degrees: the values at whole multiples
    of 180 degrees, and the first terms of the power series elsewhere. *)
Definition quarterTurns (d : Q) : option Z :=
  let r := Qred (d / 180) in
  if (Zpos (Qden r) =? 1)%Z then Some (Qnum r mod 4)%Z else None.

Definition halfToRad : Q := Qred (355 / 113 / 360).

Definition sinHalf (d : Q) : Q :=
  match quarterTurns d with
  | Some 1%Z => 1%Q
  | Some 3%Z => Qred (- (1))%Q
  | Some _ => 0%Q
  | None => let x := d * halfToRad in x - (x * x * x) / 6
  end.

Definition cosHalf (d : Q) : Q :=
  match quarterTurns d with
  | Some 0%Z => 1%Q
  | Some 2%Z => Qred (- (1))%Q
  | Some _ => 0%Q
  | None => let x := d * halfToRad in 1 - (x * x) / 2
  end.

Definition V3 : Type := (Q * Q * Q)%type.
Definition Quat : Type := (Q * Q * Q * Q)%type.
Definition M4 : Type := list Q.

Definition at_ (m : M4) (i : nat) : Q := nth i m 0%Q.

Definition identity : M4 := [1;0;0;0; 0;1;0;0; 0;0;1;0; 0;0;0;1]%Q.

Definition column (a : M4) (b0 b1 b2 b3 : Q) : list Q :=
  map (fun i => b0 * at_ a i + b1 * at_ a (4 + i) + b2 * at_ a (8 + i) + b3 * at_ a (12 + i))
      [0; 1; 2; 3]%nat.

Definition multiply (a b : M4) : M4 :=
  column a (at_ b 0) (at_ b 1) (at_ b 2) (at_ b 3) ++
  column a (at_ b 4) (at_ b 5) (at_ b 6) (at_ b 7) ++
  column a (at_ b 8) (at_ b 9) (at_ b 10) (at_ b 11) ++
  column a (at_ b 12) (at_ b 13) (at_ b 14) (at_ b 15).

Definition invert (a : M4) : option M4 :=
  let a00 := at_ a 0 in let a01 := at_ a 1 in let a02 := at_ a 2 in let a03 := at_ a 3 in
  let a10 := at_ a 4 in let a11 := at_ a 5 in let a12 := at_ a 6 in let a13 := at_ a 7 in
  let a20 := at_ a 8 in let a21 := at_ a 9 in let a22 := at_ a 10 in let a23 := at_ a 11 in
  let a30 := at_ a 12 in let a31 := at_ a 13 in let a32 := at_ a 14 in let a33 := at_ a 15 in
  let b00 := a00 * a11 - a01 * a10 in
  let b01 := a00 * a12 - a02 * a10 in
  let b02 := a00 * a13 - a03 * a10 in
  let b03 := a01 * a12 - a02 * a11 in
  let b04 := a01 * a13 - a03 * a11 in
  let b05 := a02 * a13 - a03 * a12 in
  let b06 := a20 * a31 - a21 * a30 in
  let b07 := a20 * a32 - a22 * a30 in
  let b08 := a20 * a33 - a23 * a30 in
  let b09 := a21 * a32 - a22 * a31 in
  let b10 := a21 * a33 - a23 * a31 in
  let b11 := a22 * a33 - a23 * a32 in
  let det := b00 * b11 - b01 * b10 + b02 * b09 + b03 * b08 - b04 * b07 + b05 * b06 in
  if qzero det then None
  else
    let d := 1 / det in
    Some [ (a11 * b11 - a12 * b10 + a13 * b09) * d;
           (a02 * b10 - a01 * b11 - a03 * b09) * d;
           (a31 * b05 - a32 * b04 + a33 * b03) * d;
           (a22 * b04 - a21 * b05 - a23 * b03) * d;
           (a12 * b08 - a10 * b11 - a13 * b07) * d;
           (a00 * b11 - a02 * b08 + a03 * b07) * d;
           (a32 * b02 - a30 * b05 - a33 * b01) * d;
           (a20 * b05 - a22 * b02 + a23 * b01) * d;
           (a10 * b10 - a11 * b08 + a13 * b06) * d;
           (a01 * b08 - a00 * b10 - a03 * b06) * d;
           (a30 * b04 - a31 * b02 + a33 * b00) * d;
           (a21 * b02 - a20 * b04 - a23 * b00) * d;
           (a11 * b07 - a10 * b09 - a12 * b06) * d;
           (a00 * b09 - a01 * b07 + a02 * b06) * d;
           (a31 * b01 - a30 * b03 - a32 * b00) * d;
           (a20 * b03 - a21 * b01 + a22 * b00) * d ].

Definition getTranslation (m : M4) : V3 := (at_ m 12, at_ m 13, at_ m 14).

Definition getScaling (m : M4) : V3 :=
  (hypot3 (at_ m 0) (at_ m 1) (at_ m 2),
   hypot3 (at_ m 4) (at_ m 5) (at_ m 6),
   hypot3 (at_ m 8) (at_ m 9) (at_ m 10)).

(** [mat4.getRotation], as in [gl-matrix] 3.3 and later: the entries are
    divided by the scaling first. *)
Definition getRotation (m : M4) : Quat :=
  let '(s0, s1, s2) := getScaling m in
  let is1 := 1 / s0 in
  let is2 := 1 / s1 in
  let is3 := 1 / s2 in
  let sm11 := at_ m 0 * is1 in
  let sm12 := at_ m 1 * is2 in
  let sm13 := at_ m 2 * is3 in
  let sm21 := at_ m 4 * is1 in
  let sm22 := at_ m 5 * is2 in
  let sm23 := at_ m 6 * is3 in
  let sm31 := at_ m 8 * is1 in
  let sm32 := at_ m 9 * is2 in
  let sm33 := at_ m 10 * is3 in
  let trace := sm11 + sm22 + sm33 in
  if qlt 0 trace then
    let S := qsqrt (trace + 1) * 2 in
    ((sm23 - sm32) / S, (sm31 - sm13) / S, (sm12 - sm21) / S, (1 / 4) * S)
  else if qlt sm22 sm11 && qlt sm33 sm11 then
    let S := qsqrt (1 + sm11 - sm22 - sm33) * 2 in
    ((1 / 4) * S, (sm12 + sm21) / S, (sm31 + sm13) / S, (sm23 - sm32) / S)
  else if qlt sm33 sm22 then
    let S := qsqrt (1 + sm22 - sm11 - sm33) * 2 in
    ((sm12 + sm21) / S, (1 / 4) * S, (sm23 + sm32) / S, (sm31 - sm13) / S)
  else
    let S := qsqrt (1 + sm33 - sm11 - sm22) * 2 in
    ((sm31 + sm13) / S, (sm23 + sm32) / S, (1 / 4) * S, (sm12 - sm21) / S).

Definition fromRotationTranslationScaleOrigin (q : Quat) (v s o : V3) : M4 :=
  let '(x, y, z, w) := q in
  let '(v0, v1, v2) := v in
  let '(sx, sy, sz) := s in
  let '(ox, oy, oz) := o in
  let x2 := x + x in
  let y2 := y + y in
  let z2 := z + z in
  let xx := x * x2 in
  let xy := x * y2 in
  let xz := x * z2 in
  let yy := y * y2 in
  let yz := y * z2 in
  let zz := z * z2 in
  let wx := w * x2 in
  let wy := w * y2 in
  let wz := w * z2 in
  let out0 := (1 - (yy + zz)) * sx in
  let out1 := (xy + wz) * sx in
  let out2 := (xz - wy) * sx in
  let out4 := (xy - wz) * sy in
  let out5 := (1 - (xx + zz)) * sy in
  let out6 := (yz + wx) * sy in
  let out8 := (xz + wy) * sz in
  let out9 := (yz - wx) * sz in
  let out10 := (1 - (xx + yy)) * sz in
  [ out0; out1; out2; 0%Q;
    out4; out5; out6; 0%Q;
    out8; out9; out10; 0%Q;
    v0 + ox - (out0 * ox + out4 * oy + out8 * oz);
    v1 + oy - (out1 * ox + out5 * oy + out9 * oz);
    v2 + oz - (out2 * ox + out6 * oy + out10 * oz);
    1%Q ].

Definition fromEuler (degrees : V3) : Quat :=
  let '(x, y, z) := degrees in
  let sx := sinHalf x in
  let cx := cosHalf x in
  let sy := sinHalf y in
  let cy := cosHalf y in
  let sz := sinHalf z in
  let cz := cosHalf z in
  (sx * cy * cz - cx * sy * sz,
   cx * sy * cz + sx * cy * sz,
   cx * cy * sz - sx * sy * cz,
   cx * cy * cz + sx * sy * sz).

Definition quatMultiply (a b : Quat) : Quat :=
  let '(ax, ay, az, aw) := a in
  let '(bx, by_, bz, bw) := b in
  (ax * bw + aw * bx + ay * bz - az * by_,
   ay * bw + aw * by_ + az * bx - ax * bz,
   az * bw + aw * bz + ax * by_ - ay * bx,
   aw * bw - ax * bx - ay * by_ - az * bz).

Definition quatDot (a : Quat) : Q :=
  let '(x, y, z, w) := a in x * x + y * y + z * z + w * w.

Definition quatInvert (a : Quat) : Quat :=
  let '(x, y, z, w) := a in
  let dot := quatDot a in
  let invDot := if qzero dot then 0%Q else 1 / dot in
  (qneg x * invDot, qneg y * invDot, qneg z * invDot, w * invDot).

Definition quatNormalize (a : Quat) : Quat :=
  let '(x, y, z, w) := a in
  let len := quatDot a in
  let l := if qlt 0 len then 1 / qsqrt len else len in
  (x * l, y * l, z * l, w * l).

Definition add (a b : V3) : V3 :=
  let '(a0, a1, a2) := a in
  let '(b0, b1, b2) := b in (a0 + b0, a1 + b1, a2 + b2).

Definition mul (a b : V3) : V3 :=
  let '(a0, a1, a2) := a in
  let '(b0, b1, b2) := b in (a0 * b0, a1 * b1, a2 * b2).

Definition transformQuat (a : V3) (q : Quat) : V3 :=
  let '(qx, qy, qz, qw) := q in
  let '(x, y, z) := a in
  let uvx := qy * z - qz * y in
  let uvy := qz * x - qx * z in
  let uvz := qx * y - qy * x in
  let uuvx := qy * uvz - qz * uvy in
  let uuvy := qz * uvx - qx * uvz in
  let uuvz := qx * uvy - qy * uvx in
  let w2 := qw * 2 in
  (x + uvx * w2 + uuvx * 2, y + uvy * w2 + uuvy * 2, z + uvz * w2 + uuvz * 2).

Definition transformMat4 (a : V3) (m : M4) : V3 :=
  let '(x, y, z) := a in
  let w0 := at_ m 3 * x + at_ m 7 * y + at_ m 11 * z + at_ m 15 in
  let w := if qzero w0 then 1%Q else w0 in
  ((at_ m 0 * x + at_ m 4 * y + at_ m 8 * z + at_ m 12) / w,
   (at_ m 1 * x + at_ m 5 * y + at_ m 9 * z + at_ m 13) / w,
   (at_ m 2 * x + at_ m 6 * y + at_ m 10 * z + at_ m 14) / w).

#[export] Instance glmatrix : GLMatrix := {|
  vec3 := V3;
  quat := Quat;
  mat4 := M4;
  mat4_multiply := multiply;
  mat4_invert := invert;
  mat4_getScaling := getScaling;
  mat4_getTranslation := getTranslation;
  mat4_getRotation := getRotation;
  mat4_fromRotationTranslationScaleOrigin := fromRotationTranslationScaleOrigin;
  quat_fromEuler := fromEuler;
  quat_multiply := quatMultiply;
  quat_invert := quatInvert;
  quat_normalize := quatNormalize;
  vec3_add := add;
  vec3_multiply := mul;
  vec3_transformQuat := transformQuat;
  vec3_transformMat4 := transformMat4
|}.

(** Modelled from the spec: the bounding box of [../shapes] and its
    [setFromTransformedAABB], which are not among the files of the service.
    The box is the pair of its minimal and maximal corner; the transformed
    box is the smallest box around the eight transformed corners. *)
Definition Box : Type := (V3 * V3)%type.

Definition qmin (a b : Q) : Q := if qlt b a then b else a.
Definition qmax (a b : Q) : Q := if qlt a b then b else a.

Definition corners (b : Box) : list V3 :=
  let '((x0, y0, z0), (x1, y1, z1)) := b in
  [ (x0, y0, z0); (x1, y0, z0); (x0, y1, z0); (x1, y1, z0);
    (x0, y0, z1); (x1, y0, z1); (x0, y1, z1); (x1, y1, z1) ].

Definition around (b : Box) (p : V3) : Box :=
  let '((x0, y0, z0), (x1, y1, z1)) := b in
  let '(x, y, z) := p in
  ((qmin x0 x, qmin y0 y, qmin z0 z), (qmax x1 x, qmax y1 y, qmax z1 z)).

Definition transformedBox (b : Box) (m : M4) : Box :=
  match map (fun c => transformMat4 c m) (corners b) with
  | [] => b
  | c :: r => fold_left around r (c, c)
  end.

#[export] Instance shapes : Shapes glmatrix := {|
  AABB := Box;
  setFromTransformedAABB := transformedBox
|}.

End QGL.

(** ** Specification vocabulary *)

Section Specifications.

Context {G : GLMatrix} {Sh : Shapes G}.

(** A loop over a fixed list, threading the result. *)
Fixpoint foldRes {A : Type} (body : Entity -> A -> Res A) (l : list Entity) (a : A)
  : Res A :=
  match l with
  | [] => Ok a
  | x :: r => a' <- body x a ;; foldRes body r a'
  end.

Definition leZ (s : State) (a b : Entity) : Prop := (zOf s a <= zOf s b)%Z.

Definition sameZ (s : State) (z : Z) (e : Entity) : bool := (zOf s e =? z)%Z.

(** [l'] is [l] sorted by ascending z-index, entities of equal z-index
    keeping the order they have in [l]. *)
Record StableSortedByZ (s : State) (l l' : list Entity) : Prop := {
  ss_perm : Permutation l l';
  ss_sorted : StronglySorted (leZ s) l';
  ss_stable : forall z, filter (sameZ s z) l' = filter (sameZ s z) l
}.

(** The paint order of the subtree of [e] in the scene [s]: [e] first, then
    the paint orders of its children, the children taken by ascending
    z-index (stable). *)
#[warnings="-register-all"] Inductive PaintOrder (s : State) : Entity -> list Entity -> Prop :=
| PaintOrder_node (e : Entity) (kids : list Entity) (subs : list (list Entity)) :
    StableSortedByZ s (childrenOf s e) kids ->
    Forall2 (PaintOrder s) kids subs ->
    PaintOrder s e (e :: concat subs).

(** The subtree of [e] has at most [h] levels. *)
#[warnings="-register-all"] Inductive Within (s : State) : nat -> Entity -> Prop :=
| Within_node (h : nat) (e : Entity) :
    Forall (Within s h) (childrenOf s e) -> Within s (S h) e.

(** The children of [n] in the scene [s0], sorted. *)
Definition sortedKids (s0 : State) (n : Entity) : list Entity :=
  sortByZIndex s0 (childrenOf s0 n).

(** A state reached during a sort that started in [s0]: z-indices as at the
    start, every children list as at the start or already sorted. *)
Definition During (s0 s : State) : Prop :=
  (forall n, zOf s n = zOf s0 n) /\
  (forall n, childrenOf s n = childrenOf s0 n \/ childrenOf s n = sortedKids s0 n).

(** What a run of [flatten], or of a loop of such runs over the list [l],
    achieves from [a] to [a']. *)
Definition Flattened (s0 : State) (l : list Entity) (a a' : State * list Entity) : Prop :=
  During s0 (fst a') /\
  (forall n, childrenOf (fst a') n = childrenOf (fst a) n \/
             childrenOf (fst a') n = sortedKids s0 n) /\
  exists subs,
    Forall2 (PaintOrder s0) l subs /\
    snd a' = snd a ++ concat subs /\
    (forall n, In n (concat subs) -> childrenOf (fst a') n = sortedKids s0 n).

(** *** The cached-matrix invariant *)

(** The world matrix the code computes for [n]: the parent's cached world
    matrix times the cached local matrix, or the local matrix alone for a
    root (and for a node whose parent carries no [Transform]). *)
Definition compose (s : State) (n : Entity) (t : Transform) : mat4 :=
  match parentOf s n with
  | Some p =>
      match trOf s p with
      | Some pt => mat4_multiply (worldTransform pt) (localTransform t)
      | None => localTransform t
      end
  | None => localTransform t
  end.

Definition parentDirty (s : State) (n : Entity) : bool :=
  match parentOf s n with
  | Some p =>
      match trOf s p with
      | Some pt => dirtyFlag pt
      | None => false
      end
  | None => false
  end.

(** The cached local matrix is the TRS composition of the local fields. *)
Definition LocalOk (t : Transform) : Prop :=
  localDirtyFlag t = false ->
  localTransform t =
    mat4_fromRotationTranslationScaleOrigin
      (localRotation t) (localPosition t) (localScale t) (origin t).

(** A stale local matrix makes the world matrix stale. *)
Definition FlagsOk (t : Transform) : Prop :=
  localDirtyFlag t = true -> dirtyFlag t = true.

(** The cached world matrix is up to date, and so is the parent's. *)
Definition WorldOk (s : State) (n : Entity) (t : Transform) : Prop :=
  dirtyFlag t = false ->
  worldTransform t = compose s n t /\ parentDirty s n = false.

(** Every node is in the children list of its parent. *)
Definition Listed (s : State) : Prop :=
  forall n p, parentOf s n = Some p -> In n (childrenOf s p).

Definition nobody : Entity -> Prop := fun _ => False.
Definition only (e : Entity) : Entity -> Prop := fun n => n = e.
Definition also (P : Entity -> Prop) (e : Entity) : Entity -> Prop :=
  fun n => P n \/ n = e.
Definition alsoAll (P : Entity -> Prop) (l : list Entity) : Entity -> Prop :=
  fun n => P n \/ In n l.

(** The invariant of the store, up to the entities that are in the middle of
    an update: [L] lists those whose local fields were just written, [F]
    those whose local flag was just set, [W] those whose world matrix is
    about to be marked stale. *)
Definition Core (L F W : Entity -> Prop) (s : State) : Prop :=
  forall n t, trOf s n = Some t ->
    (~ L n -> LocalOk t) /\ (~ F n -> FlagsOk t) /\ (~ W n -> WorldOk s n t).

Definition Inv (L F W : Entity -> Prop) (s : State) : Prop :=
  Listed s /\ Core L F W s.

Definition Consistent (s : State) : Prop := Inv nobody nobody nobody s.

(** The invariant in the words of the specification. *)
Definition CachedMatrices (s : State) : Prop :=
  forall n t, trOf s n = Some t ->
    (localDirtyFlag t = false ->
       localTransform t =
         mat4_fromRotationTranslationScaleOrigin
           (localRotation t) (localPosition t) (localScale t) (origin t)) /\
    (dirtyFlag t = false ->
       worldTransform t =
         match parentOf s n with
         | Some p =>
             match trOf s p with
             | Some pt => mat4_multiply (worldTransform pt) (localTransform t)
             | None => localTransform t
             end
         | None => localTransform t
         end).

(** What no operation other than [attach] and [detach] changes: the tree,
    and which entities carry a [Transform]. *)
Definition Frame (s s' : State) : Prop :=
  forall n,
    parentOf s' n = parentOf s n /\
    childrenOf s' n = childrenOf s n /\
    (trOf s' n = None <-> trOf s n = None).

(** Two stores with the same tree and the same transforms. *)
Definition SameCore (s s' : State) : Prop :=
  forall n,
    parentOf s' n = parentOf s n /\
    childrenOf s' n = childrenOf s n /\
    trOf s' n = trOf s n.

(** The fields the setters write. *)
Definition localFields (t : Transform) : vec3 * quat * vec3 * vec3 :=
  (localPosition t, localRotation t, localScale t, origin t).

(** Two stores with the same local fields everywhere. *)
Definition KeepsLocal (s s' : State) : Prop :=
  forall n, option_map localFields (trOf s' n) = option_map localFields (trOf s n).

(** *** Operations *)

Inductive Op : Type :=
| OpAttach (e p : Entity) (index : option Z)
| OpSetLocalPosition (e : Entity) (v : vec3)
| OpSetPosition (e : Entity) (v : vec3)
| OpTranslate (e : Entity) (v : vec3)
| OpTranslateLocal (e : Entity) (v : vec3)
| OpRotate (e : Entity) (degrees : vec3)
| OpRotateLocal (e : Entity) (degrees : vec3)
| OpSetEulerAngles (e : Entity) (degrees : vec3)
| OpSetLocalEulerAngles (e : Entity) (degrees : vec3)
| OpScaleLocal (e : Entity) (v : vec3)
| OpSetLocalScale (e : Entity) (v : vec3)
| OpGetLocalTransform (e : Entity)
| OpGetWorldTransform (e : Entity)
| OpGetPosition (e : Entity)
| OpGetRotation (e : Entity)
| OpGetScale (e : Entity)
| OpMatrixTransform (e : Entity) (m : mat4)
| OpSetLocalDirty (e : Entity)
| OpSetDirty (e : Entity)
| OpUpdateRenderableAABB (e : Entity)
| OpSort (e : Entity) (force : bool).

Definition dropValue {A : Type} (r : Res (A * State)) : Res State :=
  '(_, s) <- r ;; Ok s.

Definition step (fuel : nat) (op : Op) (s : State) : Res State :=
  match op with
  | OpAttach e p index => attach fuel e p index s
  | OpSetLocalPosition e v => setLocalPosition fuel e v s
  | OpSetPosition e v => setPosition fuel e v s
  | OpTranslate e v => translate fuel e v s
  | OpTranslateLocal e v => translateLocal fuel e v s
  | OpRotate e d => rotate fuel e d s
  | OpRotateLocal e d => rotateLocal fuel e d s
  | OpSetEulerAngles e d => setEulerAngles fuel e d s
  | OpSetLocalEulerAngles e d => setLocalEulerAngles fuel e d s
  | OpScaleLocal e v => scaleLocal fuel e v s
  | OpSetLocalScale e v => setLocalScale fuel e v s
  | OpGetLocalTransform e => dropValue (getLocalTransform e s)
  | OpGetWorldTransform e => dropValue (getWorldTransform fuel e s)
  | OpGetPosition e => dropValue (getPosition fuel e s)
  | OpGetRotation e => dropValue (getRotation fuel e s)
  | OpGetScale e => dropValue (getScale fuel e s)
  | OpMatrixTransform e m => matrixTransform fuel e m s
  | OpSetLocalDirty e => setLocalDirty fuel e s
  | OpSetDirty e => setDirty fuel e s
  | OpUpdateRenderableAABB e => updateRenderableAABB fuel e s
  | OpSort e force => '(_, s') <- sort fuel e force s ;; Ok s'
  end.

(** [attach] is considered on a node without a parent, or onto a parent
    that carries a [Transform]. *)
Definition admissible (op : Op) (s : State) : Prop :=
  match op with
  | OpAttach e p _ => parentOf s e = None \/ trOf s p <> None
  | _ => True
  end.

(** [s'] is reached from [s] by the operations [ops], each of which
    returned. *)
Inductive Reaches (fuel : nat) : State -> list Op -> State -> Prop :=
| Reaches_nil (s : State) : Reaches fuel s [] s
| Reaches_cons (s s1 s' : State) (op : Op) (ops : list Op) :
    admissible op s ->
    step fuel op s = Ok s1 ->
    Reaches fuel s1 ops s' ->
    Reaches fuel s (op :: ops) s'.

End Specifications.

(** ** Concrete scenes over the rational instance *)

Module Scene.

#[local] Existing Instance QGL.glmatrix.
#[local] Existing Instance QGL.shapes.

Definition zero3 : QGL.V3 := (0, 0, 0)%Q.
Definition one3 : QGL.V3 := (1, 1, 1)%Q.
Definition qid : QGL.Quat := (0, 0, 0, 1)%Q.

(** A [Transform] as the component is created: identity, both flags clear. *)
Definition freshT : Transform :=
  mkTransform zero3 qid one3 zero3 QGL.identity QGL.identity false false zero3 qid one3.

Definition plain : Components :=
  mkComponents (mkNode None [] false) (mkSortable 0%Z false []) (Some freshT) None None.

(** An entity with a [Renderable] and a [Geometry] whose box is [b]. *)
Definition shape (b : QGL.Box) : Components :=
  mkComponents (mkNode None [] false) (mkSortable 0%Z false []) (Some freshT)
    (Some (mkRenderable None false)) (Some b).

Definition withZ (z : Z) (c : Components) : Components :=
  mkComponents (node c) (mkSortable z true []) (transform c) (renderable c) (geometry c).

(** The empty scene: every entity is a parentless plain node. *)
Definition blank : State := mkState (fun _ => plain) [].

Definition unitSquare : QGL.Box := ((- (1), - (1), 0), (1, 1, 0))%Q.

(** The outcome of a run, or [d] when the run did not return. *)
Definition after {A : Type} (r : Res A) (d : A) : A :=
  match r with
  | Ok a => a
  | _ => d
  end.

Definition returns {A : Type} (r : Res A) : Prop :=
  match r with
  | Ok _ => True
  | _ => False
  end.

Definition present {A : Type} (o : option A) : Prop :=
  match o with
  | Some _ => True
  | None => False
  end.

(** Entity 0 with the children 1, 2, 3 attached in this order. *)
Definition family : State :=
  after (s <- attach 10 1 0 None blank ;;
         s <- attach 10 2 0 None s ;;
         attach 10 3 0 None s) blank.

(** Entity 0 scaled by 2 and read once, entity 1 a root at (1, 0, 0). *)
Definition scaledParent : State :=
  after (s <- setLocalPosition 10 1 (1, 0, 0)%Q blank ;;
         s <- setLocalScale 10 0 (2, 2, 2)%Q s ;;
         '(_, s) <- getWorldTransform 10 0 s ;;
         '(_, s) <- getPosition 10 1 s ;;
         Ok s) blank.

(** Entity 1 under entity 0, whose local scale (-1, -1, 1) makes its world
    matrix the rotation by 180 degrees about the z axis. *)
Definition turnedParent : State :=
  after (s <- attach 10 1 0 None blank ;;
         s <- setLocalScale 10 0 (- (1), - (1), 1)%Q s ;;
         '(_, s) <- getRotation 10 1 s ;;
         Ok s) blank.

(** Entity 1 under entity 0, whose local scale is (1, 1, -1). *)
Definition mirroredParent : State :=
  after (s <- attach 10 1 0 None blank ;;
         setLocalScale 10 0 (1, 1, - (1))%Q s) blank.

(** Entity 1, a shape, under entity 0 moved to (10, 0, 0); all read once. *)
Definition movedParent : State :=
  after (s <- attach 10 1 0 None (upd 1 (shape unitSquare) blank) ;;
         s <- setLocalPosition 10 0 (10, 0, 0)%Q s ;;
         '(_, s) <- getWorldTransform 10 1 s ;;
         Ok s) blank.

(** Entity 0, a parentless shape with the unit square as its box. *)
Definition square : State := upd 0 (shape unitSquare) blank.

(** Entity 0 moved once, so that both its flags are set. *)
Definition moved : State :=
  after (setLocalPosition 10 0 (1, 0, 0)%Q blank) blank.

(** Entity 0 with the children 1, 2, 3 attached in this order, with the
    z-indices 2, 1, 1; the [Sortable] of every one of them is dirty. *)
Definition layered : State :=
  after (s <- attach 10 1 0 None
               (upd 0 (withZ 0 plain)
                  (upd 1 (withZ 2 plain)
                     (upd 2 (withZ 1 plain) (upd 3 (withZ 1 plain) blank)))) ;;
         s <- attach 10 2 0 None s ;;
         attach 10 3 0 None s) blank.

(** The result of sorting the layered scene from entity 0. *)
Definition layeredSort : list Entity * State :=
  after (sort 10 0 false layered) ([], layered).

(** Entity 0 scaled by 2, its local matrix read, then [setOrigin]. *)
Definition originMoved : State :=
  after (s <- setLocalScale 10 0 (2, 2, 2)%Q blank ;;
         '(_, s) <- getLocalTransform 0 s ;;
         setOrigin 0 (1, 0, 0)%Q s) blank.

(** A short session on the empty scene. *)
Definition tour1 : State := after (step 10 (OpAttach 1 0 None) blank) blank.
Definition tour2 : State :=
  after (step 10 (OpSetLocalPosition 0 (10, 0, 0)%Q) tour1) blank.
Definition tour3 : State := after (step 10 (OpGetWorldTransform 1) tour2) blank.
Definition tour4 : State := after (step 10 (OpAttach 1 2 None) tour3) blank.
Definition tour : list Op :=
  [ OpAttach 1 0 None; OpSetLocalPosition 0 (10, 0, 0)%Q; OpGetWorldTransform 1;
    OpAttach 1 2 None ].

End Scene.

(** ** More scenes *)

Module Session.

#[local] Existing Instance QGL.glmatrix.
#[local] Existing Instance QGL.shapes.

Import Scene.

(** The world matrix of entity 1 read at the end of the session, and the
    store after the read. *)
Definition tourRead : QGL.M4 * State :=
  after (getWorldTransform 10 1 tour4) (QGL.identity, blank).

(** Entity 0 of the empty scene moved to (3, 4, 5), then its position read. *)
Definition placed : State :=
  after (setLocalPosition 10 0 (3, 4, 5)%Q blank) blank.

Definition placedRead : QGL.V3 * State :=
  after (getPosition 10 0 placed) (zero3, blank).

End Session.

(** ** More vocabulary *)

Section MoreVocabulary.

Context {G : GLMatrix} {Sh : Shapes G}.

(** The TRS composition of the local fields and the origin of [t]. *)
Definition localTRS (t : Transform) : mat4 :=
  mat4_fromRotationTranslationScaleOrigin
    (localRotation t) (localPosition t) (localScale t) (origin t).

End MoreVocabulary.

Section OperationKinds.

Context {G : GLMatrix} {Sh : Shapes G}.

Definition isAttach (op : Op) : bool :=
  match op with
  | OpAttach _ _ _ => true
  | _ => false
  end.

Definition isSort (op : Op) : bool :=
  match op with
  | OpSort _ _ => true
  | _ => false
  end.

(** The entity whose local fields an operation writes, if it writes any. *)
Definition writes (op : Op) : option Entity :=
  match op with
  | OpAttach e _ _ => Some e
  | OpSetLocalPosition e _ => Some e
  | OpSetPosition e _ => Some e
  | OpTranslate e _ => Some e
  | OpTranslateLocal e _ => Some e
  | OpRotate e _ => Some e
  | OpRotateLocal e _ => Some e
  | OpSetEulerAngles e _ => Some e
  | OpSetLocalEulerAngles e _ => Some e
  | OpScaleLocal e _ => Some e
  | OpSetLocalScale e _ => Some e
  | OpMatrixTransform e _ => Some e
  | _ => None
  end.

(** Two stores with the same local fields at every entity that [exempt]
    does not name. *)
Definition KeepsLocalBut (exempt : option Entity) (s s' : State) : Prop :=
  forall n, exempt <> Some n ->
    option_map localFields (trOf s' n) = option_map localFields (trOf s n).

End OperationKinds.

Section Untouched.

Context {G : GLMatrix} {Sh : Shapes G}.

(** The entity whose [Sortable] an operation writes, if it writes any. *)
Definition sorts (op : Op) : option Entity :=
  match op with
  | OpSort e _ => Some e
  | _ => None
  end.

(** What the service leaves alone between two stores: the [Sortable] of every
    entity that [exempt] does not name, every [Geometry], the presence of
    every [Renderable], every origin; no node is frozen that was not; the
    event log only grows, by entities that carry a [Renderable] and a
    [Geometry]. *)
Definition QuietBut (exempt : option Entity) (s s' : State) : Prop :=
  (forall n,
     (exempt <> Some n -> sortable (comps s' n) = sortable (comps s n)) /\
     geometry (comps s' n) = geometry (comps s n) /\
     (renderable (comps s' n) = None <-> renderable (comps s n) = None) /\
     (frozen (nodeOf s' n) = true -> frozen (nodeOf s n) = true) /\
     option_map origin (trOf s' n) = option_map origin (trOf s n)) /\
  exists l, events s' = events s ++ l /\
    forall e, In e l -> renderable (comps s e) <> None /\ geometry (comps s e) <> None.

(** A sequence of operations, each of which has to return. *)
Fixpoint run (fuel : nat) (ops : list Op) (s : State) : Res State :=
  match ops with
  | [] => Ok s
  | op :: rest => s1 <- step fuel op s ;; run fuel rest s1
  end.

End Untouched.

Module Episodes.

#[local] Existing Instance QGL.glmatrix.
#[local] Existing Instance QGL.shapes.

Import Scene.

(** The layered scene after its sort, with a fourth child attached to
    entity 0 afterwards. *)
Definition layeredGrown : State :=
  after (run 10 [OpAttach 4 0 None] (snd layeredSort)) blank.

(** The parentless unit square scaled by 2. *)
Definition squareScaled : State :=
  after (step 10 (OpSetLocalScale 0 (2, 2, 2)%Q) square) blank.

End Episodes.

Section TreeVocabulary.

Context {G : GLMatrix} {Sh : Shapes G}.

(** The children list of [n] once [e] has left the children list of its
    parent. *)
Definition kidsWithout (e : Entity) (s : State) (n : Entity) : list Entity :=
  match parentOf s e with
  | Some q => if Nat.eqb n q then removeFirst e (childrenOf s n) else childrenOf s n
  | None => childrenOf s n
  end.

(** [children.splice(index, 0, entity)], or [children.push(entity)] when no
    index is given. *)
Definition insertedAt (index : option Z) (e : Entity) (l : list Entity) : list Entity :=
  match index with
  | Some i => spliceIn i e l
  | None => l ++ [e]
  end.

(** The elements at the odd positions (the second, the fourth, ...). *)
Fixpoint everyOther (l : list Entity) : list Entity :=
  match l with
  | _ :: b :: r => b :: everyOther r
  | _ => []
  end.

End TreeVocabulary.

Module Families.

#[local] Existing Instance QGL.glmatrix.
#[local] Existing Instance QGL.shapes.

Import Scene.

(** The family after entity 1 was detached. *)
Definition familyLess : State := after (detach 10 1 family) blank.

(** The family after [detachChildren] on entity 0. *)
Definition familyHalved : State := after (detachChildren 10 0 family) blank.

End Families.

Section PositionVocabulary.

Context {G : GLMatrix} {Sh : Shapes G}.

(** [mat4.invert(out, out)] on a copy: where the matrix has no inverse the
    copy is left as it is. *)
Definition invertOrKeep (m : mat4) : mat4 :=
  match mat4_invert m with
  | Some i => i
  | None => m
  end.

(** The world point [v] in the frame of the parent of [e], through the
    world matrix the parent has cached in [s]. *)
Definition inParentFrame (s : State) (e : Entity) (v : vec3) : vec3 :=
  match parentOf s e with
  | Some p =>
      match trOf s p with
      | Some pt => vec3_transformMat4 v (invertOrKeep (worldTransform pt))
      | None => v
      end
  | None => v
  end.

End PositionVocabulary.

Module Writes.

#[local] Existing Instance QGL.glmatrix.
#[local] Existing Instance QGL.shapes.

Import Scene Session.

Definition halfTurn : QGL.V3 := (0, 0, 180)%Q.

(** Entity 0 of the empty scene after one local setter. *)
Definition sized : State := after (setLocalScale 10 0 (2, 2, 2)%Q blank) blank.
Definition turned : State := after (setLocalEulerAngles 10 0 halfTurn blank) blank.

(** Entity 0 at (3, 4, 5) after one relative local setter. *)
Definition placedMoved : State := after (translateLocal 10 0 (1, 0, 0)%Q placed) blank.
Definition placedScaled : State := after (scaleLocal 10 0 (2, 3, 4)%Q placed) blank.
Definition placedTurned : State := after (rotateLocal 10 0 halfTurn placed) blank.
Definition placedTimes : State :=
  after (matrixTransform 10 0 QGL.identity placed) blank.

(** Entity 1 under entity 0, which was moved and not read since, after one
    world setter on entity 1. *)
Definition repositioned : State := after (setPosition 10 1 (5, 0, 0)%Q tour2) blank.
Definition shifted : State := after (translate 10 1 (1, 0, 0)%Q tour2) blank.
Definition spun : State := after (rotate 10 1 halfTurn tour2) blank.
Definition angled : State := after (setEulerAngles 10 1 halfTurn tour2) blank.

End Writes.

Section ChainVocabulary.

Context {G : GLMatrix} {Sh : Shapes G}.

(** The parent chain of an entity ends at a node without parent after [d]
    links. *)
Inductive RootIn (s : State) : nat -> Entity -> Prop :=
| RootIn_here (e : Entity) : parentOf s e = None -> RootIn s 0 e
| RootIn_up (e p : Entity) (d : nat) :
    parentOf s e = Some p -> RootIn s d p -> RootIn s (S d) e.

End ChainVocabulary.

Section ReadVocabulary.

Context {G : GLMatrix} {Sh : Shapes G}.

Definition isRead (op : Op) : bool :=
  match op with
  | OpGetLocalTransform _ | OpGetWorldTransform _
  | OpGetPosition _ | OpGetRotation _ | OpGetScale _ => true
  | _ => false
  end.

Definition isLocalSetter (op : Op) : bool :=
  match op with
  | OpSetLocalPosition _ _ | OpTranslateLocal _ _ | OpRotateLocal _ _
  | OpSetLocalEulerAngles _ _ | OpScaleLocal _ _ | OpSetLocalScale _ _ => true
  | _ => false
  end.

(** Two stores that differ in [Transform] components only, with the same
    event log. *)
Definition Silent (s s' : State) : Prop :=
  events s' = events s /\
  forall n,
    nodeOf s' n = nodeOf s n /\
    sortable (comps s' n) = sortable (comps s n) /\
    renderable (comps s' n) = renderable (comps s n) /\
    geometry (comps s' n) = geometry (comps s n).

(** The bounding box of [e] is the box of its [Geometry] carried by its
    cached world matrix, its flags are clear, and the last event names it. *)
Definition BoxFresh (s0 s' : State) (e : Entity) (box : AABB) : Prop :=
  exists (w : mat4) (t' : Transform) (evs : list Entity),
    renderable (comps s' e) = Some (mkRenderable (Some (setFromTransformedAABB box w)) true) /\
    trOf s' e = Some t' /\
    worldTransform t' = w /\
    localDirtyFlag t' = false /\
    dirtyFlag t' = false /\
    events s' = events s0 ++ evs ++ [e].

End ReadVocabulary.

Module Boxed.

#[local] Existing Instance QGL.glmatrix.
#[local] Existing Instance QGL.shapes.

Import Scene.

(** The [Transform] of entity 1 in the family. *)
Definition familyT1 : Transform :=
  match trOf family 1 with
  | Some t => t
  | None => freshT
  end.

(** The parentless unit square after a refresh of its bounding box. *)
Definition squareBoxed : State := after (updateRenderableAABB 10 0 square) blank.

(** Entity 0 of the empty scene with its origin at (1, 0, 0). *)
Definition pivoted : State := setT 0 (withOrigin (1, 0, 0)%Q freshT) blank.

End Boxed.

Module Returns.

#[local] Existing Instance QGL.glmatrix.
#[local] Existing Instance QGL.shapes.

Import Scene.

(** Entity 1 attached under entity 0 in the empty scene, then detached. *)
Definition returned : State := after (detach 10 1 tour1) blank.

End Returns.

(** * Properties *)

Module RunFacts.

Import Scene.

Lemma after_returns {A : Type} (r : Res A) (d : A) : returns r -> r = Ok (after r d).
Proof.
  destruct r; simpl; intros H; [reflexivity | contradiction | contradiction].
Qed.

Lemma present_not_None {A : Type} (o : option A) : present o -> o <> None.
Proof.
  destruct o; simpl; [discriminate | contradiction].
Qed.

End RunFacts.

Module SceneFacts.

#[local] Existing Instance QGL.glmatrix.
#[local] Existing Instance QGL.shapes.

Import Scene.

(** C1, at the failing input.  Entity 1 is a shape under entity 0, which was
    moved to (10, 0, 0); all matrices are up to date.  After [detach 1] the
    entity is a root, and yet the world matrix that [getWorldTransform]
    returns for it still carries the translation of the former parent while
    [getLocalTransform] returns the identity: the two differ. *)
Lemma detach_leaves_world_unequal_to_local :
  match (s <- detach 10 1 movedParent ;;
         '(w, s) <- getWorldTransform 10 1 s ;;
         '(l, s) <- getLocalTransform 1 s ;;
         Ok (w, l, parentOf s 1)) with
  | Ok (w, l, p) =>
      p = None /\
      QGL.getTranslation w = (10, 0, 0)%Q /\
      l = QGL.identity /\
      w <> l
  | _ => False
  end.
Proof.
  vm_compute. repeat split; try reflexivity. discriminate.
Qed.

(** C2, at the failing input.  Entity 1 is a root at world position
    (1, 0, 0); entity 0 has the up-to-date world matrix "scale by 2".  After
    [attach 1 0] the world position of entity 1 is (2, 0, 0), not (1, 0, 0). *)
Lemma attach_moves_node_under_scaled_parent :
  match getPosition 10 1 scaledParent with
  | Ok (p, _) => p = (1, 0, 0)%Q
  | _ => False
  end /\
  match (s <- attach 10 1 0 None scaledParent ;; getPosition 10 1 s) with
  | Ok (p, _) => p = (2, 0, 0)%Q
  | _ => False
  end.
Proof.
  split; vm_compute; reflexivity.
Qed.

(** C4, at the failing input.  Entity 0 has the children 1, 2, 3.  After
    [detachChildren 0] entity 2 is still a child of entity 0: the walk over
    the live array skips the element that moves into the slot just left. *)
Lemma detachChildren_skips_every_other_child :
  childrenOf family 0 = [1; 2; 3] /\
  match detachChildren 10 0 family with
  | Ok s =>
      childrenOf s 0 = [2] /\ parentOf s 1 = None /\
      parentOf s 2 = Some 0 /\ parentOf s 3 = None
  | _ => False
  end.
Proof.
  split; [vm_compute; reflexivity|].
  vm_compute. repeat split; reflexivity.
Qed.

(** C6, at the failing input.  Entity 1 is a child of entity 0, whose local
    scale is (1, 1, -1).  After [setEulerAngles 1 (0, 0, 0)] the stored local
    rotation of entity 1 is (0, 0, 0, w) with w * w greater than 1.9: it is
    not a unit quaternion, no normalisation took place.  (The square root of
    2 that [mat4.getRotation] takes on the way is rounded in the instance;
    with the exact root, w is the square root of 2.) *)
Lemma setEulerAngles_stores_non_unit_quaternion :
  match (s <- setEulerAngles 10 1 zero3 mirroredParent ;; getLocalRotation 1 s) with
  | Ok (x, y, z, w) =>
      x = 0%Q /\ y = 0%Q /\ z = 0%Q /\ (19 # 10 < w * w)%Q
  | _ => False
  end.
Proof.
  vm_compute. repeat split; reflexivity.
Qed.

(** C7, at the failing input.  Entity 1 is a child of entity 0, whose world
    matrix is the rotation by 180 degrees about z, so the world rotation of
    entity 1 is the quaternion (0, 0, 1, 0).  After [rotate 1 (0, 0, 0)], a
    request to turn by nothing, [getRotation 1] is (0, 0, 0, 1): the world
    orientation has changed, because the stored local rotation is the former
    world rotation, not composed with the inverse of the parent's. *)
Lemma rotate_by_zero_changes_world_rotation :
  match getRotation 10 1 turnedParent with
  | Ok (r, _) => r = (0, 0, 1, 0)%Q
  | _ => False
  end /\
  QGL.fromEuler zero3 = qid /\
  match (s <- rotate 10 1 zero3 turnedParent ;;
         '(r, s) <- getRotation 10 1 s ;;
         l <- getLocalRotation 1 s ;;
         Ok (r, l)) with
  | Ok (r, l) => r = (0, 0, 0, 1)%Q /\ l = (0, 0, 1, 0)%Q
  | _ => False
  end.
Proof.
  split; [vm_compute; reflexivity|].
  split; [vm_compute; reflexivity|].
  vm_compute. split; reflexivity.
Qed.

(** C9.  Entity 0 is a parentless shape whose object-space box is
    [(-1,-1), (1,1)], with the identity transform and clear flags.
    [setLocalScale 0 (2, 2, 1)] stores the world-space box [(-2,-2), (2,2)]
    before it returns and emits one [AABBChanged] event, for entity 0. *)
Theorem setLocalScale_recomputes_box_and_emits_once (f : nat) :
  events square = [] /\
  match setLocalScale (2 + f) 0 (2, 2, 1)%Q square with
  | Ok s =>
      option_map (@aabb _ _) (renderable (comps s 0))
        = Some (Some ((- (2), - (2), 0), (2, 2, 0))%Q) /\
      events s = [0]
  | _ => False
  end.
Proof.
  split; [reflexivity|].
  vm_compute. split; reflexivity.
Qed.

End SceneFacts.

(** ** The loop combinators *)

Section Loops.

Context {G : GLMatrix} {Sh : Shapes G}.

(** While the body leaves the array as it is, [forEach] on the live array
    is the loop over its elements. *)
Lemma forEachLive_fixed {A : Type} (P : A -> Prop) (arr : A -> list Entity)
    (body : Entity -> A -> Res A) (L : list Entity) :
  (forall a, P a -> arr a = L) ->
  (forall x a a', In x L -> P a -> body x a = Ok a' -> P a') ->
  forall n k a, P a -> n + k = length L ->
    forEachLive n k arr body a = foldRes body (skipn k L) a.
Proof.
  intros Harr Hbody n.
  induction n as [|n IH]; intros k a Pa Hlen; simpl.
  - rewrite skipn_all2 by lia. reflexivity.
  - rewrite (Harr a Pa).
    destruct (nth_error L k) as [x|] eqn:Hx.
    + assert (Hsk : skipn k L = x :: skipn (S k) L).
      { clear - Hx. revert k Hx.
        induction L as [|y L IHL]; intros [|k] Hx; simpl in *; try discriminate.
        - injection Hx as ->. reflexivity.
        - apply IHL. exact Hx. }
      rewrite Hsk. simpl.
      destruct (body x a) as [a'| |] eqn:Hb; simpl; try reflexivity.
      apply IH; [|lia].
      apply (Hbody x a a'); auto.
      eapply nth_error_In; eauto.
    + apply nth_error_None in Hx. lia.
Qed.

Lemma forEach_fixed {A : Type} (P : A -> Prop) (arr : A -> list Entity)
    (body : Entity -> A -> Res A) (a : A) :
  (forall a', P a' -> arr a' = arr a) ->
  (forall x a1 a2, In x (arr a) -> P a1 -> body x a1 = Ok a2 -> P a2) ->
  P a ->
  forEach arr body a = foldRes body (arr a) a.
Proof.
  intros Harr Hbody Pa. unfold forEach.
  rewrite (forEachLive_fixed P arr body (L := arr a)); auto.
Qed.

(** An invariant of the body is an invariant of the loop. *)
Lemma foldRes_invariant {A : Type} (P : A -> Prop) (body : Entity -> A -> Res A) :
  forall (l : list Entity) (a a' : A),
    (forall x a1 a2, In x l -> P a1 -> body x a1 = Ok a2 -> P a2) ->
    P a -> foldRes body l a = Ok a' -> P a'.
Proof.
  induction l as [|x l IH]; intros a a' Hbody Pa Hrun; simpl in Hrun.
  - injection Hrun as <-. exact Pa.
  - destruct (body x a) as [a1| |] eqn:Hb; simpl in Hrun; try discriminate.
    apply (IH a1 a'); auto.
    + intros y b1 b2 Hy. apply Hbody. right. exact Hy.
    + apply (Hbody x a a1); auto. left. reflexivity.
Qed.

Lemma forEachLive_invariant {A : Type} (P : A -> Prop) (arr : A -> list Entity)
    (body : Entity -> A -> Res A) :
  (forall x a a', P a -> body x a = Ok a' -> P a') ->
  forall n k a a', P a -> forEachLive n k arr body a = Ok a' -> P a'.
Proof.
  intros Hbody n.
  induction n as [|n IH]; intros k a a' Pa Hrun; simpl in Hrun.
  - injection Hrun as <-. exact Pa.
  - destruct (nth_error (arr a) k) as [x|].
    + destruct (body x a) as [a1| |] eqn:Hb; simpl in Hrun; try discriminate.
      apply (IH (S k) a1 a'); auto. apply (Hbody x a a1); auto.
    + apply (IH (S k) a a'); auto.
Qed.

End Loops.

(** ** The sort of sibling lists *)

Section SortByZ.

Context {G : GLMatrix} {Sh : Shapes G}.

Variable s : State.

Lemma insertByZ_perm (e : Entity) (l : list Entity) :
  Permutation (e :: l) (insertByZ s e l).
Proof.
  induction l as [|x r IH]; simpl.
  - apply Permutation_refl.
  - destruct (zOf s e <=? zOf s x)%Z.
    + apply Permutation_refl.
    + eapply perm_trans; [apply perm_swap|]. apply perm_skip. exact IH.
Qed.

Lemma sortByZIndex_perm (l : list Entity) : Permutation l (sortByZIndex s l).
Proof.
  induction l as [|x r IH]; simpl.
  - apply perm_nil.
  - eapply perm_trans; [apply perm_skip; exact IH|]. apply insertByZ_perm.
Qed.

Lemma insertByZ_sorted (e : Entity) (l : list Entity) :
  StronglySorted (leZ s) l -> StronglySorted (leZ s) (insertByZ s e l).
Proof.
  induction l as [|x r IH]; intros Hs; simpl.
  - constructor; constructor.
  - inversion Hs as [|? ? Hr Hx]; subst.
    destruct (zOf s e <=? zOf s x)%Z eqn:Hle.
    + apply Z.leb_le in Hle. constructor; [exact Hs|].
      constructor; [exact Hle|].
      eapply Forall_impl; [|exact Hx].
      intros y Hy. unfold leZ in *. lia.
    + apply Z.leb_gt in Hle. constructor; [apply IH; exact Hr|].
      eapply Permutation_Forall; [apply insertByZ_perm|].
      constructor; [unfold leZ; lia | exact Hx].
Qed.

Lemma sortByZIndex_sorted (l : list Entity) : StronglySorted (leZ s) (sortByZIndex s l).
Proof.
  induction l as [|x r IH]; simpl.
  - constructor.
  - apply insertByZ_sorted. exact IH.
Qed.

Lemma insertByZ_filter (z : Z) (e : Entity) (l : list Entity) :
  filter (sameZ s z) (insertByZ s e l) = filter (sameZ s z) (e :: l).
Proof.
  induction l as [|x r IH]; [reflexivity|].
  cbn [insertByZ].
  destruct (zOf s e <=? zOf s x)%Z eqn:Hle; [reflexivity|].
  apply Z.leb_gt in Hle.
  cbn [filter] in *. rewrite IH.
  unfold sameZ.
  destruct (zOf s x =? z)%Z eqn:Hx; destruct (zOf s e =? z)%Z eqn:He; try reflexivity.
  apply Z.eqb_eq in Hx. apply Z.eqb_eq in He. lia.
Qed.

Lemma sortByZIndex_stable (z : Z) (l : list Entity) :
  filter (sameZ s z) (sortByZIndex s l) = filter (sameZ s z) l.
Proof.
  induction l as [|x r IH]; [reflexivity|].
  cbn [sortByZIndex]. rewrite insertByZ_filter. cbn [filter]. rewrite IH. reflexivity.
Qed.

Lemma sortByZIndex_spec (l : list Entity) : StableSortedByZ s l (sortByZIndex s l).
Proof.
  constructor.
  - apply sortByZIndex_perm.
  - apply sortByZIndex_sorted.
  - intros z. apply sortByZIndex_stable.
Qed.

Lemma sortByZIndex_fixed (l : list Entity) :
  StronglySorted (leZ s) l -> sortByZIndex s l = l.
Proof.
  induction l as [|x r IH]; intros Hs; [reflexivity|].
  inversion Hs as [|? ? Hr Hx]; subst.
  cbn [sortByZIndex]. rewrite (IH Hr).
  destruct r as [|y r']; [reflexivity|].
  cbn [insertByZ].
  inversion Hx as [|? ? Hxy _]; subst.
  unfold leZ in Hxy. apply Z.leb_le in Hxy. rewrite Hxy. reflexivity.
Qed.

Lemma sortByZIndex_idem (l : list Entity) :
  sortByZIndex s (sortByZIndex s l) = sortByZIndex s l.
Proof.
  apply sortByZIndex_fixed. apply sortByZIndex_sorted.
Qed.

Lemma sortByZIndex_nil (l : list Entity) : sortByZIndex s l = [] -> l = [].
Proof.
  intros H. apply Permutation_nil. rewrite <- H.
  apply Permutation_sym. apply sortByZIndex_perm.
Qed.

End SortByZ.

Section SortExt.

Context {G : GLMatrix} {Sh : Shapes G}.

Lemma sortByZIndex_ext (s s' : State) (l : list Entity) :
  (forall e, zOf s' e = zOf s e) -> sortByZIndex s' l = sortByZIndex s l.
Proof.
  intros Hz.
  induction l as [|x r IH]; [reflexivity|].
  cbn [sortByZIndex]. rewrite IH.
  generalize (sortByZIndex s r). intros l.
  induction l as [|y l IHl]; [reflexivity|].
  cbn [insertByZ]. rewrite !Hz, IHl. reflexivity.
Qed.

End SortExt.

(** ** [flatten] and [sort] *)

Section Flatten.

Context {G : GLMatrix} {Sh : Shapes G}.

Lemma childrenOf_setChildren (e : Entity) (l : list Entity) (s : State) (n : Entity) :
  childrenOf (setChildren e l s) n = if Nat.eqb n e then l else childrenOf s n.
Proof.
  unfold childrenOf, nodeOf, setChildren, setNode, upd. simpl.
  destruct (Nat.eqb n e); reflexivity.
Qed.

Lemma zOf_setChildren (e : Entity) (l : list Entity) (s : State) (n : Entity) :
  zOf (setChildren e l s) n = zOf s n.
Proof.
  unfold zOf, setChildren, setNode, upd. simpl.
  destruct (Nat.eqb_spec n e) as [->|]; reflexivity.
Qed.

End Flatten.

Section FlattenSpec.

Context {G : GLMatrix} {Sh : Shapes G}.

Variable s0 : State.

Lemma During_start : During s0 s0.
Proof.
  split; intros n; auto.
Qed.

Lemma Flattened_nil (a : State * list Entity) :
  During s0 (fst a) -> Flattened s0 [] a a.
Proof.
  intros HD. split; [exact HD|]. split; [intros n; left; reflexivity|].
  exists []. split; [constructor|]. split.
  - simpl. rewrite app_nil_r. reflexivity.
  - intros n [].
Qed.

Lemma Flattened_cons (c : Entity) (l : list Entity) (a a1 a2 : State * list Entity) :
  Flattened s0 [c] a a1 -> Flattened s0 l a1 a2 -> Flattened s0 (c :: l) a a2.
Proof.
  intros (_ & Hch1 & subs1 & HF1 & Hacc1 & Hin1) (HD2 & Hch2 & subs2 & HF2 & Hacc2 & Hin2).
  split; [exact HD2|]. split.
  - intros n. destruct (Hch2 n) as [E2|E2]; [|right; exact E2].
    rewrite E2. apply Hch1.
  - inversion HF1 as [|? sub ? ? HP Hnil]; subst. inversion Hnil; subst.
    exists (sub :: subs2). split; [constructor; assumption|]. split.
    + rewrite Hacc2, Hacc1. simpl. rewrite app_nil_r, app_assoc. reflexivity.
    + intros n Hn. simpl in Hn. apply in_app_or in Hn. destruct Hn as [Hn|Hn].
      * assert (E1 : childrenOf (fst a1) n = sortedKids s0 n).
        { apply Hin1. simpl. rewrite app_nil_r. exact Hn. }
        destruct (Hch2 n) as [E2|E2]; [rewrite E2; exact E1 | exact E2].
      * apply Hin2. exact Hn.
Qed.

Lemma foldRes_Flattened (body : Entity -> State * list Entity -> Res (State * list Entity)) :
  forall (l : list Entity) (a a' : State * list Entity),
    (forall c a1 a2, In c l -> During s0 (fst a1) -> body c a1 = Ok a2 ->
                     Flattened s0 [c] a1 a2) ->
    During s0 (fst a) ->
    foldRes body l a = Ok a' ->
    Flattened s0 l a a'.
Proof.
  induction l as [|c l IH]; intros a a' Hbody HD Hrun; simpl in Hrun.
  - injection Hrun as <-. apply Flattened_nil. exact HD.
  - destruct (body c a) as [a1| |] eqn:Hb; simpl in Hrun; try discriminate.
    assert (H1 : Flattened s0 [c] a a1).
    { apply Hbody; auto. left. reflexivity. }
    apply (Flattened_cons H1).
    apply IH; auto.
    + intros c' b1 b2 Hc'. apply Hbody. right. exact Hc'.
    + destruct H1 as [HD1 _]. exact HD1.
Qed.

Lemma PaintOrder_sorted (c : Entity) (subs : list (list Entity)) :
  Forall2 (PaintOrder s0) (sortedKids s0 c) subs -> PaintOrder s0 c (c :: concat subs).
Proof.
  intros HF. apply PaintOrder_node with (kids := sortedKids s0 c); [|exact HF].
  apply sortByZIndex_spec.
Qed.

(** The children list a sort finds at [e], sorted, is the sorted list of the
    children [e] had at the start. *)
Lemma During_sorted (s : State) (e : Entity) :
  During s0 s -> sortByZIndex s (childrenOf s e) = sortedKids s0 e.
Proof.
  intros [Hz Hc].
  rewrite (@sortByZIndex_ext _ _ s0 s _ Hz).
  destruct (Hc e) as [E|E]; rewrite E; [reflexivity|].
  apply sortByZIndex_idem.
Qed.

Lemma flatten_Flattened :
  forall (fuel : nat) (e : Entity) (s : State) (acc : list Entity)
         (a' : State * list Entity),
    During s0 s ->
    flatten fuel e (s, acc) = Ok a' ->
    Flattened s0 (sortedKids s0 e) (s, acc) a' /\
    childrenOf (fst a') e = sortedKids s0 e.
Proof.
  induction fuel as [|f IH]; intros e s acc a' HD Hrun; [discriminate|].
  cbn [flatten] in Hrun.
  pose proof (During_sorted e HD) as Hsorted.
  destruct (childrenOf s e) as [|k kids] eqn:Hkids.
  - injection Hrun as <-. simpl in Hsorted. rewrite <- Hsorted.
    split; [apply Flattened_nil; exact HD|].
    simpl. exact Hkids.
  - rewrite Hsorted in Hrun.
    set (s1 := setChildren e (sortedKids s0 e) s) in *.
    assert (HD1 : During s0 s1).
    { destruct HD as [Hz Hc]. split; intros n; unfold s1.
      - rewrite zOf_setChildren. apply Hz.
      - rewrite childrenOf_setChildren.
        destruct (Nat.eqb_spec n e) as [->|]; [right; reflexivity | apply Hc]. }
    assert (He1 : childrenOf s1 e = sortedKids s0 e).
    { unfold s1. rewrite childrenOf_setChildren, Nat.eqb_refl. reflexivity. }
    assert (Hone : forall c a1 a2, During s0 (fst a1) ->
              flatten f c (fst a1, snd a1 ++ [c]) = Ok a2 ->
              Flattened s0 [c] a1 a2).
    { intros c a1 a2 HDa Hc.
      destruct (IH c (fst a1) (snd a1 ++ [c]) a2 HDa Hc)
        as [(HD2 & Hch & subs & HF & Hacc & Hin) Hcc].
      simpl in Hch, Hacc.
      split; [exact HD2|]. split; [exact Hch|].
      exists [c :: concat subs]. split; [|split].
      - constructor; [|constructor]. apply PaintOrder_sorted. exact HF.
      - rewrite Hacc. simpl. rewrite app_nil_r, <- app_assoc. reflexivity.
      - intros n Hn. simpl in Hn. rewrite app_nil_r in Hn.
        destruct Hn as [<-|Hn]; [exact Hcc | apply Hin; exact Hn]. }
    rewrite (@forEach_fixed _ (fun a : State * list Entity =>
               During s0 (fst a) /\ childrenOf (fst a) e = sortedKids s0 e)) in Hrun.
    + simpl in Hrun. rewrite He1 in Hrun.
      assert (HF : Flattened s0 (sortedKids s0 e) (s1, acc) a').
      { apply foldRes_Flattened
          with (body := fun c st => flatten f c (fst st, snd st ++ [c]));
          [|exact HD1|exact Hrun].
        intros c a1 a2 _ HDa Hc. apply Hone; assumption. }
      destruct HF as (HD' & Hch' & subs & HFs & Hacc & Hin).
      simpl in Hch', Hacc.
      assert (He' : childrenOf (fst a') e = sortedKids s0 e).
      { destruct (Hch' e) as [E|E]; [rewrite E; exact He1 | exact E]. }
      split; [|exact He'].
      split; [exact HD'|]. split.
      * intros n. destruct (Hch' n) as [E|E]; [|right; exact E].
        rewrite E. unfold s1. rewrite childrenOf_setChildren.
        destruct (Nat.eqb_spec n e) as [->|]; [right; reflexivity | left; reflexivity].
      * exists subs. auto.
    + intros a1 [_ Hea]. simpl. rewrite Hea, He1. reflexivity.
    + intros c a1 a2 _ [HDa Hea] Hc.
      destruct (Hone c a1 a2 HDa Hc) as (HD2 & Hch & _).
      split; [exact HD2|].
      destruct (Hch e) as [E|E]; [rewrite E; exact Hea | exact E].
    + split; assumption.
Qed.

End FlattenSpec.

Section FlattenReturns.

Context {G : GLMatrix} {Sh : Shapes G}.

Variable s0 : State.

(** With children, [flatten] sorts the list of [e] and is the loop over the
    sorted list. *)
Lemma flatten_loop (f : nat) (e : Entity) (s : State) (acc : list Entity) :
  During s0 s ->
  childrenOf s e <> [] ->
  flatten (S f) e (s, acc) =
  foldRes (fun c st => flatten f c (fst st, snd st ++ [c]))
          (sortedKids s0 e) (setChildren e (sortedKids s0 e) s, acc).
Proof.
  intros HD Hne. cbn [flatten].
  pose proof (During_sorted e HD) as Hsorted.
  destruct (childrenOf s e) as [|k kids] eqn:Hkids; [congruence|].
  rewrite Hsorted.
  set (s1 := setChildren e (sortedKids s0 e) s).
  assert (HD1 : During s0 s1).
  { destruct HD as [Hz Hc]. split; intros n; unfold s1.
    - rewrite zOf_setChildren. apply Hz.
    - rewrite childrenOf_setChildren.
      destruct (Nat.eqb_spec n e) as [->|]; [right; reflexivity | apply Hc]. }
  assert (He1 : childrenOf s1 e = sortedKids s0 e).
  { unfold s1. rewrite childrenOf_setChildren, Nat.eqb_refl. reflexivity. }
  rewrite (@forEach_fixed _ (fun a : State * list Entity =>
             During s0 (fst a) /\ childrenOf (fst a) e = sortedKids s0 e)).
  - simpl. rewrite He1. reflexivity.
  - intros a1 [_ Hea]. simpl. rewrite Hea, He1. reflexivity.
  - intros c a1 a2 _ [HDa Hea] Hc.
    edestruct flatten_Flattened as [(HD2 & Hch & _) _]; [exact HDa|exact Hc|].
    split; [exact HD2|].
    destruct (Hch e) as [E|E]; [rewrite E; exact Hea | exact E].
  - split; assumption.
Qed.

Lemma foldRes_returns {A : Type} (P : A -> Prop) (body : Entity -> A -> Res A) :
  forall (l : list Entity) (a : A),
    (forall x a1, In x l -> P a1 -> exists a2, body x a1 = Ok a2 /\ P a2) ->
    P a -> exists a', foldRes body l a = Ok a'.
Proof.
  induction l as [|x l IH]; intros a Hbody Pa; cbn [foldRes].
  - eauto.
  - destruct (Hbody x a (or_introl eq_refl) Pa) as (a1 & -> & Pa1). cbn [bind].
    apply IH; [|exact Pa1].
    intros y b Hy. apply Hbody. right. exact Hy.
Qed.

(** On a subtree of at most [fuel] levels, [flatten] returns. *)
Lemma flatten_returns :
  forall (fuel : nat) (e : Entity) (s : State) (acc : list Entity),
    During s0 s -> Within s0 fuel e ->
    exists a', flatten fuel e (s, acc) = Ok a'.
Proof.
  induction fuel as [|f IH]; intros e s acc HD HW; inversion HW as [h e' Hkids]; subst.
  destruct (childrenOf s e) as [|k kids] eqn:Hk.
  - cbn [flatten]. rewrite Hk. eauto.
  - rewrite flatten_loop; [|exact HD|congruence].
    apply foldRes_returns with (P := fun a : State * list Entity => During s0 (fst a)).
    + intros c a1 Hc HDa.
      assert (HWc : Within s0 f c).
      { rewrite Forall_forall in Hkids. apply Hkids.
        eapply Permutation_in; [apply Permutation_sym, sortByZIndex_perm | exact Hc]. }
      destruct (IH c (fst a1) (snd a1 ++ [c]) HDa HWc) as [a2 Ha2].
      exists a2. split; [exact Ha2|].
      edestruct flatten_Flattened as [(HD2 & _) _]; [exact HDa|exact Ha2|exact HD2].
    + simpl. destruct HD as [Hz Hc]. split; intros n.
      * rewrite zOf_setChildren. apply Hz.
      * rewrite childrenOf_setChildren.
        destruct (Nat.eqb_spec n e) as [->|]; [right; reflexivity | apply Hc].
Qed.

End FlattenReturns.

Section SortSpec.

Context {G : GLMatrix} {Sh : Shapes G}.

Lemma childrenOf_setSortable (e : Entity) (o : Sortable) (s : State) (n : Entity) :
  childrenOf (setSortable e o s) n = childrenOf s n.
Proof.
  unfold childrenOf, nodeOf, setSortable, upd. simpl.
  destruct (Nat.eqb_spec n e) as [->|]; reflexivity.
Qed.

Lemma sortable_setSortable (e : Entity) (o : Sortable) (s : State) :
  sortable (comps (setSortable e o s) e) = o.
Proof.
  unfold setSortable, upd. simpl. rewrite Nat.eqb_refl. reflexivity.
Qed.



End SortSpec.

Module SortFacts.

#[local] Existing Instance QGL.glmatrix.
#[local] Existing Instance QGL.shapes.

Import Scene.

Lemma sort_layered : sort 10 0 false layered = Ok (fst layeredSort, snd layeredSort).
Proof.
  rewrite <- surjective_pairing. apply RunFacts.after_returns. vm_compute. exact I.
Qed.

Lemma sort_layered_result : fst layeredSort = [0; 2; 3; 1].
Proof.
  vm_compute. reflexivity.
Qed.

Lemma layered_Within : Within layered 10 0.
Proof.
  constructor.
  replace (childrenOf layered 0) with [1; 2; 3] by (vm_compute; reflexivity).
  repeat constructor.
Qed.



(** A traversal after the sort follows the z-index order, not the order of
    insertion. *)
Lemma visit_after_sort :
  childrenOf layered 0 = [1; 2; 3] /\
  childrenOf (snd layeredSort) 0 = [2; 3; 1] /\
  visit 10 (fun _ => false) 0 layered = Ok [0; 1; 2; 3] /\
  visit 10 (fun _ => false) 0 (snd layeredSort) = Ok [0; 2; 3; 1].
Proof.
  repeat split; vm_compute; reflexivity.
Qed.

End SortFacts.

(** ** The store *)

Section Store.

Context {G : GLMatrix} {Sh : Shapes G}.

Lemma trOf_setT (e : Entity) (t : Transform) (s : State) (n : Entity) :
  trOf (setT e t s) n = if Nat.eqb n e then Some t else trOf s n.
Proof.
  unfold trOf, setT, upd. simpl. destruct (Nat.eqb n e); reflexivity.
Qed.

Lemma nodeOf_setT (e : Entity) (t : Transform) (s : State) (n : Entity) :
  nodeOf (setT e t s) n = nodeOf s n.
Proof.
  unfold nodeOf, setT, upd. simpl. destruct (Nat.eqb_spec n e) as [->|]; reflexivity.
Qed.

Lemma trOf_setNode (e : Entity) (nd : SceneGraphNode) (s : State) (n : Entity) :
  trOf (setNode e nd s) n = trOf s n.
Proof.
  unfold trOf, setNode, upd. simpl. destruct (Nat.eqb_spec n e) as [->|]; reflexivity.
Qed.

Lemma nodeOf_setNode (e : Entity) (nd : SceneGraphNode) (s : State) (n : Entity) :
  nodeOf (setNode e nd s) n = if Nat.eqb n e then nd else nodeOf s n.
Proof.
  unfold nodeOf, setNode, upd. simpl. destruct (Nat.eqb n e); reflexivity.
Qed.

Lemma trOf_setRenderable (e : Entity) (r : Renderable) (s : State) (n : Entity) :
  trOf (setRenderable e r s) n = trOf s n.
Proof.
  unfold trOf, setRenderable, upd. simpl.
  destruct (Nat.eqb_spec n e) as [->|]; reflexivity.
Qed.

Lemma nodeOf_setRenderable (e : Entity) (r : Renderable) (s : State) (n : Entity) :
  nodeOf (setRenderable e r s) n = nodeOf s n.
Proof.
  unfold nodeOf, setRenderable, upd. simpl.
  destruct (Nat.eqb_spec n e) as [->|]; reflexivity.
Qed.

Lemma parentOf_setT (e : Entity) (t : Transform) (s : State) (n : Entity) :
  parentOf (setT e t s) n = parentOf s n.
Proof.
  unfold parentOf. rewrite nodeOf_setT. reflexivity.
Qed.

Lemma childrenOf_setT (e : Entity) (t : Transform) (s : State) (n : Entity) :
  childrenOf (setT e t s) n = childrenOf s n.
Proof.
  unfold childrenOf. rewrite nodeOf_setT. reflexivity.
Qed.

Lemma getT_Ok (e : Entity) (s : State) (t : Transform) :
  getT e s = Ok t <-> trOf s e = Some t.
Proof.
  unfold getT. destruct (trOf s e); split; intros H; congruence.
Qed.

Lemma SameCore_refl (s : State) : SameCore s s.
Proof.
  intros n. auto.
Qed.

Lemma SameCore_trans (s1 s2 s3 : State) :
  SameCore s1 s2 -> SameCore s2 s3 -> SameCore s1 s3.
Proof.
  intros H1 H2 n.
  destruct (H1 n) as (A1 & B1 & C1). destruct (H2 n) as (A2 & B2 & C2).
  repeat split; congruence.
Qed.

Lemma SameCore_setRenderable (e : Entity) (r : Renderable) (s : State) :
  SameCore s (setRenderable e r s).
Proof.
  intros n. unfold parentOf, childrenOf.
  rewrite nodeOf_setRenderable, trOf_setRenderable. auto.
Qed.

Lemma SameCore_emit (e : Entity) (s : State) : SameCore s (emit e s).
Proof.
  intros n. auto.
Qed.

Lemma SameCore_frozen (e : Entity) (b : bool) (s : State) :
  SameCore s (setNode e (withFrozen b (nodeOf s e)) s).
Proof.
  intros n. unfold parentOf, childrenOf.
  rewrite nodeOf_setNode, trOf_setNode.
  destruct (Nat.eqb_spec n e) as [->|]; auto.
Qed.

Lemma Frame_refl (s : State) : Frame s s.
Proof.
  intros n. repeat split; auto.
Qed.

Lemma Frame_trans (s1 s2 s3 : State) : Frame s1 s2 -> Frame s2 s3 -> Frame s1 s3.
Proof.
  intros H1 H2 n.
  destruct (H1 n) as (A1 & B1 & C1). destruct (H2 n) as (A2 & B2 & C2).
  split; [congruence|]. split; [congruence|].
  rewrite C2. exact C1.
Qed.

Lemma SameCore_Frame (s s' : State) : SameCore s s' -> Frame s s'.
Proof.
  intros H n. destruct (H n) as (A & B & C).
  split; [exact A|]. split; [exact B|]. rewrite C. reflexivity.
Qed.

Lemma Frame_setT (e : Entity) (t t' : Transform) (s : State) :
  trOf s e = Some t -> Frame s (setT e t' s).
Proof.
  intros Ht n. rewrite parentOf_setT, childrenOf_setT, trOf_setT.
  split; [reflexivity|]. split; [reflexivity|].
  destruct (Nat.eqb_spec n e) as [->|]; [|reflexivity].
  rewrite Ht. split; discriminate.
Qed.

End Store.

Create HintDb frame.

#[export] Hint Resolve Frame_refl SameCore_refl SameCore_Frame SameCore_setRenderable
  SameCore_emit SameCore_frozen : frame.

(** Take apart a run that returned. *)
Tactic Notation "inv_bind" hyp(H) "as" simple_intropattern(p) ident(E) :=
  match type of H with
  | bind ?c _ = Ok _ =>
      destruct c as [p| |] eqn:E; cbn [bind] in H; [|discriminate H|discriminate H]
  end.

Ltac inv_Ok H :=
  match type of H with
  | Ok _ = Ok _ => injection H as H; subst
  | Throw = Ok _ => discriminate H
  | OutOfFuel = Ok _ => discriminate H
  end.

(** ** What the queries and the dirty-flag protocol leave alone *)

Section Frames.

Context {G : GLMatrix} {Sh : Shapes G}.

Lemma getLocalTransform_Frame (e : Entity) (s s' : State) (m : mat4) :
  getLocalTransform e s = Ok (m, s') -> Frame s s'.
Proof.
  unfold getLocalTransform. intros H. inv_bind H as t Et.
  apply getT_Ok in Et.
  destruct (localDirtyFlag t); inv_Ok H; eauto using Frame_setT with frame.
Qed.

Lemma updateTransform_Frame (e : Entity) (s s' : State) :
  updateTransform e s = Ok s' -> Frame s s'.
Proof.
  unfold updateTransform. intros H. inv_bind H as t Et. inv_bind H as s1 E1.
  assert (F1 : Frame s s1).
  { destruct (localDirtyFlag t).
    - inv_bind E1 as [m s0] E0. inv_Ok E1.
      eapply getLocalTransform_Frame; eauto.
    - inv_Ok E1. auto with frame. }
  inv_bind H as t1 Et1.
  destruct (dirtyFlag t1); [|inv_Ok H; exact F1].
  destruct (match parentOf s1 e with Some p => trOf s1 p | None => None end);
    inv_bind H as [l s2] E2; inv_bind H as t2 Et2; inv_Ok H;
    apply getT_Ok in Et2;
    (eapply Frame_trans; [exact F1|]);
    (eapply Frame_trans; [eapply getLocalTransform_Frame; eauto|]);
    eapply Frame_setT; eauto.
Qed.

Lemma getWorldTransform_Frame (fuel : nat) :
  forall (e : Entity) (s s' : State) (m : mat4),
    getWorldTransform fuel e s = Ok (m, s') -> Frame s s'.
Proof.
  induction fuel as [|f IH]; intros e s s' m H; [discriminate|].
  cbn [getWorldTransform] in H. inv_bind H as t Et.
  destruct (negb (localDirtyFlag t) && negb (dirtyFlag t)).
  - inv_Ok H. auto with frame.
  - inv_bind H as s1 E1. inv_bind H as s2 E2. inv_bind H as t2 Et2. inv_Ok H.
    eapply Frame_trans; [|eapply updateTransform_Frame; eauto].
    destruct (parentOf s e) as [p|]; [|inv_Ok E1; auto with frame].
    destruct (trOf s p); [|inv_Ok E1; auto with frame].
    inv_bind E1 as [m' s0] E0. inv_Ok E1. eapply IH; eauto.
Qed.

Lemma getPosition_Frame (fuel : nat) (e : Entity) (s s' : State) (v : vec3) :
  getPosition fuel e s = Ok (v, s') -> Frame s s'.
Proof.
  unfold getPosition. intros H. inv_bind H as [w s1] E1.
  inv_bind H as t Et. inv_Ok H. apply getT_Ok in Et.
  eapply Frame_trans; [eapply getWorldTransform_Frame; eauto|].
  eapply Frame_setT; eauto.
Qed.

Lemma getRotation_Frame (fuel : nat) (e : Entity) (s s' : State) (q : quat) :
  getRotation fuel e s = Ok (q, s') -> Frame s s'.
Proof.
  unfold getRotation. intros H. inv_bind H as [w s1] E1.
  inv_bind H as t Et. inv_Ok H. apply getT_Ok in Et.
  eapply Frame_trans; [eapply getWorldTransform_Frame; eauto|].
  eapply Frame_setT; eauto.
Qed.

Lemma getScale_Frame (fuel : nat) (e : Entity) (s s' : State) (v : vec3) :
  getScale fuel e s = Ok (v, s') -> Frame s s'.
Proof.
  unfold getScale. intros H. inv_bind H as [w s1] E1.
  inv_bind H as t Et. inv_Ok H. apply getT_Ok in Et.
  eapply Frame_trans; [eapply getWorldTransform_Frame; eauto|].
  eapply Frame_setT; eauto.
Qed.

Lemma updateRenderableAABB_Frame (fuel : nat) (e : Entity) (s s' : State) :
  updateRenderableAABB fuel e s = Ok s' -> Frame s s'.
Proof.
  unfold updateRenderableAABB. intros H.
  destruct (renderable (comps s e)); [|discriminate].
  destruct (geometry (comps s e)); [|discriminate].
  inv_bind H as [w s1] E1. inv_Ok H.
  eapply Frame_trans; [eapply getWorldTransform_Frame; eauto|].
  apply SameCore_Frame.
  eapply SameCore_trans; [apply SameCore_setRenderable | apply SameCore_emit].
Qed.

Lemma dirtifyAABB_Frame (fuel : nat) (e : Entity) (s s' : State) :
  dirtifyAABB fuel e s = Ok s' -> Frame s s'.
Proof.
  unfold dirtifyAABB. intros H.
  destruct (renderable (comps s e)).
  - eapply updateRenderableAABB_Frame; eauto.
  - inv_Ok H. auto with frame.
Qed.

Lemma unfreezeParentToRoot_SameCore (fuel : nat) :
  forall (e : Entity) (s s' : State),
    unfreezeParentToRoot fuel e s = Ok s' -> SameCore s s'.
Proof.
  induction fuel as [|f IH]; intros e s s' H; [discriminate|].
  cbn [unfreezeParentToRoot] in H.
  destruct (parentOf (setNode e (withFrozen false (nodeOf s e)) s) e) as [p|].
  - eapply SameCore_trans; [apply SameCore_frozen | eapply IH; eauto].
  - inv_Ok H. apply SameCore_frozen.
Qed.

Lemma dirtifyWorldInternal_Frame (fuel : nat) :
  forall (e : Entity) (s s' : State),
    dirtifyWorldInternal fuel e s = Ok s' -> Frame s s'.
Proof.
  induction fuel as [|f IH]; intros e s s' H; [discriminate|].
  cbn [dirtifyWorldInternal] in H. inv_bind H as t Et. inv_bind H as s2 E2.
  apply getT_Ok in Et.
  eapply Frame_trans; [|eapply dirtifyAABB_Frame; eauto].
  destruct (negb (dirtyFlag t)); [|inv_Ok E2; auto with frame].
  unfold forEach in E2.
  set (s1 := setT e (withDirty true t) (setNode e (withFrozen false (nodeOf s e)) s)) in *.
  assert (F1 : Frame s s1).
  { unfold s1. eapply Frame_trans; [apply SameCore_Frame, SameCore_frozen|].
    eapply Frame_setT. rewrite trOf_setNode. exact Et. }
  revert E2. apply forEachLive_invariant; [|exact F1].
  intros c st st' Fst Hb. inv_bind Hb as ct Ect.
  destruct (negb (dirtyFlag ct)); [|inv_Ok Hb; exact Fst].
  eapply Frame_trans; [exact Fst | eapply IH; eauto].
Qed.

Lemma setDirty_Frame (fuel : nat) (e : Entity) (s s' : State) :
  setDirty fuel e s = Ok s' -> Frame s s'.
Proof.
  unfold setDirty. intros H. inv_bind H as t Et. inv_bind H as s1 E1.
  eapply Frame_trans; [|eapply dirtifyWorldInternal_Frame; eauto].
  destruct (negb (dirtyFlag t)); [|inv_Ok E1; auto with frame].
  apply SameCore_Frame. eapply unfreezeParentToRoot_SameCore; eauto.
Qed.

Lemma setLocalDirty_Frame (fuel : nat) (e : Entity) (s s' : State) :
  setLocalDirty fuel e s = Ok s' -> Frame s s'.
Proof.
  unfold setLocalDirty. intros H. inv_bind H as t Et. apply getT_Ok in Et.
  destruct (negb (localDirtyFlag t)); [|inv_Ok H; auto with frame].
  eapply Frame_trans; [eapply Frame_setT; eauto|].
  destruct (negb (dirtyFlag t)).
  - eapply setDirty_Frame; eauto.
  - eapply dirtifyAABB_Frame; eauto.
Qed.

Lemma matrixTransform_Frame (fuel : nat) (e : Entity) (m : mat4) (s s' : State) :
  matrixTransform fuel e m s = Ok s' -> Frame s s'.
Proof.
  unfold matrixTransform. intros H. inv_bind H as [l s1] E1.
  inv_bind H as t Et. apply getT_Ok in Et.
  eapply Frame_trans; [eapply getLocalTransform_Frame; eauto|].
  eapply Frame_trans; [eapply Frame_setT; eauto|].
  eapply setLocalDirty_Frame; eauto.
Qed.

Lemma applyTransform_Frame (fuel : nat) (e : Entity) (s s' : State) :
  applyTransform fuel e s = Ok s' -> Frame s s'.
Proof.
  unfold applyTransform. intros H. inv_bind H as t Et. apply getT_Ok in Et.
  eapply Frame_trans; [eapply Frame_setT; eauto|].
  eapply setDirty_Frame; eauto.
Qed.

End Frames.

(** ** [attach] of a node to itself *)

Section AttachSelf.

Context {G : GLMatrix} {Sh : Shapes G}.

Lemma parentOf_setParent (e : Entity) (p : option Entity) (s : State) (n : Entity) :
  parentOf (setParent e p s) n = if Nat.eqb n e then p else parentOf s n.
Proof.
  unfold parentOf, setParent. rewrite nodeOf_setNode.
  destruct (Nat.eqb n e); reflexivity.
Qed.

Lemma childrenOf_setParent (e : Entity) (p : option Entity) (s : State) (n : Entity) :
  childrenOf (setParent e p s) n = childrenOf s n.
Proof.
  unfold childrenOf, setParent. rewrite nodeOf_setNode.
  destruct (Nat.eqb_spec n e) as [->|]; reflexivity.
Qed.

Lemma trOf_setParent (e : Entity) (p : option Entity) (s : State) (n : Entity) :
  trOf (setParent e p s) n = trOf s n.
Proof.
  unfold setParent. apply trOf_setNode.
Qed.

Lemma parentOf_setChildren (e : Entity) (l : list Entity) (s : State) (n : Entity) :
  parentOf (setChildren e l s) n = parentOf s n.
Proof.
  unfold parentOf, setChildren. rewrite nodeOf_setNode.
  destruct (Nat.eqb_spec n e) as [->|]; reflexivity.
Qed.

Lemma trOf_setChildren (e : Entity) (l : list Entity) (s : State) (n : Entity) :
  trOf (setChildren e l s) n = trOf s n.
Proof.
  unfold setChildren. apply trOf_setNode.
Qed.

Lemma In_spliceIn (i : Z) (e x : Entity) (l : list Entity) :
  In x (spliceIn i e l) <-> x = e \/ In x l.
Proof.
  unfold spliceIn.
  set (k := Z.to_nat _).
  rewrite in_app_iff. simpl.
  rewrite <- (firstn_skipn k l) at 3. rewrite in_app_iff.
  intuition congruence.
Qed.

Lemma In_inserted (index : option Z) (e x : Entity) (l : list Entity) :
  In x (match index with Some i => spliceIn i e l | None => l ++ [e] end) <->
  x = e \/ In x l.
Proof.
  destruct index as [i|].
  - apply In_spliceIn.
  - rewrite in_app_iff. simpl. intuition congruence.
Qed.

(** C5, as the code has it.  [attach] has no guard against [node ===
    newParent]: whenever [attach node node] returns, the node is its own
    parent and is listed among its own children. *)
Theorem attach_self_links_node_to_itself
    (fuel : nat) (e : Entity) (index : option Z) (s s' : State) :
  attach fuel e e index s = Ok s' ->
  parentOf s' e = Some e /\ In e (childrenOf s' e).
Proof.
  unfold attach. intros H. inv_bind H as s1 E1. inv_bind H as s4 E4.
  set (s2 := setParent e (Some e) s1) in *.
  set (s3 := setChildren e _ s2) in *.
  assert (H3 : parentOf s3 e = Some e /\ In e (childrenOf s3 e)).
  { unfold s3. rewrite parentOf_setChildren, childrenOf_setChildren, Nat.eqb_refl.
    unfold s2 at 1. rewrite parentOf_setParent, Nat.eqb_refl.
    split; [reflexivity|]. apply In_inserted. left. reflexivity. }
  assert (F : Frame s3 s').
  { eapply Frame_trans; [eapply dirtifyAABB_Frame; eauto|].
    destruct (trOf s4 e) as [pt|]; [|inv_Ok H; auto with frame].
    destruct (mat4_invert (worldTransform pt)); [|discriminate].
    eapply matrixTransform_Frame; eauto. }
  destruct (F e) as (Fp & Fc & _). rewrite Fp, Fc. exact H3.
Qed.

End AttachSelf.

Module AttachFacts.

#[local] Existing Instance QGL.glmatrix.
#[local] Existing Instance QGL.shapes.

Import Scene.

(** C5, at a concrete input.  Entity 0 is a parentless node without
    children that was moved once.  [attach 0 0] returns, and afterwards
    entity 0 is its own parent and its own only child: the call is not a
    no-op. *)
Lemma attach_self_is_not_a_noop :
  parentOf moved 0 = None /\
  childrenOf moved 0 = [] /\
  match attach 10 0 0 None moved with
  | Ok s => parentOf s 0 = Some 0 /\ childrenOf s 0 = [0]
  | _ => False
  end.
Proof.
  split; [vm_compute; reflexivity|].
  split; [vm_compute; reflexivity|].
  vm_compute. split; reflexivity.
Qed.

Lemma attach_self_moved :
  attach 10 0 0 None moved = Ok (after (attach 10 0 0 None moved) moved).
Proof.
  apply RunFacts.after_returns. vm_compute. exact I.
Qed.

Lemma attach_self_links_node_to_itself_witness :
  parentOf (after (attach 10 0 0 None moved) moved) 0 = Some 0 /\
  In 0 (childrenOf (after (attach 10 0 0 None moved) moved) 0).
Proof.
  exact (attach_self_links_node_to_itself 10 0 None moved attach_self_moved).
Defined.

End AttachFacts.

(** ** The invariant: structural lemmas *)

Section CoreLemmas.

Context {G : GLMatrix} {Sh : Shapes G}.

Lemma compose_SameCore (s s' : State) (n : Entity) (t : Transform) :
  SameCore s s' -> compose s' n t = compose s n t.
Proof.
  intros H. unfold compose. destruct (H n) as (-> & _ & _).
  destruct (parentOf s n) as [p|]; [|reflexivity].
  destruct (H p) as (_ & _ & ->). reflexivity.
Qed.

Lemma parentDirty_SameCore (s s' : State) (n : Entity) :
  SameCore s s' -> parentDirty s' n = parentDirty s n.
Proof.
  intros H. unfold parentDirty. destruct (H n) as (-> & _ & _).
  destruct (parentOf s n) as [p|]; [|reflexivity].
  destruct (H p) as (_ & _ & ->). reflexivity.
Qed.

Lemma Core_SameCore (L F W : Entity -> Prop) (s s' : State) :
  SameCore s s' -> Core L F W s -> Core L F W s'.
Proof.
  intros H HC n t Ht. destruct (H n) as (_ & _ & Etr). rewrite Etr in Ht.
  destruct (HC n t Ht) as (HL & HF & HW).
  split; [exact HL|]. split; [exact HF|].
  intros Hn Hd. destruct (HW Hn Hd) as [Hw Hp].
  rewrite (compose_SameCore n t H), (parentDirty_SameCore n H). auto.
Qed.

Lemma Listed_Frame (s s' : State) : Frame s s' -> Listed s -> Listed s'.
Proof.
  intros H HL n p Hp. destruct (H n) as (Ep & _ & _). destruct (H p) as (_ & Ec & _).
  rewrite Ec. apply HL. rewrite <- Ep. exact Hp.
Qed.

Lemma Core_weaken (L F W L' F' W' : Entity -> Prop) (s : State) :
  (forall n, L n -> L' n) -> (forall n, F n -> F' n) -> (forall n, W n -> W' n) ->
  Core L F W s -> Core L' F' W' s.
Proof.
  intros HL HF HW HC n t Ht. destruct (HC n t Ht) as (A & B & C).
  split; [|split]; intros Hn; [apply A | apply B | apply C]; auto.
Qed.

(** A node whose world flag is set needs no exemption for its flags or its
    world matrix. *)
Lemma Core_resolve_dirty (L F W F' W' : Entity -> Prop) (s : State)
    (e : Entity) (t : Transform) :
  trOf s e = Some t -> dirtyFlag t = true ->
  (forall n, F n -> F' n \/ n = e) ->
  (forall n, W n -> W' n \/ n = e) ->
  Core L F W s -> Core L F' W' s.
Proof.
  intros Ht Hd HF HW HC n tn Hn. destruct (HC n tn Hn) as (A & B & C).
  split; [exact A|]. split.
  - intros HnF Hl. destruct (Nat.eq_dec n e) as [->|Hne].
    + congruence.
    + apply B; [|exact Hl]. intros Fn. destruct (HF n Fn); auto.
  - intros HnW Hdn. destruct (Nat.eq_dec n e) as [->|Hne].
    + congruence.
    + apply C; [|exact Hdn]. intros Wn. destruct (HW n Wn); auto.
Qed.

(** Writing fields of the [Transform] of [e] other than the two matrices
    and the world flag. *)
Lemma Core_setT_fields (L F W L' F' : Entity -> Prop) (s : State)
    (e : Entity) (t t' : Transform) :
  trOf s e = Some t ->
  worldTransform t' = worldTransform t ->
  localTransform t' = localTransform t ->
  dirtyFlag t' = dirtyFlag t ->
  (forall n, n <> e -> L n -> L' n) ->
  (forall n, n <> e -> F n -> F' n) ->
  (~ L' e -> LocalOk t') ->
  (~ F' e -> FlagsOk t') ->
  Core L F W s -> Core L' F' W (setT e t' s).
Proof.
  intros Ht Ew El Ed HL HF HLe HFe HC n tn Hn.
  rewrite trOf_setT in Hn.
  assert (Hcomp : forall m tm, compose (setT e t' s) m tm = compose s m tm).
  { intros m tm. unfold compose. rewrite parentOf_setT.
    destruct (parentOf s m) as [p|]; [|reflexivity].
    rewrite trOf_setT. destruct (Nat.eqb_spec p e) as [->|]; [|reflexivity].
    rewrite Ht, Ew. reflexivity. }
  assert (Hpd : forall m, parentDirty (setT e t' s) m = parentDirty s m).
  { intros m. unfold parentDirty. rewrite parentOf_setT.
    destruct (parentOf s m) as [p|]; [|reflexivity].
    rewrite trOf_setT. destruct (Nat.eqb_spec p e) as [->|]; [|reflexivity].
    rewrite Ht, Ed. reflexivity. }
  destruct (Nat.eqb_spec n e) as [->|Hne].
  - injection Hn as <-. destruct (HC e t Ht) as (_ & _ & C).
    split; [exact HLe|]. split; [exact HFe|].
    intros HnW Hd. rewrite Ed in Hd. destruct (C HnW Hd) as [Hw Hp].
    rewrite Hpd, Hcomp. split; [|exact Hp].
    rewrite Ew, Hw. unfold compose. rewrite El. reflexivity.
  - destruct (HC n tn Hn) as (A & B & C).
    split; [intros HnL; apply A; intros Ln; apply HnL, HL; auto|].
    split; [intros HnF; apply B; intros Fn; apply HnF, HF; auto|].
    intros HnW Hd. destruct (C HnW Hd) as [Hw Hp].
    rewrite Hpd, Hcomp. auto.
Qed.

(** Setting the world flag of [e]: its children come to wait. *)
Lemma Core_mark_dirty (L F W F' W' : Entity -> Prop) (s : State)
    (e : Entity) (t : Transform) :
  trOf s e = Some t ->
  (forall n, F n -> F' n \/ n = e) ->
  (forall n, W n -> W' n \/ n = e) ->
  (forall n, parentOf s n = Some e -> W' n \/ n = e) ->
  Core L F W s -> Core L F' W' (setT e (withDirty true t) s).
Proof.
  intros Ht HF HW Hkids HC n tn Hn.
  rewrite trOf_setT in Hn.
  destruct (Nat.eqb_spec n e) as [->|Hne].
  - injection Hn as <-. destruct (HC e t Ht) as (A & _ & _).
    split; [exact A|]. split.
    + intros _ _. reflexivity.
    + intros _ Hd. discriminate Hd.
  - destruct (HC n tn Hn) as (A & B & C).
    split; [exact A|]. split.
    + intros HnF. apply B. intros Fn. destruct (HF n Fn); auto.
    + intros HnW Hd.
      assert (Hpar : parentOf s n <> Some e).
      { intros Hp. destruct (Hkids n Hp); auto. }
      assert (HnW0 : ~ W n).
      { intros Wn. destruct (HW n Wn); auto. }
      destruct (C HnW0 Hd) as [Hw Hp].
      unfold compose, parentDirty in *. rewrite parentOf_setT.
      destruct (parentOf s n) as [p|]; [|auto].
      rewrite trOf_setT. destruct (Nat.eqb_spec p e) as [->|]; [congruence|auto].
Qed.

(** Recomputing the world matrix of [e] below an up-to-date parent. *)
Lemma Core_recompute (L W : Entity -> Prop) (s : State) (e : Entity) (t : Transform) :
  trOf s e = Some t ->
  dirtyFlag t = true ->
  localDirtyFlag t = false ->
  parentDirty s e = false ->
  Core L nobody W s ->
  Core L nobody W (setT e (withDirty false (withWorldTransform (compose s e t) t)) s).
Proof.
  intros Ht Hd Hl Hpd HC n tn Hn.
  assert (Hself : parentOf s e <> Some e).
  { intros Hp. unfold parentDirty in Hpd. rewrite Hp, Ht in Hpd. congruence. }
  rewrite trOf_setT in Hn.
  destruct (Nat.eqb_spec n e) as [->|Hne].
  - injection Hn as <-. destruct (HC e t Ht) as (A & _ & _).
    split; [exact A|]. split.
    + intros _ Hl'. simpl in Hl'. congruence.
    + intros _ _. simpl.
      unfold compose, parentDirty in *. rewrite parentOf_setT. simpl.
      destruct (parentOf s e) as [p|]; [|auto].
      rewrite trOf_setT. destruct (Nat.eqb_spec p e) as [->|]; [congruence|auto].
  - destruct (HC n tn Hn) as (A & B & C).
    split; [exact A|]. split; [exact B|].
    intros HnW Hdn. destruct (C HnW Hdn) as [Hw Hp].
    unfold compose, parentDirty in *. rewrite parentOf_setT.
    destruct (parentOf s n) as [p|]; [|auto].
    rewrite trOf_setT. destruct (Nat.eqb_spec p e) as [->|]; [|auto].
    rewrite Ht in Hp. congruence.
Qed.

End CoreLemmas.

(** ** The invariant through the transform queries *)

Section ReadLemmas.

Context {G : GLMatrix} {Sh : Shapes G}.

Lemma getT_setT (e : Entity) (t : Transform) (s : State) : getT e (setT e t s) = Ok t.
Proof.
  unfold getT. rewrite trOf_setT, Nat.eqb_refl. reflexivity.
Qed.

(** Rebuilding the local matrix of a node whose local flag is set. *)
Lemma Core_rebuild_local (L W : Entity -> Prop) (s : State) (e : Entity) (t : Transform) :
  trOf s e = Some t ->
  localDirtyFlag t = true ->
  Core L nobody W s ->
  Core L nobody W
    (setT e (withLocalDirty false
               (withLocalTransform
                  (mat4_fromRotationTranslationScaleOrigin
                     (localRotation t) (localPosition t) (localScale t) (origin t)) t)) s).
Proof.
  intros Ht Hl HC n tn Hn.
  assert (Hd : dirtyFlag t = true).
  { destruct (HC e t Ht) as (_ & B & _). apply B; [intros []|exact Hl]. }
  rewrite trOf_setT in Hn.
  destruct (Nat.eqb_spec n e) as [->|Hne].
  - injection Hn as <-. split; [|split].
    + intros _ _. reflexivity.
    + intros _ Hl'. discriminate Hl'.
    + intros _ Hd'. simpl in Hd'. congruence.
  - destruct (HC n tn Hn) as (A & B & C).
    split; [exact A|]. split; [exact B|].
    intros HnW Hdn. destruct (C HnW Hdn) as [Hw Hp].
    unfold compose, parentDirty in *. rewrite parentOf_setT.
    destruct (parentOf s n) as [p|]; [|auto].
    rewrite trOf_setT. destruct (Nat.eqb_spec p e) as [->|]; [|auto].
    rewrite Ht in Hp. congruence.
Qed.

Lemma getLocalTransform_inv (e : Entity) (s s' : State) (m : mat4) :
  getLocalTransform e s = Ok (m, s') ->
  exists t, trOf s e = Some t /\
    ((localDirtyFlag t = true /\
      m = mat4_fromRotationTranslationScaleOrigin
            (localRotation t) (localPosition t) (localScale t) (origin t) /\
      s' = setT e (withLocalDirty false (withLocalTransform m t)) s) \/
     (localDirtyFlag t = false /\ m = localTransform t /\ s' = s)).
Proof.
  unfold getLocalTransform. intros H. inv_bind H as t Et. apply getT_Ok in Et.
  exists t. split; [exact Et|].
  destruct (localDirtyFlag t); inv_Ok H; [left | right]; auto.
Qed.

Lemma getLocalTransform_Core (L W : Entity -> Prop) (e : Entity) (s s' : State) (m : mat4) :
  Core L nobody W s ->
  getLocalTransform e s = Ok (m, s') ->
  Core L nobody W s' /\
  exists t t', trOf s e = Some t /\ trOf s' e = Some t' /\
    localDirtyFlag t' = false /\ m = localTransform t' /\
    dirtyFlag t' = dirtyFlag t /\ worldTransform t' = worldTransform t.
Proof.
  intros HC H.
  destruct (getLocalTransform_inv _ _ H) as (t & Ht & [(Hl & -> & ->)|(Hl & -> & ->)]).
  - split; [apply Core_rebuild_local; assumption|].
    eexists t, _. rewrite trOf_setT, Nat.eqb_refl.
    repeat split; try reflexivity. exact Ht.
  - split; [exact HC|].
    exists t, t. repeat split; auto.
Qed.

Lemma parentDirty_setT (e : Entity) (t t' : Transform) (s : State) (n : Entity) :
  trOf s e = Some t -> dirtyFlag t' = dirtyFlag t ->
  parentDirty (setT e t' s) n = parentDirty s n.
Proof.
  intros Ht Hd. unfold parentDirty. rewrite parentOf_setT.
  destruct (parentOf s n) as [p|]; [|reflexivity].
  rewrite trOf_setT. destruct (Nat.eqb_spec p e) as [->|]; [|reflexivity].
  rewrite Ht, Hd. reflexivity.
Qed.

(** With the local flag set, [updateTransform] rebuilds the local matrix and
    goes on as it does with the flag clear. *)
Lemma updateTransform_rebuild (e : Entity) (s : State) (t : Transform) :
  trOf s e = Some t ->
  localDirtyFlag t = true ->
  updateTransform e s =
  updateTransform e
    (setT e (withLocalDirty false
               (withLocalTransform
                  (mat4_fromRotationTranslationScaleOrigin
                     (localRotation t) (localPosition t) (localScale t) (origin t)) t)) s).
Proof.
  intros Ht Hl. unfold updateTransform, getLocalTransform.
  assert (E : getT e s = Ok t) by (apply getT_Ok; exact Ht).
  rewrite E. cbn [bind]. rewrite Hl. cbn [bind].
  repeat (progress (rewrite ?getT_setT;
                    cbn [bind localDirtyFlag withLocalDirty withLocalTransform])).
  reflexivity.
Qed.

Lemma updateTransform_clear (L W : Entity -> Prop) (e : Entity) (s s' : State)
    (t : Transform) :
  trOf s e = Some t ->
  localDirtyFlag t = false ->
  Core L nobody W s ->
  parentDirty s e = false ->
  updateTransform e s = Ok s' ->
  Core L nobody W s' /\
  exists t', trOf s' e = Some t' /\ localDirtyFlag t' = false /\ dirtyFlag t' = false.
Proof.
  intros Ht Hl HC Hpd H. unfold updateTransform in H.
  assert (E : getT e s = Ok t) by (apply getT_Ok; exact Ht).
  rewrite E in H. cbn [bind] in H. rewrite Hl in H. cbn [bind] in H.
  rewrite E in H. cbn [bind] in H.
  destruct (dirtyFlag t) eqn:Hd.
  - assert (El : getLocalTransform e s = Ok (localTransform t, s)).
    { unfold getLocalTransform. rewrite E. cbn [bind]. rewrite Hl. reflexivity. }
    assert (Hres : s' = setT e (withDirty false (withWorldTransform (compose s e t) t)) s).
    { unfold compose.
      destruct (parentOf s e) as [p|]; [destruct (trOf s p) as [pt|]|];
        rewrite El in H; cbn [bind] in H; rewrite E in H; cbn [bind] in H;
        inv_Ok H; reflexivity. }
    subst s'. split; [apply Core_recompute; assumption|].
    eexists. rewrite trOf_setT, Nat.eqb_refl. split; [reflexivity|].
    simpl. auto.
  - inv_Ok H. split; [exact HC|]. exists t. auto.
Qed.

Lemma updateTransform_Core (L W : Entity -> Prop) (e : Entity) (s s' : State) :
  Core L nobody W s ->
  parentDirty s e = false ->
  updateTransform e s = Ok s' ->
  Core L nobody W s' /\
  exists t', trOf s' e = Some t' /\ localDirtyFlag t' = false /\ dirtyFlag t' = false.
Proof.
  intros HC Hpd H.
  assert (Ht : exists t, trOf s e = Some t).
  { unfold updateTransform in H. inv_bind H as t Et. apply getT_Ok in Et. eauto. }
  destruct Ht as [t Ht].
  destruct (localDirtyFlag t) eqn:Hl.
  - rewrite (@updateTransform_rebuild e s t Ht Hl) in H.
    eapply updateTransform_clear; [| |apply Core_rebuild_local; eassumption| |exact H].
    + rewrite trOf_setT, Nat.eqb_refl. reflexivity.
    + reflexivity.
    + erewrite parentDirty_setT; [exact Hpd|exact Ht|reflexivity].
  - eapply updateTransform_clear; eauto.
Qed.

(** [getWorldTransform] keeps the invariant and leaves the node with both
    flags clear; the matrix it returns is the cached world matrix. *)
Lemma getWorldTransform_Core (L W : Entity -> Prop) (fuel : nat) :
  forall (e : Entity) (s s' : State) (m : mat4),
    Core L nobody W s ->
    getWorldTransform fuel e s = Ok (m, s') ->
    Core L nobody W s' /\
    exists t', trOf s' e = Some t' /\ localDirtyFlag t' = false /\
               dirtyFlag t' = false /\ m = worldTransform t'.
Proof.
  induction fuel as [|f IH]; intros e s s' m HC H; [discriminate|].
  cbn [getWorldTransform] in H. inv_bind H as t Et. apply getT_Ok in Et.
  destruct (negb (localDirtyFlag t) && negb (dirtyFlag t)) eqn:Hclean.
  - inv_Ok H. split; [exact HC|].
    apply andb_true_iff in Hclean. destruct Hclean as [Hl Hd].
    apply negb_true_iff in Hl. apply negb_true_iff in Hd.
    exists t. auto.
  - inv_bind H as s1 E1. inv_bind H as s2 E2. inv_bind H as t2 Et2. inv_Ok H.
    apply getT_Ok in Et2.
    assert (H1 : Core L nobody W s1 /\ parentDirty s1 e = false).
    { unfold parentDirty.
      destruct (parentOf s e) as [p|] eqn:Hp.
      - destruct (trOf s p) as [pt|] eqn:Hpt.
        + inv_bind E1 as [m' s0] E0. inv_Ok E1.
          destruct (IH p s s1 m' HC E0) as (HC1 & tp & Htp & _ & Hdp & _).
          split; [exact HC1|].
          destruct (getWorldTransform_Frame _ _ _ E0 e) as (-> & _ & _).
          rewrite Hp, Htp. exact Hdp.
        + inv_Ok E1. split; [exact HC|]. rewrite Hp, Hpt. reflexivity.
      - inv_Ok E1. split; [exact HC|]. rewrite Hp. reflexivity. }
    destruct H1 as [HC1 Hpd].
    edestruct updateTransform_Core as (HC2 & t' & Ht' & Hl' & Hd');
      [exact HC1|exact Hpd|exact E2|].
    split; [exact HC2|].
    exists t'. rewrite Ht' in Et2. injection Et2 as <-. auto.
Qed.

End ReadLemmas.

Section ViewLemmas.

Context {G : GLMatrix} {Sh : Shapes G}.

Lemma Core_setT_views (L F W : Entity -> Prop) (s : State) (e : Entity)
    (t : Transform) (p : vec3) (r : quat) (sc : vec3) :
  trOf s e = Some t -> Core L F W s -> Core L F W (setT e (withViews p r sc t) s).
Proof.
  intros Ht HC. destruct (HC e t Ht) as (A & B & _).
  eapply Core_setT_fields; eauto.
Qed.

Lemma getPosition_Core (L W : Entity -> Prop) (fuel : nat) (e : Entity)
    (s s' : State) (v : vec3) :
  Core L nobody W s -> getPosition fuel e s = Ok (v, s') -> Core L nobody W s'.
Proof.
  unfold getPosition. intros HC H. inv_bind H as [w s1] E1.
  inv_bind H as t Et. inv_Ok H. apply getT_Ok in Et.
  edestruct getWorldTransform_Core as (HC1 & _); [exact HC|exact E1|].
  apply Core_setT_views; assumption.
Qed.

Lemma getRotation_Core (L W : Entity -> Prop) (fuel : nat) (e : Entity)
    (s s' : State) (q : quat) :
  Core L nobody W s -> getRotation fuel e s = Ok (q, s') -> Core L nobody W s'.
Proof.
  unfold getRotation. intros HC H. inv_bind H as [w s1] E1.
  inv_bind H as t Et. inv_Ok H. apply getT_Ok in Et.
  edestruct getWorldTransform_Core as (HC1 & _); [exact HC|exact E1|].
  apply Core_setT_views; assumption.
Qed.

Lemma getScale_Core (L W : Entity -> Prop) (fuel : nat) (e : Entity)
    (s s' : State) (v : vec3) :
  Core L nobody W s -> getScale fuel e s = Ok (v, s') -> Core L nobody W s'.
Proof.
  unfold getScale. intros HC H. inv_bind H as [w s1] E1.
  inv_bind H as t Et. inv_Ok H. apply getT_Ok in Et.
  edestruct getWorldTransform_Core as (HC1 & _); [exact HC|exact E1|].
  apply Core_setT_views; assumption.
Qed.

Lemma updateRenderableAABB_Core (L W : Entity -> Prop) (fuel : nat) (e : Entity)
    (s s' : State) :
  Core L nobody W s -> updateRenderableAABB fuel e s = Ok s' -> Core L nobody W s'.
Proof.
  unfold updateRenderableAABB. intros HC H.
  destruct (renderable (comps s e)); [|discriminate].
  destruct (geometry (comps s e)); [|discriminate].
  inv_bind H as [w s1] E1. inv_Ok H.
  edestruct getWorldTransform_Core as (HC1 & _); [exact HC|exact E1|].
  eapply Core_SameCore; [|exact HC1].
  eapply SameCore_trans; [apply SameCore_setRenderable | apply SameCore_emit].
Qed.

Lemma dirtifyAABB_Core (L W : Entity -> Prop) (fuel : nat) (e : Entity) (s s' : State) :
  Core L nobody W s -> dirtifyAABB fuel e s = Ok s' -> Core L nobody W s'.
Proof.
  unfold dirtifyAABB. intros HC H.
  destruct (renderable (comps s e)).
  - eapply updateRenderableAABB_Core; eauto.
  - inv_Ok H. exact HC.
Qed.

Lemma dirtifyAABB_Inv (L W : Entity -> Prop) (fuel : nat) (e : Entity) (s s' : State) :
  Inv L nobody W s -> dirtifyAABB fuel e s = Ok s' -> Inv L nobody W s'.
Proof.
  intros [HL HC] H. split.
  - eapply Listed_Frame; [eapply dirtifyAABB_Frame; eauto | exact HL].
  - eapply dirtifyAABB_Core; eauto.
Qed.

End ViewLemmas.

(** ** The invariant through the dirty-flag cascade *)

Section CascadeLemmas.

Context {G : GLMatrix} {Sh : Shapes G}.

Lemma Inv_weaken (L F W L' F' W' : Entity -> Prop) (s : State) :
  (forall n, L n -> L' n) -> (forall n, F n -> F' n) -> (forall n, W n -> W' n) ->
  Inv L F W s -> Inv L' F' W' s.
Proof.
  intros HL HF HW [Hl HC]. split; [exact Hl|]. eapply Core_weaken; eauto.
Qed.

(** The loop of the cascade over the children [l] that still wait, given
    the cascade itself for the fuel of the recursive calls. *)
Lemma cascade_loop (L : Entity -> Prop) (f : nat) :
  (forall e s s' P,
     Inv L (only e) (also P e) s ->
     dirtifyWorldInternal f e s = Ok s' ->
     Inv L nobody P s') ->
  forall (P : Entity -> Prop) (l : list Entity) (a a' : State),
    Inv L nobody (alsoAll P l) a ->
    foldRes (fun c st =>
               ct <- getT c st ;;
               if negb (dirtyFlag ct) then dirtifyWorldInternal f c st else Ok st)
            l a = Ok a' ->
    Inv L nobody P a'.
Proof.
  intros IH P l.
  induction l as [|x l IHl]; intros a a' HI Hrun; cbn [foldRes] in Hrun.
  - inv_Ok Hrun. eapply Inv_weaken; [| | |exact HI]; auto.
    intros n [Pn|[]]. exact Pn.
  - inv_bind Hrun as a1 Hb. apply (IHl a1 a'); [|exact Hrun].
    inv_bind Hb as ct Ect. apply getT_Ok in Ect.
    destruct (dirtyFlag ct) eqn:Hd; cbn [negb] in Hb.
    + inv_Ok Hb. destruct HI as [Hl HC]. split; [exact Hl|].
      eapply Core_resolve_dirty; [exact Ect|exact Hd| | |exact HC].
      * intros n Fn. left. exact Fn.
      * intros n [Pn|[<-|Hn]]; [left; left; exact Pn | right; reflexivity
                               | left; right; exact Hn].
    + eapply IH; [|exact Hb].
      eapply Inv_weaken; [| | |exact HI]; auto.
      * intros n [].
      * intros n [Pn|[<-|Hn]]; [left; left; exact Pn | right; reflexivity
                               | left; right; exact Hn].
Qed.

(** [dirtifyWorldInternal e]: [e] may arrive with its local flag just set,
    and is itself the node that waits to be marked. *)
Lemma dirtifyWorldInternal_Inv (L : Entity -> Prop) (fuel : nat) :
  forall (e : Entity) (s s' : State) (P : Entity -> Prop),
    Inv L (only e) (also P e) s ->
    dirtifyWorldInternal fuel e s = Ok s' ->
    Inv L nobody P s'.
Proof.
  induction fuel as [|f IH]; intros e s s' P [HL HC] H; [discriminate|].
  cbn [dirtifyWorldInternal] in H.
  inv_bind H as t Et. inv_bind H as s2 E2. apply getT_Ok in Et.
  eapply dirtifyAABB_Inv; [|exact H].
  destruct (dirtyFlag t) eqn:Hd; cbn [negb] in E2.
  - inv_Ok E2. split; [exact HL|].
    eapply Core_resolve_dirty; [exact Et|exact Hd| | |exact HC].
    + intros n Fn. right. exact Fn.
    + intros n Wn. exact Wn.
  - set (s0 := setNode e (withFrozen false (nodeOf s e)) s) in *.
    set (s1 := setT e (withDirty true t) s0) in *.
    assert (S0 : SameCore s s0) by apply SameCore_frozen.
    assert (Et0 : trOf s0 e = Some t).
    { destruct (S0 e) as (_ & _ & ->). exact Et. }
    assert (F1 : Frame s s1).
    { eapply Frame_trans; [apply SameCore_Frame; exact S0|].
      eapply Frame_setT; exact Et0. }
    assert (HL1 : Listed s1) by (eapply Listed_Frame; eauto).
    assert (HC1 : Core L nobody (alsoAll P (childrenOf s1 e)) s1).
    { eapply Core_mark_dirty; [exact Et0| | | |eapply Core_SameCore; [exact S0|exact HC]].
      - intros n Fn. right. exact Fn.
      - intros n [Pn|Hn]; [left; left; exact Pn | right; exact Hn].
      - intros n Hp. left. right.
        destruct (F1 e) as (_ & -> & _). apply HL.
        destruct (S0 n) as (Ep & _ & _). rewrite <- Ep. exact Hp. }
    rewrite (@forEach_fixed _ (fun a => Frame s1 a)) in E2.
    + eapply cascade_loop; [exact IH| |exact E2]. split; assumption.
    + intros a' Fa. destruct (Fa e) as (_ & -> & _). reflexivity.
    + intros x a1 a2 _ Fa Hb. inv_bind Hb as ct Ect.
      destruct (negb (dirtyFlag ct)); [|inv_Ok Hb; exact Fa].
      eapply Frame_trans; [exact Fa | eapply dirtifyWorldInternal_Frame; eauto].
    + apply Frame_refl.
Qed.

Lemma setDirty_Inv (L P : Entity -> Prop) (fuel : nat) (e : Entity) (s s' : State) :
  Inv L (only e) (also P e) s ->
  setDirty fuel e s = Ok s' ->
  Inv L nobody P s'.
Proof.
  unfold setDirty. intros [HL HC] H. inv_bind H as t Et. inv_bind H as s1 E1.
  eapply dirtifyWorldInternal_Inv; [|exact H].
  destruct (negb (dirtyFlag t)); [|inv_Ok E1; split; assumption].
  apply unfreezeParentToRoot_SameCore in E1. split.
  - eapply Listed_Frame; [apply SameCore_Frame; exact E1 | exact HL].
  - eapply Core_SameCore; eauto.
Qed.

(** [setLocalDirty e]: [e] may arrive with its local fields just written and
    its world matrix waiting. *)
Lemma setLocalDirty_Inv (L L' P : Entity -> Prop) (fuel : nat) (e : Entity)
    (s s' : State) :
  (forall n, L' n -> L n \/ n = e) ->
  Inv L' nobody (also P e) s ->
  setLocalDirty fuel e s = Ok s' ->
  Inv L nobody P s'.
Proof.
  unfold setLocalDirty. intros HLL [HL HC] H. inv_bind H as t Et. apply getT_Ok in Et.
  destruct (localDirtyFlag t) eqn:Hl; cbn [negb] in H.
  - inv_Ok H. split; [exact HL|].
    assert (Hd : dirtyFlag t = true).
    { destruct (HC e t Et) as (_ & B & _). apply B; [intros []|exact Hl]. }
    intros n tn Hn. destruct (HC n tn Hn) as (A & B & C).
    destruct (Nat.eq_dec n e) as [->|Hne].
    + rewrite Et in Hn. injection Hn as <-.
      split; [intros _ Hl'; congruence|]. split; [exact B|].
      intros _ Hd'. congruence.
    + split; [|split; [exact B|]].
      * intros HnL. apply A. intros Ln. destruct (HLL n Ln); auto.
      * intros HnP. apply C. intros [Pn|E]; auto.
  - set (s1 := setT e (withLocalDirty true t) s) in *.
    assert (HL1 : Listed s1).
    { eapply Listed_Frame; [eapply Frame_setT; exact Et | exact HL]. }
    assert (HC1 : Core L (only e) (also P e) s1).
    { eapply Core_setT_fields; [exact Et|reflexivity|reflexivity|reflexivity| | | | |exact HC].
      - intros n Hne Ln. destruct (HLL n Ln); [assumption|contradiction].
      - intros n _ [].
      - intros _ Hl'. discriminate Hl'.
      - intros HnF. exfalso. apply HnF. reflexivity. }
    destruct (dirtyFlag t) eqn:Hd; cbn [negb] in H.
    + eapply dirtifyAABB_Inv; [|exact H]. split; [exact HL1|].
      eapply Core_resolve_dirty; [| | | |exact HC1].
      * unfold s1. rewrite trOf_setT, Nat.eqb_refl. reflexivity.
      * exact Hd.
      * intros n Fn. right. exact Fn.
      * intros n Wn. exact Wn.
    + eapply setDirty_Inv; [|exact H]. split; assumption.
Qed.

End CascadeLemmas.

(** ** The invariant through the transform setters *)

Section SetterLemmas.

Context {G : GLMatrix} {Sh : Shapes G}.

Lemma Inv_Frame_Core (L F W : Entity -> Prop) (s s' : State) :
  Frame s s' -> Listed s -> Core L F W s' -> Inv L F W s'.
Proof.
  intros HF HL HC. split; [eapply Listed_Frame; eauto | exact HC].
Qed.

Lemma getRotation_Inv (L W : Entity -> Prop) (fuel : nat) (e : Entity)
    (s s' : State) (q : quat) :
  Inv L nobody W s -> getRotation fuel e s = Ok (q, s') -> Inv L nobody W s'.
Proof.
  intros [HL HC] H. eapply Inv_Frame_Core; [eapply getRotation_Frame; eauto|exact HL|].
  eapply getRotation_Core; eauto.
Qed.

Lemma getPosition_Inv (L W : Entity -> Prop) (fuel : nat) (e : Entity)
    (s s' : State) (v : vec3) :
  Inv L nobody W s -> getPosition fuel e s = Ok (v, s') -> Inv L nobody W s'.
Proof.
  intros [HL HC] H. eapply Inv_Frame_Core; [eapply getPosition_Frame; eauto|exact HL|].
  eapply getPosition_Core; eauto.
Qed.

Lemma getScale_Inv (L W : Entity -> Prop) (fuel : nat) (e : Entity)
    (s s' : State) (v : vec3) :
  Inv L nobody W s -> getScale fuel e s = Ok (v, s') -> Inv L nobody W s'.
Proof.
  intros [HL HC] H. eapply Inv_Frame_Core; [eapply getScale_Frame; eauto|exact HL|].
  eapply getScale_Core; eauto.
Qed.

Lemma getWorldTransform_Inv (L W : Entity -> Prop) (fuel : nat) (e : Entity)
    (s s' : State) (m : mat4) :
  Inv L nobody W s -> getWorldTransform fuel e s = Ok (m, s') -> Inv L nobody W s'.
Proof.
  intros [HL HC] H.
  eapply Inv_Frame_Core; [eapply getWorldTransform_Frame; eauto|exact HL|].
  edestruct getWorldTransform_Core as (HC1 & _); [exact HC|exact H|exact HC1].
Qed.

Lemma getLocalTransform_Inv (L W : Entity -> Prop) (e : Entity)
    (s s' : State) (m : mat4) :
  Inv L nobody W s -> getLocalTransform e s = Ok (m, s') -> Inv L nobody W s'.
Proof.
  intros [HL HC] H.
  eapply Inv_Frame_Core; [eapply getLocalTransform_Frame; eauto|exact HL|].
  edestruct getLocalTransform_Core as (HC1 & _); [exact HC|exact H|exact HC1].
Qed.

(** Writing the local fields of [e], where at most [e] was in the middle of
    an update. *)
Lemma Inv_write_local (L W : Entity -> Prop) (s : State) (e : Entity) (t : Transform)
    (p : vec3) (r : quat) (sc : vec3) :
  trOf s e = Some t ->
  (forall n, L n -> n = e) ->
  Inv L nobody W s ->
  Inv (only e) nobody W (setT e (withLocalTRS p r sc t) s).
Proof.
  intros Ht HLe [HL HC]. split.
  - eapply Listed_Frame; [eapply Frame_setT; exact Ht | exact HL].
  - eapply Core_setT_fields; [exact Ht|reflexivity|reflexivity|reflexivity| | | | |exact HC].
    + intros n Hne Ln. exfalso. apply Hne. apply HLe. exact Ln.
    + intros n _ [].
    + intros HnL. exfalso. apply HnL. reflexivity.
    + destruct (HC e t Ht) as (_ & B & _). intros HnF. apply B. exact HnF.
Qed.

(** The common end of every setter: the local fields are written, then
    [setLocalDirty] is called. *)
Lemma write_then_setLocalDirty (L W : Entity -> Prop) (fuel : nat) (s s' : State)
    (e : Entity) (t : Transform) (p : vec3) (r : quat) (sc : vec3) :
  trOf s e = Some t ->
  (forall n, L n -> n = e) ->
  (forall n, W n -> n = e) ->
  Inv L nobody W s ->
  setLocalDirty fuel e (setT e (withLocalTRS p r sc t) s) = Ok s' ->
  Consistent s'.
Proof.
  intros Ht HLe HWe HI H. unfold Consistent.
  eapply setLocalDirty_Inv with (L' := only e) (P := nobody); [| |exact H].
  - intros n Ln. right. exact Ln.
  - eapply Inv_weaken with (L := only e) (F := nobody) (W := W);
      [| | |eapply Inv_write_local with (L := L); [exact Ht|exact HLe|exact HI]]; auto.
    intros n Wn. right. apply HWe. exact Wn.
Qed.

Lemma Consistent_exempt (s : State) (L W : Entity -> Prop) :
  Consistent s -> Inv L nobody W s.
Proof.
  apply Inv_weaken; intros n [].
Qed.

Lemma rotateLocal_Consistent (fuel : nat) (e : Entity) (d : vec3) (s s' : State) :
  Consistent s -> rotateLocal fuel e d s = Ok s' -> Consistent s'.
Proof.
  unfold rotateLocal. intros HI H. inv_bind H as t Et. apply getT_Ok in Et.
  eapply write_then_setLocalDirty; [exact Et| | |exact HI|exact H]; intros n [].
Qed.

Lemma setLocalEulerAngles_Consistent (fuel : nat) (e : Entity) (d : vec3) (s s' : State) :
  Consistent s -> setLocalEulerAngles fuel e d s = Ok s' -> Consistent s'.
Proof.
  unfold setLocalEulerAngles. intros HI H. inv_bind H as t Et. apply getT_Ok in Et.
  eapply write_then_setLocalDirty; [exact Et| | |exact HI|exact H]; intros n [].
Qed.

Lemma translateLocal_Consistent (fuel : nat) (e : Entity) (v : vec3) (s s' : State) :
  Consistent s -> translateLocal fuel e v s = Ok s' -> Consistent s'.
Proof.
  unfold translateLocal. intros HI H. inv_bind H as t Et. apply getT_Ok in Et.
  eapply write_then_setLocalDirty; [exact Et| | |exact HI|exact H]; intros n [].
Qed.

Lemma setLocalPosition_Consistent (fuel : nat) (e : Entity) (v : vec3) (s s' : State) :
  Consistent s -> setLocalPosition fuel e v s = Ok s' -> Consistent s'.
Proof.
  unfold setLocalPosition. intros HI H. inv_bind H as t Et. apply getT_Ok in Et.
  eapply write_then_setLocalDirty; [exact Et| | |exact HI|exact H]; intros n [].
Qed.

Lemma scaleLocal_Consistent (fuel : nat) (e : Entity) (v : vec3) (s s' : State) :
  Consistent s -> scaleLocal fuel e v s = Ok s' -> Consistent s'.
Proof.
  unfold scaleLocal. intros HI H. inv_bind H as t Et. apply getT_Ok in Et.
  eapply write_then_setLocalDirty; [exact Et| | |exact HI|exact H]; intros n [].
Qed.

Lemma setLocalScale_Consistent (fuel : nat) (e : Entity) (v : vec3) (s s' : State) :
  Consistent s -> setLocalScale fuel e v s = Ok s' -> Consistent s'.
Proof.
  unfold setLocalScale. intros HI H. inv_bind H as t Et. apply getT_Ok in Et.
  eapply write_then_setLocalDirty; [exact Et| | |exact HI|exact H]; intros n [].
Qed.

Lemma rotate_Consistent (fuel : nat) (e : Entity) (d : vec3) (s s' : State) :
  Consistent s -> rotate fuel e d s = Ok s' -> Consistent s'.
Proof.
  unfold rotate. intros HI H.
  destruct (parentOf s e) as [p|]; [|eapply rotateLocal_Consistent; eauto].
  inv_bind H as [rot s1] E1. inv_bind H as [prot s2] E2.
  inv_bind H as t Et. apply getT_Ok in Et.
  eapply write_then_setLocalDirty with (L := nobody) (W := nobody);
    [exact Et|intros n []|intros n []| |exact H].
  eapply getRotation_Inv; [|exact E2]. eapply getRotation_Inv; [|exact E1]. exact HI.
Qed.

Lemma setEulerAngles_Consistent (fuel : nat) (e : Entity) (d : vec3) (s s' : State) :
  Consistent s -> setEulerAngles fuel e d s = Ok s' -> Consistent s'.
Proof.
  unfold setEulerAngles. intros HI H.
  destruct (parentOf s e) as [p|]; [|eapply setLocalEulerAngles_Consistent; eauto].
  inv_bind H as t Et. apply getT_Ok in Et.
  inv_bind H as [prot s2] E2. inv_bind H as t2 Et2. apply getT_Ok in Et2.
  eapply write_then_setLocalDirty with (L := only e) (W := nobody);
    [exact Et2|intros n Ln; exact Ln|intros n []| |exact H].
  eapply getRotation_Inv; [|exact E2].
  eapply Inv_write_local with (L := nobody); [exact Et|intros n []|exact HI].
Qed.

Lemma setPosition_Consistent (fuel : nat) (e : Entity) (v : vec3) (s s' : State) :
  Consistent s -> setPosition fuel e v s = Ok s' -> Consistent s'.
Proof.
  unfold setPosition. intros HI H. inv_bind H as t Et. apply getT_Ok in Et.
  set (s1 := setT e (withViews v (rotation t) (scaling t) t) s) in *.
  assert (HI1 : Consistent s1).
  { destruct HI as [HL HC]. split.
    - eapply Listed_Frame; [eapply Frame_setT; exact Et | exact HL].
    - apply Core_setT_views; assumption. }
  destruct (parentOf s1 e) as [p|]; [|eapply setLocalPosition_Consistent; eauto].
  inv_bind H as pt Ept. inv_bind H as t1 Et1. apply getT_Ok in Et1.
  eapply write_then_setLocalDirty; [exact Et1| | |exact HI1|exact H]; intros n [].
Qed.

Lemma translate_Consistent (fuel : nat) (e : Entity) (v : vec3) (s s' : State) :
  Consistent s -> translate fuel e v s = Ok s' -> Consistent s'.
Proof.
  unfold translate. intros HI H. inv_bind H as [p s1] E1. inv_bind H as s2 E2.
  eapply setDirty_Inv; [|exact H].
  eapply Inv_weaken; [| | |eapply setPosition_Consistent;
                            [eapply getPosition_Inv; [exact HI|exact E1]|exact E2]];
    intros n [].
Qed.

End SetterLemmas.

(** ** The invariant through [detach] and [attach] *)

Section AttachLemmas.

Context {G : GLMatrix} {Sh : Shapes G}.

Lemma In_removeFirst_other (e n : Entity) (l : list Entity) :
  n <> e -> In n l -> In n (removeFirst e l).
Proof.
  intros Hne. induction l as [|x r IH]; intros Hin; [exact Hin|].
  cbn [removeFirst]. destruct (Nat.eqb_spec x e) as [->|Hx].
  - destruct Hin as [E|Hin]; [congruence | exact Hin].
  - destruct Hin as [E|Hin]; [left; exact E | right; apply IH; exact Hin].
Qed.

Lemma Core_parents_ext (L F W : Entity -> Prop) (s s' : State) :
  (forall n, parentOf s' n = parentOf s n /\ trOf s' n = trOf s n) ->
  Core L F W s -> Core L F W s'.
Proof.
  intros H HC n t Ht. destruct (H n) as (Ep & Et). rewrite Et in Ht.
  destruct (HC n t Ht) as (A & B & C).
  split; [exact A|]. split; [exact B|].
  intros HnW Hd. destruct (C HnW Hd) as [Hw Hp].
  unfold compose, parentDirty in *. rewrite Ep.
  destruct (parentOf s n) as [p|]; [|auto].
  destruct (H p) as (_ & ->). auto.
Qed.

Lemma Core_setChildren (L F W : Entity -> Prop) (s : State) (p : Entity)
    (l : list Entity) :
  Core L F W s -> Core L F W (setChildren p l s).
Proof.
  apply Core_parents_ext. intros n.
  rewrite parentOf_setChildren, trOf_setChildren. auto.
Qed.

(** Changing the parent of [e] leaves [e] waiting for its world matrix. *)
Lemma Core_setParent (L F W : Entity -> Prop) (s : State) (e : Entity)
    (q : option Entity) :
  Core L F W s -> Core L F (also W e) (setParent e q s).
Proof.
  intros HC n t Ht. rewrite trOf_setParent in Ht.
  destruct (HC n t Ht) as (A & B & C).
  split; [exact A|]. split; [exact B|].
  intros HnW Hd.
  assert (Hne : n <> e) by (intros ->; apply HnW; right; reflexivity).
  assert (HnW0 : ~ W n) by (intros Wn; apply HnW; left; exact Wn).
  destruct (C HnW0 Hd) as [Hw Hp].
  unfold compose, parentDirty in *. rewrite parentOf_setParent.
  destruct (Nat.eqb_spec n e) as [->|_]; [congruence|].
  destruct (parentOf s n) as [p|]; [|auto].
  rewrite trOf_setParent. auto.
Qed.

(** Below a parent without a [Transform] a node is as good as a root. *)
Lemma Core_setParent_plain (L F W : Entity -> Prop) (s : State) (e p : Entity) :
  parentOf s e = None -> trOf s p = None ->
  Core L F W s -> Core L F W (setParent e (Some p) s).
Proof.
  intros Hroot Hp HC n t Ht. rewrite trOf_setParent in Ht.
  destruct (HC n t Ht) as (A & B & C).
  split; [exact A|]. split; [exact B|].
  intros HnW Hd. destruct (C HnW Hd) as [Hw Hpd].
  unfold compose, parentDirty in *. rewrite parentOf_setParent.
  destruct (Nat.eqb_spec n e) as [->|_].
  - rewrite trOf_setParent, Hp. rewrite Hroot in Hw. auto.
  - destruct (parentOf s n) as [q|]; [|auto].
    rewrite trOf_setParent. auto.
Qed.

Lemma applyTransform_Inv (fuel : nat) (e : Entity) (s s' : State) :
  Consistent s -> applyTransform fuel e s = Ok s' -> Inv (only e) nobody nobody s'.
Proof.
  unfold applyTransform. intros HI H. inv_bind H as t Et. apply getT_Ok in Et.
  eapply setDirty_Inv with (P := nobody); [|exact H].
  eapply Inv_weaken with (L := only e) (F := nobody) (W := nobody);
    [| | |eapply Inv_write_local with (L := nobody); [exact Et|intros n []|exact HI]];
    auto; intros n [].
Qed.

(** [detach e] leaves [e] in the middle of an update: its local fields were
    written from the world matrix without the local flag, and its world
    matrix may have been recomputed below the parent it has just lost. *)
Lemma detach_Inv (fuel : nat) (e : Entity) (s s' : State) :
  Consistent s ->
  detach fuel e s = Ok s' ->
  Inv (only e) nobody (only e) s' /\
  (forall n, trOf s' n = None <-> trOf s n = None).
Proof.
  unfold detach. intros HI H.
  destruct (parentOf s e) as [p|] eqn:Hp.
  - inv_bind H as s1 E1. inv_bind H as s3 E3. inv_Ok H.
    edestruct applyTransform_Inv as [HL1 HC1]; [exact HI|exact E1|].
    assert (F1 : Frame s s1) by (eapply applyTransform_Frame; exact E1).
    set (s2 := setChildren p (removeFirst e (childrenOf s1 p)) s1) in *.
    assert (F3 : Frame s2 s3) by (eapply dirtifyAABB_Frame; exact E3).
    assert (HC3 : Core (only e) nobody nobody s3).
    { eapply dirtifyAABB_Core; [|exact E3]. apply Core_setChildren. exact HC1. }
    split; [split|].
    + intros n q Hq. rewrite parentOf_setParent in Hq.
      destruct (Nat.eqb_spec n e) as [->|Hne]; [discriminate|].
      rewrite childrenOf_setParent.
      destruct (F3 n) as (Ep3 & _ & _). destruct (F3 q) as (_ & Ec3 & _).
      rewrite Ep3 in Hq. unfold s2 in Hq. rewrite parentOf_setChildren in Hq.
      rewrite Ec3. unfold s2. rewrite childrenOf_setChildren.
      destruct (Nat.eqb_spec q p) as [->|_].
      * apply In_removeFirst_other; [exact Hne|]. apply HL1. exact Hq.
      * apply HL1. exact Hq.
    + eapply Core_weaken; [| | |apply Core_setParent; exact HC3]; auto.
      intros n [[]|Hn]. exact Hn.
    + intros n. rewrite trOf_setParent.
      destruct (F3 n) as (_ & _ & ->). unfold s2. rewrite trOf_setChildren.
      destruct (F1 n) as (_ & _ & ->). reflexivity.
  - inv_Ok H. split; [|intros n; reflexivity].
    apply Consistent_exempt. exact HI.
Qed.

End AttachLemmas.

Section AttachInvariant.

Context {G : GLMatrix} {Sh : Shapes G}.

Lemma attach_Consistent (fuel : nat) (e p : Entity) (index : option Z) (s s' : State) :
  Consistent s ->
  parentOf s e = None \/ trOf s p <> None ->
  attach fuel e p index s = Ok s' ->
  Consistent s'.
Proof.
  unfold attach. intros HI Hadm H. inv_bind H as s1 E1. inv_bind H as s4 E4.
  assert (H1 : Inv (only e) nobody (only e) s1 /\
               (forall n, trOf s1 n = None <-> trOf s n = None) /\
               (parentOf s e = None -> s1 = s)).
  { destruct (parentOf s e) as [q|] eqn:Hq.
    - edestruct detach_Inv as [HI1 Hpres]; [exact HI|exact E1|].
      split; [exact HI1|]. split; [exact Hpres|]. discriminate.
    - inv_Ok E1. split; [apply Consistent_exempt; exact HI|].
      split; [intros n; reflexivity | reflexivity]. }
  destruct H1 as ([HL1 HC1] & Hpres & Hroot).
  set (s2 := setParent e (Some p) s1) in *.
  set (ins := match index with
              | Some i => spliceIn i e (childrenOf s2 p)
              | None => childrenOf s2 p ++ [e]
              end) in *.
  set (s3 := setChildren p ins s2) in *.
  assert (HL3 : Listed s3).
  { intros n q Hq. unfold s3 in *.
    rewrite parentOf_setChildren in Hq. rewrite childrenOf_setChildren.
    unfold s2 in Hq. rewrite parentOf_setParent in Hq.
    destruct (Nat.eqb_spec n e) as [->|Hne].
    - injection Hq as <-. rewrite Nat.eqb_refl. apply In_inserted. left. reflexivity.
    - destruct (Nat.eqb_spec q p) as [->|_].
      + apply In_inserted. right. unfold s2. rewrite childrenOf_setParent.
        apply HL1. exact Hq.
      + unfold s2. rewrite childrenOf_setParent. apply HL1. exact Hq. }
  assert (F4 : Frame s3 s4) by (eapply dirtifyAABB_Frame; exact E4).
  destruct (trOf s4 p) as [pt|] eqn:Hpt.
  - destruct (mat4_invert (worldTransform pt)) as [inv|]; [|discriminate].
    assert (HI4 : Inv (only e) nobody (only e) s4).
    { eapply dirtifyAABB_Inv; [|exact E4]. split; [exact HL3|].
      apply Core_setChildren.
      eapply Core_weaken; [| | |apply Core_setParent; exact HC1]; auto.
      intros n [Hn|Hn]; exact Hn. }
    unfold matrixTransform in H. inv_bind H as [l s5] E5.
    inv_bind H as t Et. apply getT_Ok in Et.
    eapply write_then_setLocalDirty with (L := only e) (W := only e);
      [exact Et|intros n Hn; exact Hn|intros n Hn; exact Hn| |exact H].
    eapply getLocalTransform_Inv; [exact HI4|exact E5].
  - inv_Ok H.
    assert (Hp0 : trOf s p = None).
    { apply Hpres. destruct (F4 p) as (_ & _ & Hp4). apply Hp4 in Hpt.
      unfold s3, s2 in Hpt. rewrite trOf_setChildren, trOf_setParent in Hpt. exact Hpt. }
    destruct Hadm as [Hr|Hn]; [|contradiction].
    pose proof (Hroot Hr) as E. 
    eapply dirtifyAABB_Inv; [|exact E4]. split; [exact HL3|].
    apply Core_setChildren. unfold s2. rewrite E.
    apply Core_setParent_plain; [exact Hr|exact Hp0|].
    destruct HI as [_ HC]. exact HC.
Qed.

Lemma matrixTransform_Consistent (fuel : nat) (e : Entity) (m : mat4) (s s' : State) :
  Consistent s -> matrixTransform fuel e m s = Ok s' -> Consistent s'.
Proof.
  unfold matrixTransform. intros HI H. inv_bind H as [l s1] E1.
  inv_bind H as t Et. apply getT_Ok in Et.
  eapply write_then_setLocalDirty with (L := nobody) (W := nobody);
    [exact Et|intros n []|intros n []| |exact H].
  eapply getLocalTransform_Inv; [exact HI|exact E1].
Qed.

(** [flatten] touches neither the parents nor the transforms. *)
Lemma flatten_parents (fuel : nat) :
  forall (e : Entity) (a a' : State * list Entity),
    flatten fuel e a = Ok a' ->
    forall n, parentOf (fst a') n = parentOf (fst a) n /\ trOf (fst a') n = trOf (fst a) n.
Proof.
  induction fuel as [|f IH]; intros e [s acc] a' H; [discriminate|].
  cbn [flatten] in H.
  destruct (childrenOf s e) as [|k kids]; [inv_Ok H; auto|].
  unfold forEach in H.
  eapply forEachLive_invariant
    with (P := fun a : State * list Entity =>
                 forall n, parentOf (fst a) n = parentOf s n /\ trOf (fst a) n = trOf s n)
    in H; [exact H| |].
  - intros c a1 a2 Ha1 Hc n.
    destruct (IH c _ _ Hc n) as [Ep Et]. simpl in Ep, Et.
    destruct (Ha1 n) as [Ep1 Et1]. split; congruence.
  - intros n. simpl. rewrite parentOf_setChildren, trOf_setChildren. auto.
Qed.

Lemma sort_Consistent (fuel : nat) (e : Entity) (force : bool) (s s' : State)
    (r : list Entity) :
  Consistent s -> sort fuel e force s = Ok (r, s') -> Consistent s'.
Proof.
  unfold sort. intros HI H.
  destruct (sdirty (sortable (comps s e)) || force); [|inv_Ok H; exact HI].
  inv_bind H as [s1 res] E1. inv_Ok H.
  pose proof (flatten_parents _ _ _ E1) as HP. simpl in HP.
  edestruct flatten_Flattened as [(_ & Hch & _) _]; [apply During_start|exact E1|].
  simpl in Hch. destruct HI as [HL HC].
  assert (Hset : forall n, parentOf (setSortable e (mkSortable (zIndex (sortable (comps s1 e)))
                                                      false r) s1) n = parentOf s n /\
                           trOf (setSortable e (mkSortable (zIndex (sortable (comps s1 e)))
                                                   false r) s1) n = trOf s n).
  { intros n. destruct (HP n) as [Ep Et]. rewrite <- Ep, <- Et.
    unfold parentOf, nodeOf, trOf, setSortable, upd. simpl.
    destruct (Nat.eqb_spec n e) as [->|]; auto. }
  split.
  - intros n p Hp. destruct (Hset n) as [Ep _]. rewrite Ep in Hp.
    rewrite childrenOf_setSortable.
    destruct (Hch p) as [E|E]; rewrite E.
    + apply HL. exact Hp.
    + eapply Permutation_in; [apply sortByZIndex_perm | apply HL; exact Hp].
  - eapply Core_parents_ext; [exact Hset | exact HC].
Qed.

Lemma step_Consistent (fuel : nat) (op : Op) (s s' : State) :
  Consistent s -> admissible op s -> step fuel op s = Ok s' -> Consistent s'.
Proof.
  intros HI Hadm H. destruct op; cbn [step admissible] in *.
  - eapply attach_Consistent; eauto.
  - eapply setLocalPosition_Consistent; eauto.
  - eapply setPosition_Consistent; eauto.
  - eapply translate_Consistent; eauto.
  - eapply translateLocal_Consistent; eauto.
  - eapply rotate_Consistent; eauto.
  - eapply rotateLocal_Consistent; eauto.
  - eapply setEulerAngles_Consistent; eauto.
  - eapply setLocalEulerAngles_Consistent; eauto.
  - eapply scaleLocal_Consistent; eauto.
  - eapply setLocalScale_Consistent; eauto.
  - unfold dropValue in H. inv_bind H as [m s1] E1. inv_Ok H.
    eapply getLocalTransform_Inv; eauto.
  - unfold dropValue in H. inv_bind H as [m s1] E1. inv_Ok H.
    eapply getWorldTransform_Inv; eauto.
  - unfold dropValue in H. inv_bind H as [m s1] E1. inv_Ok H.
    eapply getPosition_Inv; eauto.
  - unfold dropValue in H. inv_bind H as [m s1] E1. inv_Ok H.
    eapply getRotation_Inv; eauto.
  - unfold dropValue in H. inv_bind H as [m s1] E1. inv_Ok H.
    eapply getScale_Inv; eauto.
  - eapply matrixTransform_Consistent; eauto.
  - eapply setLocalDirty_Inv with (L' := nobody) (P := nobody); [| |exact H].
    + intros n [].
    + apply Consistent_exempt. exact HI.
  - eapply setDirty_Inv with (P := nobody); [|exact H].
    eapply Inv_weaken; [| | |exact HI]; intros n [].
  - destruct HI as [HL HC]. split.
    + eapply Listed_Frame; [eapply updateRenderableAABB_Frame; exact H | exact HL].
    + eapply updateRenderableAABB_Core; eauto.
  - inv_bind H as [r s1] E1. inv_Ok H. eapply sort_Consistent; eauto.
Qed.

Lemma Consistent_CachedMatrices (s : State) : Consistent s -> CachedMatrices s.
Proof.
  intros [_ HC] n t Ht. destruct (HC n t Ht) as (A & _ & C). split.
  - apply A. intros [].
  - intros Hd. destruct (C (fun F : nobody n => F) Hd) as [Hw _]. exact Hw.
Qed.


End AttachInvariant.

Module InvariantFacts.

#[local] Existing Instance QGL.glmatrix.
#[local] Existing Instance QGL.shapes.

Import Scene.

Lemma blank_Consistent : Consistent blank.
Proof.
  split.
  - intros n p Hp. discriminate Hp.
  - intros n t Ht. injection Ht as <-. split; [|split].
    + intros _ _. vm_compute. reflexivity.
    + intros _ Hl. discriminate Hl.
    + intros _ _. split; reflexivity.
Qed.

Lemma tour_Reaches : Reaches 10 blank tour tour4.
Proof.
  unfold tour.
  apply Reaches_cons with (s1 := tour1).
  { left. reflexivity. }
  { apply RunFacts.after_returns. vm_compute. exact I. }
  apply Reaches_cons with (s1 := tour2).
  { exact I. }
  { apply RunFacts.after_returns. vm_compute. exact I. }
  apply Reaches_cons with (s1 := tour3).
  { exact I. }
  { apply RunFacts.after_returns. vm_compute. exact I. }
  apply Reaches_cons with (s1 := tour4).
  { right. apply RunFacts.present_not_None. vm_compute. exact I. }
  { apply RunFacts.after_returns. vm_compute. exact I. }
  apply Reaches_nil.
Qed.



End InvariantFacts.

(** ** World matrix, parent's world matrix and local matrix *)

Section WorldEquation.

Context {G : GLMatrix} {Sh : Shapes G}.

(** In a consistent store, as every operation other than [detach] leaves
    it, the matrix [getWorldTransform n] returns is the product of what
    [getWorldTransform] returns for the parent and [getLocalTransform] for
    [n], and the local matrix itself for a root. *)
Lemma getWorldTransform_is_parent_times_local
    (fuel : nat) (n : Entity) (s s1 : State) (w : mat4) :
  Consistent s ->
  getWorldTransform fuel n s = Ok (w, s1) ->
  exists l, getLocalTransform n s1 = Ok (l, s1) /\
    match parentOf s1 n with
    | Some p =>
        match trOf s1 p with
        | Some _ => exists wp, getWorldTransform fuel p s1 = Ok (wp, s1) /\
                               w = mat4_multiply wp l
        | None => w = l
        end
    | None => w = l
    end.
Proof.
  intros [_ HC] H.
  edestruct getWorldTransform_Core as (HC1 & t & Ht & Hl & Hd & ->); [exact HC|exact H|].
  destruct (HC1 n t Ht) as (_ & _ & C).
  destruct (C (fun F : nobody n => F) Hd) as [Hw Hpd].
  exists (localTransform t). split.
  - unfold getLocalTransform, getT. rewrite Ht. cbn [bind]. rewrite Hl. reflexivity.
  - unfold compose, parentDirty in *.
    destruct (parentOf s1 n) as [p|]; [|exact Hw].
    destruct (trOf s1 p) as [pt|] eqn:Hpt; [|exact Hw].
    exists (worldTransform pt). split; [|exact Hw].
    destruct fuel as [|f]; [discriminate H|].
    cbn [getWorldTransform]. unfold getT. rewrite Hpt. cbn [bind].
    destruct (HC1 p pt Hpt) as (_ & B & _).
    destruct (localDirtyFlag pt) eqn:Hlp.
    + rewrite (B (fun F : nobody p => F) Hlp) in Hpd. discriminate.
    + rewrite Hpd. reflexivity.
Qed.

End WorldEquation.

(** ** What the setters store *)

Section StoredFields.

Context {G : GLMatrix} {Sh : Shapes G}.

Lemma KeepsLocal_refl (s : State) : KeepsLocal s s.
Proof.
  intros n. reflexivity.
Qed.

Lemma KeepsLocal_trans (s1 s2 s3 : State) :
  KeepsLocal s1 s2 -> KeepsLocal s2 s3 -> KeepsLocal s1 s3.
Proof.
  intros H1 H2 n. rewrite H2. apply H1.
Qed.

Lemma SameCore_KeepsLocal (s s' : State) : SameCore s s' -> KeepsLocal s s'.
Proof.
  intros H n. destruct (H n) as (_ & _ & ->). reflexivity.
Qed.

Lemma KeepsLocal_setT (e : Entity) (t t' : Transform) (s : State) :
  trOf s e = Some t -> localFields t' = localFields t -> KeepsLocal s (setT e t' s).
Proof.
  intros Ht Hf n. rewrite trOf_setT.
  destruct (Nat.eqb_spec n e) as [->|]; [|reflexivity].
  rewrite Ht. simpl. rewrite Hf. reflexivity.
Qed.

Lemma KeepsLocal_rotation (s s' : State) (n : Entity) :
  KeepsLocal s s' ->
  option_map localRotation (trOf s' n) = option_map localRotation (trOf s n).
Proof.
  intros H. specialize (H n).
  destruct (trOf s' n) as [t'|], (trOf s n) as [t|]; simpl in *; try congruence.
  unfold localFields in H. congruence.
Qed.

Lemma getLocalTransform_KeepsLocal (e : Entity) (s s' : State) (m : mat4) :
  getLocalTransform e s = Ok (m, s') -> KeepsLocal s s'.
Proof.
  intros H.
  destruct (getLocalTransform_inv _ _ H) as (t & Ht & [(_ & _ & ->)|(_ & _ & ->)]).
  - eapply KeepsLocal_setT; [exact Ht|reflexivity].
  - apply KeepsLocal_refl.
Qed.

Lemma updateTransform_KeepsLocal (e : Entity) (s s' : State) :
  updateTransform e s = Ok s' -> KeepsLocal s s'.
Proof.
  unfold updateTransform. intros H. inv_bind H as t Et. inv_bind H as s1 E1.
  assert (F1 : KeepsLocal s s1).
  { destruct (localDirtyFlag t).
    - inv_bind E1 as [m s0] E0. inv_Ok E1.
      eapply getLocalTransform_KeepsLocal; eauto.
    - inv_Ok E1. apply KeepsLocal_refl. }
  inv_bind H as t1 Et1.
  destruct (dirtyFlag t1); [|inv_Ok H; exact F1].
  destruct (match parentOf s1 e with Some p => trOf s1 p | None => None end);
    inv_bind H as [l s2] E2; inv_bind H as t2 Et2; inv_Ok H;
    apply getT_Ok in Et2;
    (eapply KeepsLocal_trans; [exact F1|]);
    (eapply KeepsLocal_trans; [eapply getLocalTransform_KeepsLocal; eauto|]);
    (eapply KeepsLocal_setT; [exact Et2|reflexivity]).
Qed.

Lemma getWorldTransform_KeepsLocal (fuel : nat) :
  forall (e : Entity) (s s' : State) (m : mat4),
    getWorldTransform fuel e s = Ok (m, s') -> KeepsLocal s s'.
Proof.
  induction fuel as [|f IH]; intros e s s' m H; [discriminate|].
  cbn [getWorldTransform] in H. inv_bind H as t Et.
  destruct (negb (localDirtyFlag t) && negb (dirtyFlag t)).
  - inv_Ok H. apply KeepsLocal_refl.
  - inv_bind H as s1 E1. inv_bind H as s2 E2. inv_bind H as t2 Et2. inv_Ok H.
    eapply KeepsLocal_trans; [|eapply updateTransform_KeepsLocal; eauto].
    destruct (parentOf s e) as [p|]; [|inv_Ok E1; apply KeepsLocal_refl].
    destruct (trOf s p); [|inv_Ok E1; apply KeepsLocal_refl].
    inv_bind E1 as [m' s0] E0. inv_Ok E1. eapply IH; eauto.
Qed.

Lemma getRotation_KeepsLocal (fuel : nat) (e : Entity) (s s' : State) (q : quat) :
  getRotation fuel e s = Ok (q, s') -> KeepsLocal s s'.
Proof.
  unfold getRotation. intros H. inv_bind H as [w s1] E1.
  inv_bind H as t Et. inv_Ok H. apply getT_Ok in Et.
  eapply KeepsLocal_trans; [eapply getWorldTransform_KeepsLocal; eauto|].
  eapply KeepsLocal_setT; [exact Et|reflexivity].
Qed.

Lemma dirtifyAABB_KeepsLocal (fuel : nat) (e : Entity) (s s' : State) :
  dirtifyAABB fuel e s = Ok s' -> KeepsLocal s s'.
Proof.
  unfold dirtifyAABB, updateRenderableAABB. intros H.
  destruct (renderable (comps s e)); [|inv_Ok H; apply KeepsLocal_refl].
  destruct (geometry (comps s e)); [|discriminate].
  inv_bind H as [w s1] E1. inv_Ok H.
  eapply KeepsLocal_trans; [eapply getWorldTransform_KeepsLocal; eauto|].
  apply SameCore_KeepsLocal.
  eapply SameCore_trans; [apply SameCore_setRenderable | apply SameCore_emit].
Qed.

Lemma dirtifyWorldInternal_KeepsLocal (fuel : nat) :
  forall (e : Entity) (s s' : State),
    dirtifyWorldInternal fuel e s = Ok s' -> KeepsLocal s s'.
Proof.
  induction fuel as [|f IH]; intros e s s' H; [discriminate|].
  cbn [dirtifyWorldInternal] in H. inv_bind H as t Et. inv_bind H as s2 E2.
  apply getT_Ok in Et.
  eapply KeepsLocal_trans; [|eapply dirtifyAABB_KeepsLocal; eauto].
  destruct (negb (dirtyFlag t)); [|inv_Ok E2; apply KeepsLocal_refl].
  unfold forEach in E2.
  set (s1 := setT e (withDirty true t) (setNode e (withFrozen false (nodeOf s e)) s)) in *.
  assert (F1 : KeepsLocal s s1).
  { unfold s1. eapply KeepsLocal_trans; [apply SameCore_KeepsLocal, SameCore_frozen|].
    eapply KeepsLocal_setT; [rewrite trOf_setNode; exact Et|reflexivity]. }
  revert E2. apply forEachLive_invariant; [|exact F1].
  intros c st st' Fst Hb. inv_bind Hb as ct Ect.
  destruct (negb (dirtyFlag ct)); [|inv_Ok Hb; exact Fst].
  eapply KeepsLocal_trans; [exact Fst | eapply IH; eauto].
Qed.

Lemma setLocalDirty_KeepsLocal (fuel : nat) (e : Entity) (s s' : State) :
  setLocalDirty fuel e s = Ok s' -> KeepsLocal s s'.
Proof.
  unfold setLocalDirty, setDirty. intros H. inv_bind H as t Et. apply getT_Ok in Et.
  destruct (negb (localDirtyFlag t)); [|inv_Ok H; apply KeepsLocal_refl].
  eapply KeepsLocal_trans with (s2 := setT e (withLocalDirty true t) s);
    [eapply KeepsLocal_setT; [exact Et|reflexivity]|].
  destruct (negb (dirtyFlag t)); [|eapply dirtifyAABB_KeepsLocal; eauto].
  inv_bind H as t1 Et1. inv_bind H as s1 E1.
  eapply KeepsLocal_trans; [|eapply dirtifyWorldInternal_KeepsLocal; eauto].
  destruct (negb (dirtyFlag t1)); [|inv_Ok E1; apply KeepsLocal_refl].
  apply SameCore_KeepsLocal. eapply unfreezeParentToRoot_SameCore; eauto.
Qed.

(** The local rotation of [e] once [setLocalDirty] has run on a store in
    which it was just written. *)
Lemma stored_rotation (fuel : nat) (e : Entity) (q : quat) (t : Transform)
    (s s' : State) :
  setLocalDirty fuel e (setT e (setLocalRotationField q t) s) = Ok s' ->
  option_map localRotation (trOf s' e) = Some q.
Proof.
  intros H. apply setLocalDirty_KeepsLocal in H.
  rewrite (KeepsLocal_rotation e H), trOf_setT, Nat.eqb_refl. reflexivity.
Qed.

(** [rotateLocal] stores the normalised product of the former local rotation
    and the requested one. *)
Lemma rotateLocal_stores (fuel : nat) (e : Entity) (d : vec3) (s s' : State) :
  rotateLocal fuel e d s = Ok s' ->
  exists t, trOf s e = Some t /\
    option_map localRotation (trOf s' e) =
      Some (quat_normalize (quat_multiply (localRotation t) (quat_fromEuler d))).
Proof.
  unfold rotateLocal. intros H. inv_bind H as t Et. apply getT_Ok in Et.
  exists t. split; [exact Et|]. eapply stored_rotation; exact H.
Qed.

(** [rotate] on a node with a parent stores the normalised product of the
    requested rotation and the world rotation of the node; the rotation of
    the parent does not enter. *)
Lemma rotate_stores (fuel : nat) (e p : Entity) (d : vec3) (s s' : State) :
  parentOf s e = Some p ->
  rotate fuel e d s = Ok s' ->
  exists rot s1, getRotation fuel e s = Ok (rot, s1) /\
    option_map localRotation (trOf s' e) =
      Some (quat_normalize (quat_multiply (quat_fromEuler d) rot)).
Proof.
  unfold rotate. intros Hp H. rewrite Hp in H.
  inv_bind H as [rot s1] E1. inv_bind H as [prot s2] E2. inv_bind H as t Et.
  exists rot, s1. split; [reflexivity|]. eapply stored_rotation; exact H.
Qed.

(** [setLocalEulerAngles] stores the requested rotation as [quat.fromEuler]
    returns it. *)
Lemma setLocalEulerAngles_stores (fuel : nat) (e : Entity) (d : vec3) (s s' : State) :
  setLocalEulerAngles fuel e d s = Ok s' ->
  option_map localRotation (trOf s' e) = Some (quat_fromEuler d).
Proof.
  unfold setLocalEulerAngles. intros H. inv_bind H as t Et.
  eapply stored_rotation; exact H.
Qed.

(** [setEulerAngles] on a node with a parent stores the product of the
    requested rotation and the inverse of the parent's world rotation, in
    this order and without normalising it. *)
Lemma setEulerAngles_stores (fuel : nat) (e p : Entity) (d : vec3) (s s' : State) :
  parentOf s e = Some p ->
  setEulerAngles fuel e d s = Ok s' ->
  exists t prot s2,
    trOf s e = Some t /\
    getRotation fuel p (setT e (setLocalRotationField (quat_fromEuler d) t) s)
      = Ok (prot, s2) /\
    option_map localRotation (trOf s' e) =
      Some (quat_multiply (quat_fromEuler d) (quat_invert prot)).
Proof.
  unfold setEulerAngles. intros Hp H. rewrite Hp in H.
  inv_bind H as t Et. apply getT_Ok in Et.
  inv_bind H as [prot s2] E2. inv_bind H as t2 Et2. apply getT_Ok in Et2.
  exists t, prot, s2. split; [exact Et|]. split; [exact E2|].
  assert (Hr : localRotation t2 = quat_fromEuler d).
  { pose proof (KeepsLocal_rotation e (getRotation_KeepsLocal _ _ _ E2)) as K.
    rewrite Et2, trOf_setT, Nat.eqb_refl in K. simpl in K. congruence. }
  rewrite <- Hr. eapply stored_rotation; exact H.
Qed.

(** [matrixTransform e m] stores the decomposition of the product of the
    local matrix of [e] and [m], the local matrix on the left. *)
Lemma matrixTransform_stores (fuel : nat) (e : Entity) (m : mat4) (s s' : State) :
  matrixTransform fuel e m s = Ok s' ->
  exists l s1 t', getLocalTransform e s = Ok (l, s1) /\ trOf s' e = Some t' /\
    localPosition t' = mat4_getTranslation (mat4_multiply l m) /\
    localRotation t' = mat4_getRotation (mat4_multiply l m) /\
    localScale t' = mat4_getScaling (mat4_multiply l m).
Proof.
  unfold matrixTransform. intros H. inv_bind H as [l s1] E1. inv_bind H as t Et.
  apply setLocalDirty_KeepsLocal in H. specialize (H e).
  rewrite trOf_setT, Nat.eqb_refl in H. simpl in H.
  destruct (trOf s' e) as [t'|]; [|discriminate].
  exists l, s1, t'. split; [reflexivity|]. split; [reflexivity|].
  unfold localFields in H. simpl in H. injection H as -> -> -> _. auto.
Qed.

End StoredFields.

(** ** [attach] of a clean node to itself does not return *)

Section AttachSelfClean.

Context {G : GLMatrix} {Sh : Shapes G}.

(** The walk to the root never ends at a node that is its own parent. *)
Lemma unfreezeParentToRoot_self (fuel : nat) :
  forall (e : Entity) (s : State),
    parentOf s e = Some e -> unfreezeParentToRoot fuel e s = OutOfFuel.
Proof.
  induction fuel as [|f IH]; intros e s Hp; [reflexivity|].
  cbn [unfreezeParentToRoot].
  assert (Hp1 : parentOf (setNode e (withFrozen false (nodeOf s e)) s) e = Some e).
  { destruct (SameCore_frozen e false s e) as (-> & _ & _). exact Hp. }
  rewrite Hp1. apply IH. exact Hp1.
Qed.

(** On a parentless node without [Renderable] whose flags are clear,
    [attach node node] runs out of any fuel: the self-cycle it creates is
    walked for ever by [unfreezeParentToRoot]. *)
Lemma attach_self_clean_never_returns
    (fuel : nat) (e : Entity) (index : option Z) (s : State) (t : Transform) :
  parentOf s e = None ->
  renderable (comps s e) = None ->
  trOf s e = Some t ->
  localDirtyFlag t = false ->
  dirtyFlag t = false ->
  mat4_invert (worldTransform t) <> None ->
  attach fuel e e index s = OutOfFuel.
Proof.
  intros Hp Hr Ht Hl Hd Hinv. unfold attach. rewrite Hp. cbn [bind].
  set (s2 := setParent e (Some e) s).
  set (s3 := setChildren e _ s2).
  assert (Hr3 : renderable (comps s3 e) = None).
  { unfold s3, s2, setChildren, setParent, setNode, upd. simpl.
    rewrite !Nat.eqb_refl. simpl. exact Hr. }
  assert (Ht3 : trOf s3 e = Some t).
  { unfold s3, s2. rewrite trOf_setChildren, trOf_setParent. exact Ht. }
  assert (Hp3 : parentOf s3 e = Some e).
  { unfold s3, s2. rewrite parentOf_setChildren, parentOf_setParent, Nat.eqb_refl.
    reflexivity. }
  unfold dirtifyAABB. rewrite Hr3. cbn [bind]. rewrite Ht3.
  destruct (mat4_invert (worldTransform t)) as [inv|]; [|congruence].
  unfold matrixTransform, getLocalTransform, getT. rewrite Ht3. cbn [bind].
  rewrite Hl. cbn [bind]. rewrite Ht3. cbn [bind].
  unfold setLocalDirty. rewrite getT_setT. cbn [bind].
  simpl localDirtyFlag. rewrite Hl. cbn [negb].
  simpl dirtyFlag. rewrite Hd. cbn [negb].
  unfold setDirty. rewrite getT_setT. cbn [bind].
  simpl dirtyFlag. rewrite Hd. cbn [negb].
  rewrite unfreezeParentToRoot_self; [reflexivity|].
  rewrite !parentOf_setT. exact Hp3.
Qed.

End AttachSelfClean.

(** * Further properties of the service *)

(** ** Reads: caching *)

Section ReadsAgain.

Context {G : GLMatrix} {Sh : Shapes G}.

Lemma getLocalTransform_clears (e : Entity) (s s' : State) (m : mat4) :
  getLocalTransform e s = Ok (m, s') ->
  exists t t', trOf s e = Some t /\ trOf s' e = Some t' /\
    localDirtyFlag t' = false /\ dirtyFlag t' = dirtyFlag t /\ m = localTransform t'.
Proof.
  intros H.
  destruct (getLocalTransform_inv _ _ H) as (t & Ht & [(Hl & -> & ->)|(Hl & -> & ->)]).
  - eexists t, _. rewrite trOf_setT, Nat.eqb_refl. repeat split; try reflexivity. exact Ht.
  - exists t, t. auto.
Qed.

Lemma updateTransform_clears (e : Entity) (s s' : State) :
  updateTransform e s = Ok s' ->
  exists t', trOf s' e = Some t' /\ localDirtyFlag t' = false /\ dirtyFlag t' = false.
Proof.
  unfold updateTransform. intros H. inv_bind H as t Et. apply getT_Ok in Et.
  inv_bind H as s1 E1.
  assert (H1 : exists t1, trOf s1 e = Some t1 /\ localDirtyFlag t1 = false).
  { destruct (localDirtyFlag t) eqn:Hl.
    - inv_bind E1 as [m s0] E0. inv_Ok E1.
      destruct (getLocalTransform_clears _ _ E0) as (_ & t1 & _ & Ht1 & Hl1 & _).
      eauto.
    - inv_Ok E1. eauto. }
  destruct H1 as (t1 & Ht1 & Hl1).
  inv_bind H as t1' Et1. apply getT_Ok in Et1.
  rewrite Ht1 in Et1. injection Et1 as <-.
  destruct (dirtyFlag t1) eqn:Hd.
  - destruct (match parentOf s1 e with Some p => trOf s1 p | None => None end);
      inv_bind H as [l s2] E2; inv_bind H as t2 Et2; inv_Ok H;
      apply getT_Ok in Et2;
      destruct (getLocalTransform_clears _ _ E2) as (_ & t2' & _ & Ht2' & Hl2 & _);
      rewrite Ht2' in Et2; injection Et2 as <-;
      eexists; rewrite trOf_setT, Nat.eqb_refl; (split; [reflexivity|]); simpl; auto.
  - inv_Ok H. eauto.
Qed.

Lemma getWorldTransform_clears (fuel : nat) (e : Entity) (s s' : State) (w : mat4) :
  getWorldTransform fuel e s = Ok (w, s') ->
  exists t', trOf s' e = Some t' /\ localDirtyFlag t' = false /\
             dirtyFlag t' = false /\ w = worldTransform t'.
Proof.
  destruct fuel as [|f]; intros H; [discriminate|].
  cbn [getWorldTransform] in H. inv_bind H as t Et. apply getT_Ok in Et.
  destruct (negb (localDirtyFlag t) && negb (dirtyFlag t)) eqn:Hclean.
  - inv_Ok H. apply andb_true_iff in Hclean. destruct Hclean as [Hl Hd].
    apply negb_true_iff in Hl. apply negb_true_iff in Hd. eauto.
  - inv_bind H as s1 E1. inv_bind H as s2 E2. inv_bind H as t2 Et2. inv_Ok H.
    apply getT_Ok in Et2.
    destruct (updateTransform_clears _ _ E2) as (t' & Ht' & Hl & Hd).
    rewrite Ht' in Et2. injection Et2 as <-. eauto.
Qed.

(** X1.  A second [getWorldTransform] right after one that returned gives
    the same matrix and leaves the store as it is: the first read cleared
    both flags of the node, so the second returns the cached matrix. *)
Theorem getWorldTransform_again
    (fuel : nat) (e : Entity) (s s1 : State) (w : mat4) :
  getWorldTransform fuel e s = Ok (w, s1) ->
  getWorldTransform fuel e s1 = Ok (w, s1).
Proof.
  intros H.
  destruct (getWorldTransform_clears _ _ _ H) as (t' & Ht' & Hl & Hd & ->).
  destruct fuel as [|f]; [discriminate H|].
  cbn [getWorldTransform]. unfold getT. rewrite Ht'. cbn [bind].
  rewrite Hl, Hd. reflexivity.
Qed.

End ReadsAgain.

Module ReadsAgainFacts.

#[local] Existing Instance QGL.glmatrix.
#[local] Existing Instance QGL.shapes.

Import Scene Session.

Lemma tour4_read : getWorldTransform 10 1 tour4 = Ok (fst tourRead, snd tourRead).
Proof.
  rewrite <- surjective_pairing. apply RunFacts.after_returns. vm_compute. exact I.
Qed.

Lemma getWorldTransform_again_witness :
  getWorldTransform 10 1 (snd tourRead) = Ok (fst tourRead, snd tourRead).
Proof.
  exact (getWorldTransform_again 10 1 tour4 tour4_read).
Defined.

End ReadsAgainFacts.

(** ** Reads: no staleness *)

Section FreshReads.

Context {G : GLMatrix} {Sh : Shapes G}.

Lemma Reaches_Consistent (fuel : nat) (ops : list Op) (s s' : State) :
  Consistent s -> Reaches fuel s ops s' -> Consistent s'.
Proof.
  intros HI HR. induction HR as [s|s s1 s' op ops Hadm Hstep HR IH]; [exact HI|].
  apply IH. eapply step_Consistent; eauto.
Qed.



(** The world matrix read for a root of a consistent store is the TRS
    composition of its local fields. *)
Lemma root_world_is_TRS (fuel : nat) (e : Entity) (s s' : State) (t : Transform)
    (w : mat4) :
  Consistent s ->
  parentOf s e = None ->
  trOf s e = Some t ->
  getWorldTransform fuel e s = Ok (w, s') ->
  w = localTRS t.
Proof.
  intros [_ HC] Hp Ht H.
  edestruct getWorldTransform_Core as (HC1 & t' & Ht' & Hl & Hd & ->); [exact HC|exact H|].
  destruct (HC1 e t' Ht') as (A & _ & C).
  destruct (C (fun F : nobody e => F) Hd) as [Hw _].
  assert (Hp' : parentOf s' e = None).
  { destruct (getWorldTransform_Frame _ _ _ H e) as (-> & _). exact Hp. }
  unfold compose in Hw. rewrite Hp' in Hw. rewrite Hw.
  rewrite (A (fun F : nobody e => F) Hl).
  pose proof (getWorldTransform_KeepsLocal _ _ _ H e) as K.
  rewrite Ht, Ht' in K. simpl in K. unfold localFields in K.
  injection K as K1 K2 K3 K4. unfold localTRS. rewrite K1, K2, K3, K4. reflexivity.
Qed.


End FreshReads.

Module FreshReadsFacts.

#[local] Existing Instance QGL.glmatrix.
#[local] Existing Instance QGL.shapes.

Import Scene Session.



Lemma placed_set : setLocalPosition 10 0 (3, 4, 5)%Q blank = Ok placed.
Proof.
  apply RunFacts.after_returns. vm_compute. exact I.
Qed.

Lemma placed_read : getPosition 10 0 placed = Ok (fst placedRead, snd placedRead).
Proof.
  rewrite <- surjective_pairing. apply RunFacts.after_returns. vm_compute. exact I.
Qed.


End FreshReadsFacts.

(** ** What an operation leaves alone *)

Section LeftAlone.

Context {G : GLMatrix} {Sh : Shapes G}.

Lemma write_Frame (fuel : nat) (e : Entity) (t t' : Transform) (s s' : State) :
  trOf s e = Some t ->
  setLocalDirty fuel e (setT e t' s) = Ok s' ->
  Frame s s'.
Proof.
  intros Ht H. eapply Frame_trans; [eapply Frame_setT; exact Ht|].
  eapply setLocalDirty_Frame; exact H.
Qed.

Lemma setLocalPosition_Frame (fuel : nat) (e : Entity) (v : vec3) (s s' : State) :
  setLocalPosition fuel e v s = Ok s' -> Frame s s'.
Proof.
  unfold setLocalPosition. intros H. inv_bind H as t Et. apply getT_Ok in Et.
  eapply write_Frame; eauto.
Qed.

Lemma rotateLocal_Frame (fuel : nat) (e : Entity) (d : vec3) (s s' : State) :
  rotateLocal fuel e d s = Ok s' -> Frame s s'.
Proof.
  unfold rotateLocal. intros H. inv_bind H as t Et. apply getT_Ok in Et.
  eapply write_Frame; eauto.
Qed.

Lemma setLocalEulerAngles_Frame (fuel : nat) (e : Entity) (d : vec3) (s s' : State) :
  setLocalEulerAngles fuel e d s = Ok s' -> Frame s s'.
Proof.
  unfold setLocalEulerAngles. intros H. inv_bind H as t Et. apply getT_Ok in Et.
  eapply write_Frame; eauto.
Qed.

Lemma setPosition_Frame (fuel : nat) (e : Entity) (v : vec3) (s s' : State) :
  setPosition fuel e v s = Ok s' -> Frame s s'.
Proof.
  unfold setPosition. intros H. inv_bind H as t Et. apply getT_Ok in Et.
  eapply Frame_trans; [eapply Frame_setT; exact Et|].
  destruct (parentOf _ e) as [p|]; [|eapply setLocalPosition_Frame; eauto].
  inv_bind H as pt Ept. inv_bind H as t1 Et1. apply getT_Ok in Et1.
  eapply write_Frame; eauto.
Qed.

Lemma step_Frame (fuel : nat) (op : Op) (s s' : State) :
  isAttach op = false -> isSort op = false ->
  step fuel op s = Ok s' -> Frame s s'.
Proof.
  intros Ha Hs H. destruct op; try discriminate; cbn [step] in H.
  - eapply setLocalPosition_Frame; eauto.
  - eapply setPosition_Frame; eauto.
  - unfold translate in H. inv_bind H as [p s1] E1. inv_bind H as s2 E2.
    eapply Frame_trans; [eapply getPosition_Frame; eauto|].
    eapply Frame_trans; [eapply setPosition_Frame; eauto|].
    eapply setDirty_Frame; eauto.
  - unfold translateLocal in H. inv_bind H as t Et. apply getT_Ok in Et.
    eapply write_Frame; eauto.
  - unfold rotate in H.
    destruct (parentOf s e) as [p|]; [|eapply rotateLocal_Frame; eauto].
    inv_bind H as [rot s1] E1. inv_bind H as [prot s2] E2.
    inv_bind H as t Et. apply getT_Ok in Et.
    eapply Frame_trans; [eapply getRotation_Frame; eauto|].
    eapply Frame_trans; [eapply getRotation_Frame; eauto|].
    eapply write_Frame; eauto.
  - eapply rotateLocal_Frame; eauto.
  - unfold setEulerAngles in H.
    destruct (parentOf s e) as [p|]; [|eapply setLocalEulerAngles_Frame; eauto].
    inv_bind H as t Et. apply getT_Ok in Et.
    inv_bind H as [prot s2] E2. inv_bind H as t2 Et2. apply getT_Ok in Et2.
    eapply Frame_trans; [eapply Frame_setT; exact Et|].
    eapply Frame_trans; [eapply getRotation_Frame; eauto|].
    eapply write_Frame; eauto.
  - eapply setLocalEulerAngles_Frame; eauto.
  - unfold scaleLocal in H. inv_bind H as t Et. apply getT_Ok in Et.
    eapply write_Frame; eauto.
  - unfold setLocalScale in H. inv_bind H as t Et. apply getT_Ok in Et.
    eapply write_Frame; eauto.
  - unfold dropValue in H. inv_bind H as [m s1] E1. inv_Ok H.
    eapply getLocalTransform_Frame; eauto.
  - unfold dropValue in H. inv_bind H as [m s1] E1. inv_Ok H.
    eapply getWorldTransform_Frame; eauto.
  - unfold dropValue in H. inv_bind H as [m s1] E1. inv_Ok H.
    eapply getPosition_Frame; eauto.
  - unfold dropValue in H. inv_bind H as [m s1] E1. inv_Ok H.
    eapply getRotation_Frame; eauto.
  - unfold dropValue in H. inv_bind H as [m s1] E1. inv_Ok H.
    eapply getScale_Frame; eauto.
  - eapply matrixTransform_Frame; eauto.
  - eapply setLocalDirty_Frame; eauto.
  - eapply setDirty_Frame; eauto.
  - eapply updateRenderableAABB_Frame; eauto.
Qed.


End LeftAlone.

Module SessionFacts.

#[local] Existing Instance QGL.glmatrix.
#[local] Existing Instance QGL.shapes.

Import Scene Session.

Lemma tour2_step : step 10 (OpSetLocalPosition 0 (10, 0, 0)%Q) tour1 = Ok tour2.
Proof.
  apply RunFacts.after_returns. vm_compute. exact I.
Qed.

Lemma tour4_step : step 10 (OpAttach 1 2 None) tour3 = Ok tour4.
Proof.
  apply RunFacts.after_returns. vm_compute. exact I.
Qed.

End SessionFacts.

Module LeftAloneFacts.

#[local] Existing Instance QGL.glmatrix.
#[local] Existing Instance QGL.shapes.

Import Scene Session.


End LeftAloneFacts.

(** ** Whose local fields an operation writes *)

Section WrittenFields.

Context {G : GLMatrix} {Sh : Shapes G}.

Lemma KeepsLocal_But (x : option Entity) (s s' : State) :
  KeepsLocal s s' -> KeepsLocalBut x s s'.
Proof.
  intros H n _. apply H.
Qed.

Lemma KeepsLocalBut_trans (x : option Entity) (s1 s2 s3 : State) :
  KeepsLocalBut x s1 s2 -> KeepsLocalBut x s2 s3 -> KeepsLocalBut x s1 s3.
Proof.
  intros H1 H2 n Hn. rewrite (H2 n Hn). apply H1. exact Hn.
Qed.

Lemma KeepsLocalBut_setT (e : Entity) (t' : Transform) (s : State) :
  KeepsLocalBut (Some e) s (setT e t' s).
Proof.
  intros n Hn. rewrite trOf_setT.
  destruct (Nat.eqb_spec n e) as [->|]; [congruence|reflexivity].
Qed.

Lemma KeepsLocal_same_transforms (s s' : State) :
  (forall n, trOf s' n = trOf s n) -> KeepsLocal s s'.
Proof.
  intros H n. rewrite H. reflexivity.
Qed.

Lemma setDirty_KeepsLocal (fuel : nat) (e : Entity) (s s' : State) :
  setDirty fuel e s = Ok s' -> KeepsLocal s s'.
Proof.
  unfold setDirty. intros H. inv_bind H as t Et. inv_bind H as s1 E1.
  eapply KeepsLocal_trans; [|eapply dirtifyWorldInternal_KeepsLocal; eauto].
  destruct (negb (dirtyFlag t)); [|inv_Ok E1; apply KeepsLocal_refl].
  apply SameCore_KeepsLocal. eapply unfreezeParentToRoot_SameCore; eauto.
Qed.

Lemma getPosition_KeepsLocal (fuel : nat) (e : Entity) (s s' : State) (v : vec3) :
  getPosition fuel e s = Ok (v, s') -> KeepsLocal s s'.
Proof.
  unfold getPosition. intros H. inv_bind H as [w s1] E1.
  inv_bind H as t Et. inv_Ok H. apply getT_Ok in Et.
  eapply KeepsLocal_trans; [eapply getWorldTransform_KeepsLocal; eauto|].
  eapply KeepsLocal_setT; [exact Et|reflexivity].
Qed.

Lemma getScale_KeepsLocal (fuel : nat) (e : Entity) (s s' : State) (v : vec3) :
  getScale fuel e s = Ok (v, s') -> KeepsLocal s s'.
Proof.
  unfold getScale. intros H. inv_bind H as [w s1] E1.
  inv_bind H as t Et. inv_Ok H. apply getT_Ok in Et.
  eapply KeepsLocal_trans; [eapply getWorldTransform_KeepsLocal; eauto|].
  eapply KeepsLocal_setT; [exact Et|reflexivity].
Qed.

Lemma updateRenderableAABB_KeepsLocal (fuel : nat) (e : Entity) (s s' : State) :
  updateRenderableAABB fuel e s = Ok s' -> KeepsLocal s s'.
Proof.
  intros H. apply dirtifyAABB_KeepsLocal with (fuel := fuel) (e := e).
  unfold dirtifyAABB. unfold updateRenderableAABB in H |- *.
  destruct (renderable (comps s e)); [exact H|discriminate].
Qed.

Lemma write_KeepsLocalBut (fuel : nat) (e : Entity) (t' : Transform) (s s' : State) :
  setLocalDirty fuel e (setT e t' s) = Ok s' -> KeepsLocalBut (Some e) s s'.
Proof.
  intros H. eapply KeepsLocalBut_trans; [apply KeepsLocalBut_setT|].
  apply KeepsLocal_But. eapply setLocalDirty_KeepsLocal; exact H.
Qed.

Lemma setLocalPosition_KeepsLocalBut (fuel : nat) (e : Entity) (v : vec3) (s s' : State) :
  setLocalPosition fuel e v s = Ok s' -> KeepsLocalBut (Some e) s s'.
Proof.
  unfold setLocalPosition. intros H. inv_bind H as t Et.
  eapply write_KeepsLocalBut; eauto.
Qed.

Lemma setPosition_KeepsLocalBut (fuel : nat) (e : Entity) (v : vec3) (s s' : State) :
  setPosition fuel e v s = Ok s' -> KeepsLocalBut (Some e) s s'.
Proof.
  unfold setPosition. intros H. inv_bind H as t Et.
  eapply KeepsLocalBut_trans; [apply KeepsLocalBut_setT|].
  destruct (parentOf _ e) as [p|]; [|eapply setLocalPosition_KeepsLocalBut; eauto].
  inv_bind H as pt Ept. inv_bind H as t1 Et1.
  eapply write_KeepsLocalBut; eauto.
Qed.

Lemma matrixTransform_KeepsLocalBut (fuel : nat) (e : Entity) (m : mat4) (s s' : State) :
  matrixTransform fuel e m s = Ok s' -> KeepsLocalBut (Some e) s s'.
Proof.
  unfold matrixTransform. intros H. inv_bind H as [l s1] E1. inv_bind H as t Et.
  eapply KeepsLocalBut_trans;
    [apply KeepsLocal_But; eapply getLocalTransform_KeepsLocal; eauto|].
  eapply write_KeepsLocalBut; eauto.
Qed.

Lemma detach_KeepsLocalBut (fuel : nat) (e : Entity) (s s' : State) :
  detach fuel e s = Ok s' -> KeepsLocalBut (Some e) s s'.
Proof.
  unfold detach. intros H.
  destruct (parentOf s e) as [p|]; [|inv_Ok H; apply KeepsLocal_But, KeepsLocal_refl].
  inv_bind H as s1 E1. inv_bind H as s3 E3. inv_Ok H.
  unfold applyTransform in E1. inv_bind E1 as t Et.
  eapply KeepsLocalBut_trans; [apply KeepsLocalBut_setT|].
  apply KeepsLocal_But.
  eapply KeepsLocal_trans; [eapply setDirty_KeepsLocal; eauto|].
  eapply KeepsLocal_trans;
    [apply KeepsLocal_same_transforms; intros n; apply trOf_setChildren|].
  eapply KeepsLocal_trans; [eapply dirtifyAABB_KeepsLocal; eauto|].
  apply KeepsLocal_same_transforms. intros n. apply trOf_setParent.
Qed.

Lemma attach_KeepsLocalBut (fuel : nat) (e p : Entity) (i : option Z) (s s' : State) :
  attach fuel e p i s = Ok s' -> KeepsLocalBut (Some e) s s'.
Proof.
  unfold attach. intros H. inv_bind H as s1 E1. inv_bind H as s4 E4.
  assert (F1 : KeepsLocalBut (Some e) s s1).
  { destruct (parentOf s e); [eapply detach_KeepsLocalBut; eauto|].
    inv_Ok E1. apply KeepsLocal_But, KeepsLocal_refl. }
  eapply KeepsLocalBut_trans; [exact F1|].
  eapply KeepsLocalBut_trans with (s2 := s4).
  - apply KeepsLocal_But.
    eapply KeepsLocal_trans; [|eapply dirtifyAABB_KeepsLocal; eauto].
    apply KeepsLocal_same_transforms. intros n.
    rewrite trOf_setChildren. apply trOf_setParent.
  - destruct (trOf s4 p) as [pt|]; [|inv_Ok H; apply KeepsLocal_But, KeepsLocal_refl].
    destruct (mat4_invert (worldTransform pt)); [|discriminate].
    eapply matrixTransform_KeepsLocalBut; eauto.
Qed.


End WrittenFields.

Module WrittenFieldsFacts.

#[local] Existing Instance QGL.glmatrix.
#[local] Existing Instance QGL.shapes.

Import Scene Session.


End WrittenFieldsFacts.

(** ** What the service never touches *)

Section Quiet.

Context {G : GLMatrix} {Sh : Shapes G}.

Lemma QuietBut_refl (x : option Entity) (s : State) : QuietBut x s s.
Proof.
  split.
  - intros n. repeat split; auto.
  - exists []. split; [symmetry; apply app_nil_r|]. intros e [].
Qed.

Lemma QuietBut_trans (x : option Entity) (s1 s2 s3 : State) :
  QuietBut x s1 s2 -> QuietBut x s2 s3 -> QuietBut x s1 s3.
Proof.
  intros [H1 (l1 & E1 & K1)] [H2 (l2 & E2 & K2)]. split.
  - intros n. destruct (H1 n) as (A1 & B1 & C1 & D1 & F1).
    destruct (H2 n) as (A2 & B2 & C2 & D2 & F2).
    split; [intros Hx; rewrite (A2 Hx); auto|].
    split; [congruence|]. split; [tauto|]. split; [auto|congruence].
  - exists (l1 ++ l2). split; [rewrite E2, E1; symmetry; apply app_assoc|].
    intros e He. apply in_app_or in He. destruct He as [He|He]; [auto|].
    destruct (K2 e He) as [R Ge]. destruct (H1 e) as (_ & B1 & C1 & _).
    split; [tauto|congruence].
Qed.

Lemma QuietBut_setT (x : option Entity) (e : Entity) (t t' : Transform) (s : State) :
  trOf s e = Some t -> origin t' = origin t -> QuietBut x s (setT e t' s).
Proof.
  intros Ht Ho. split.
  - intros n. rewrite nodeOf_setT, trOf_setT. unfold setT, upd. simpl.
    destruct (Nat.eqb_spec n e) as [->|]; simpl; repeat split; auto.
    rewrite Ht. simpl. congruence.
  - exists []. split; [symmetry; apply app_nil_r|]. intros y [].
Qed.

Lemma QuietBut_setNode (x : option Entity) (e : Entity) (nd : SceneGraphNode) (s : State) :
  (frozen nd = true -> frozen (nodeOf s e) = true) -> QuietBut x s (setNode e nd s).
Proof.
  intros Hf. split.
  - intros n. rewrite nodeOf_setNode, trOf_setNode. unfold setNode, upd. simpl.
    destruct (Nat.eqb_spec n e) as [->|]; simpl; repeat split; auto.
  - exists []. split; [symmetry; apply app_nil_r|]. intros y [].
Qed.

Lemma QuietBut_box (x : option Entity) (e : Entity) (r : Renderable) (s : State) :
  renderable (comps s e) <> None -> geometry (comps s e) <> None ->
  QuietBut x s (emit e (setRenderable e r s)).
Proof.
  intros Hr Hg. split.
  - intros n. unfold nodeOf, trOf, emit, setRenderable, upd. simpl.
    destruct (Nat.eqb_spec n e) as [->|]; simpl; repeat split; auto;
      try discriminate; intros; contradiction.
  - exists [e]. split; [reflexivity|]. intros y [<-|[]]. auto.
Qed.

Lemma getLocalTransform_Quiet (x : option Entity) (e : Entity) (s s' : State) (m : mat4) :
  getLocalTransform e s = Ok (m, s') -> QuietBut x s s'.
Proof.
  intros H.
  destruct (getLocalTransform_inv _ _ H) as (t & Ht & [(_ & _ & ->)|(_ & _ & ->)]).
  - eapply QuietBut_setT; [exact Ht|reflexivity].
  - apply QuietBut_refl.
Qed.

Lemma updateTransform_Quiet (x : option Entity) (e : Entity) (s s' : State) :
  updateTransform e s = Ok s' -> QuietBut x s s'.
Proof.
  unfold updateTransform. intros H. inv_bind H as t Et. inv_bind H as s1 E1.
  assert (F1 : QuietBut x s s1).
  { destruct (localDirtyFlag t).
    - inv_bind E1 as [m s0] E0. inv_Ok E1. eapply getLocalTransform_Quiet; eauto.
    - inv_Ok E1. apply QuietBut_refl. }
  eapply QuietBut_trans; [exact F1|].
  inv_bind H as t1 Et1. destruct (dirtyFlag t1); [|inv_Ok H; apply QuietBut_refl].
  destruct (match parentOf s1 e with Some p => trOf s1 p | None => None end).
  - inv_bind H as [l s2] E2. inv_bind H as t2 Et2. inv_Ok H. apply getT_Ok in Et2.
    eapply QuietBut_trans; [eapply getLocalTransform_Quiet; eauto|].
    eapply QuietBut_setT; [exact Et2|reflexivity].
  - inv_bind H as [l s2] E2. inv_bind H as t2 Et2. inv_Ok H. apply getT_Ok in Et2.
    eapply QuietBut_trans; [eapply getLocalTransform_Quiet; eauto|].
    eapply QuietBut_setT; [exact Et2|reflexivity].
Qed.

Lemma getWorldTransform_Quiet (x : option Entity) (fuel : nat) :
  forall (e : Entity) (s s' : State) (m : mat4),
    getWorldTransform fuel e s = Ok (m, s') -> QuietBut x s s'.
Proof.
  induction fuel as [|f IH]; intros e s s' m H; [discriminate|].
  cbn [getWorldTransform] in H. inv_bind H as t Et.
  destruct (negb (localDirtyFlag t) && negb (dirtyFlag t)).
  { inv_Ok H. apply QuietBut_refl. }
  inv_bind H as s1 E1. inv_bind H as s2 E2. inv_bind H as t2 Et2. inv_Ok H.
  eapply QuietBut_trans; [|eapply updateTransform_Quiet; eauto].
  destruct (parentOf s e) as [p|]; [|inv_Ok E1; apply QuietBut_refl].
  destruct (trOf s p); [|inv_Ok E1; apply QuietBut_refl].
  inv_bind E1 as [w s0] E0. inv_Ok E1. eapply IH; eauto.
Qed.

Lemma view_Quiet (x : option Entity) (fuel : nat) (e : Entity) (s s1 : State)
    (w : mat4) (t t' : Transform) :
  getWorldTransform fuel e s = Ok (w, s1) -> trOf s1 e = Some t ->
  origin t' = origin t -> QuietBut x s (setT e t' s1).
Proof.
  intros H Ht Ho.
  eapply QuietBut_trans; [eapply getWorldTransform_Quiet; eauto|].
  eapply QuietBut_setT; eauto.
Qed.

Lemma getPosition_Quiet (x : option Entity) (fuel : nat) (e : Entity) (s s' : State)
    (v : vec3) :
  getPosition fuel e s = Ok (v, s') -> QuietBut x s s'.
Proof.
  unfold getPosition. intros H. inv_bind H as [w s1] E1.
  inv_bind H as t Et. inv_Ok H. apply getT_Ok in Et.
  eapply view_Quiet; [exact E1|exact Et|reflexivity].
Qed.

Lemma getRotation_Quiet (x : option Entity) (fuel : nat) (e : Entity) (s s' : State)
    (q : quat) :
  getRotation fuel e s = Ok (q, s') -> QuietBut x s s'.
Proof.
  unfold getRotation. intros H. inv_bind H as [w s1] E1.
  inv_bind H as t Et. inv_Ok H. apply getT_Ok in Et.
  eapply view_Quiet; [exact E1|exact Et|reflexivity].
Qed.

Lemma getScale_Quiet (x : option Entity) (fuel : nat) (e : Entity) (s s' : State)
    (v : vec3) :
  getScale fuel e s = Ok (v, s') -> QuietBut x s s'.
Proof.
  unfold getScale. intros H. inv_bind H as [w s1] E1.
  inv_bind H as t Et. inv_Ok H. apply getT_Ok in Et.
  eapply view_Quiet; [exact E1|exact Et|reflexivity].
Qed.

Lemma updateRenderableAABB_Quiet (x : option Entity) (fuel : nat) (e : Entity)
    (s s' : State) :
  updateRenderableAABB fuel e s = Ok s' -> QuietBut x s s'.
Proof.
  unfold updateRenderableAABB. intros H.
  destruct (renderable (comps s e)) as [r|] eqn:Er; [|discriminate].
  destruct (geometry (comps s e)) as [b|] eqn:Eg; [|discriminate].
  inv_bind H as [w s1] E1. inv_Ok H.
  pose proof (getWorldTransform_Quiet x _ _ _ E1) as Q1.
  eapply QuietBut_trans; [exact Q1|].
  destruct Q1 as [Q1 _]. destruct (Q1 e) as (_ & Hg & Hr & _).
  apply QuietBut_box.
  - intros K. apply Hr in K. congruence.
  - congruence.
Qed.

Lemma dirtifyAABB_Quiet (x : option Entity) (fuel : nat) (e : Entity) (s s' : State) :
  dirtifyAABB fuel e s = Ok s' -> QuietBut x s s'.
Proof.
  unfold dirtifyAABB. intros H.
  destruct (renderable (comps s e)); [|inv_Ok H; apply QuietBut_refl].
  eapply updateRenderableAABB_Quiet; eauto.
Qed.

Lemma unfreezeParentToRoot_Quiet (x : option Entity) (fuel : nat) :
  forall (e : Entity) (s s' : State),
    unfreezeParentToRoot fuel e s = Ok s' -> QuietBut x s s'.
Proof.
  induction fuel as [|f IH]; intros e s s' H; [discriminate|].
  cbn [unfreezeParentToRoot] in H.
  assert (Q : QuietBut x s (setNode e (withFrozen false (nodeOf s e)) s)).
  { apply QuietBut_setNode. discriminate. }
  destruct (parentOf (setNode e (withFrozen false (nodeOf s e)) s) e) as [p|].
  - eapply QuietBut_trans; [exact Q|]. eapply IH; eauto.
  - inv_Ok H. exact Q.
Qed.

Lemma dirtifyWorldInternal_Quiet (x : option Entity) (fuel : nat) :
  forall (e : Entity) (s s' : State),
    dirtifyWorldInternal fuel e s = Ok s' -> QuietBut x s s'.
Proof.
  induction fuel as [|f IH]; intros e s s' H; [discriminate|].
  cbn [dirtifyWorldInternal] in H. inv_bind H as t Et. inv_bind H as s2 E2.
  apply getT_Ok in Et.
  eapply QuietBut_trans; [|eapply dirtifyAABB_Quiet; eauto].
  destruct (negb (dirtyFlag t)); [|inv_Ok E2; apply QuietBut_refl].
  unfold forEach in E2.
  set (s1 := setT e (withDirty true t) (setNode e (withFrozen false (nodeOf s e)) s)) in *.
  assert (F1 : QuietBut x s s1).
  { unfold s1. eapply QuietBut_trans with (s2 := setNode e (withFrozen false (nodeOf s e)) s);
      [apply QuietBut_setNode; simpl; intros K; discriminate K|].
    eapply QuietBut_setT; [rewrite trOf_setNode; exact Et|reflexivity]. }
  revert E2. apply forEachLive_invariant; [|exact F1].
  intros c st st' Fst Hb. inv_bind Hb as ct Ect.
  destruct (negb (dirtyFlag ct)); [|inv_Ok Hb; exact Fst].
  eapply QuietBut_trans; [exact Fst | eapply IH; eauto].
Qed.

Lemma setDirty_Quiet (x : option Entity) (fuel : nat) (e : Entity) (s s' : State) :
  setDirty fuel e s = Ok s' -> QuietBut x s s'.
Proof.
  unfold setDirty. intros H. inv_bind H as t Et. inv_bind H as s1 E1.
  eapply QuietBut_trans; [|eapply dirtifyWorldInternal_Quiet; eauto].
  destruct (negb (dirtyFlag t)); [|inv_Ok E1; apply QuietBut_refl].
  eapply unfreezeParentToRoot_Quiet; eauto.
Qed.

Lemma setLocalDirty_Quiet (x : option Entity) (fuel : nat) (e : Entity) (s s' : State) :
  setLocalDirty fuel e s = Ok s' -> QuietBut x s s'.
Proof.
  unfold setLocalDirty. intros H. inv_bind H as t Et. apply getT_Ok in Et.
  destruct (negb (localDirtyFlag t)); [|inv_Ok H; apply QuietBut_refl].
  eapply QuietBut_trans with (s2 := setT e (withLocalDirty true t) s);
    [eapply QuietBut_setT; [exact Et|reflexivity]|].
  destruct (negb (dirtyFlag t)); [|eapply dirtifyAABB_Quiet; eauto].
  eapply setDirty_Quiet; eauto.
Qed.

Lemma write_Quiet (x : option Entity) (fuel : nat) (e : Entity) (t t' : Transform)
    (s s' : State) :
  trOf s e = Some t -> origin t' = origin t ->
  setLocalDirty fuel e (setT e t' s) = Ok s' -> QuietBut x s s'.
Proof.
  intros Ht Ho H.
  eapply QuietBut_trans with (s2 := setT e t' s); [eapply QuietBut_setT; eauto|].
  eapply setLocalDirty_Quiet; eauto.
Qed.

Lemma QuietBut_after_setT (x : option Entity) (e : Entity) (t t' : Transform)
    (s s' : State) :
  trOf s e = Some t -> origin t' = origin t ->
  QuietBut x (setT e t' s) s' -> QuietBut x s s'.
Proof.
  intros Ht Ho H. eapply QuietBut_trans with (s2 := setT e t' s); [|exact H].
  eapply QuietBut_setT; eauto.
Qed.

Lemma matrixTransform_Quiet (x : option Entity) (fuel : nat) (e : Entity) (m : mat4)
    (s s' : State) :
  matrixTransform fuel e m s = Ok s' -> QuietBut x s s'.
Proof.
  unfold matrixTransform. intros H. inv_bind H as [l s1] E1.
  inv_bind H as t Et. apply getT_Ok in Et.
  eapply QuietBut_trans; [eapply getLocalTransform_Quiet; eauto|].
  eapply write_Quiet; [exact Et| |exact H]. reflexivity.
Qed.

Lemma setChildren_Quiet (x : option Entity) (e : Entity) (l : list Entity) (s : State) :
  QuietBut x s (setChildren e l s).
Proof.
  unfold setChildren. apply QuietBut_setNode. auto.
Qed.

Lemma setParent_Quiet (x : option Entity) (e : Entity) (p : option Entity) (s : State) :
  QuietBut x s (setParent e p s).
Proof.
  unfold setParent. apply QuietBut_setNode. auto.
Qed.

Lemma detach_Quiet (x : option Entity) (fuel : nat) (e : Entity) (s s' : State) :
  detach fuel e s = Ok s' -> QuietBut x s s'.
Proof.
  unfold detach. intros H.
  destruct (parentOf s e) as [p|]; [|inv_Ok H; apply QuietBut_refl].
  inv_bind H as s1 E1. inv_bind H as s3 E3. inv_Ok H.
  unfold applyTransform in E1. inv_bind E1 as t Et. apply getT_Ok in Et.
  eapply QuietBut_trans with (s2 := s1).
  { eapply QuietBut_after_setT; [exact Et| |eapply setDirty_Quiet; exact E1].
    reflexivity. }
  eapply QuietBut_trans; [apply setChildren_Quiet|].
  eapply QuietBut_trans; [eapply dirtifyAABB_Quiet; eauto|].
  apply setParent_Quiet.
Qed.

Lemma attach_Quiet (x : option Entity) (fuel : nat) (e p : Entity) (i : option Z)
    (s s' : State) :
  attach fuel e p i s = Ok s' -> QuietBut x s s'.
Proof.
  unfold attach. intros H. inv_bind H as s1 E1. inv_bind H as s4 E4.
  assert (F1 : QuietBut x s s1).
  { destruct (parentOf s e); [eapply detach_Quiet; eauto|].
    inv_Ok E1. apply QuietBut_refl. }
  eapply QuietBut_trans; [exact F1|].
  eapply QuietBut_trans; [apply setParent_Quiet|].
  eapply QuietBut_trans; [apply setChildren_Quiet|].
  eapply QuietBut_trans; [eapply dirtifyAABB_Quiet; eauto|].
  destruct (trOf s4 p) as [pt|]; [|inv_Ok H; apply QuietBut_refl].
  destruct (mat4_invert (worldTransform pt)); [|discriminate].
  eapply matrixTransform_Quiet; eauto.
Qed.

Lemma setLocalPosition_Quiet (x : option Entity) (fuel : nat) (e : Entity) (v : vec3)
    (s s' : State) :
  setLocalPosition fuel e v s = Ok s' -> QuietBut x s s'.
Proof.
  unfold setLocalPosition. intros H. inv_bind H as t Et. apply getT_Ok in Et.
  eapply write_Quiet; [exact Et| |exact H]. reflexivity.
Qed.

Lemma setPosition_Quiet (x : option Entity) (fuel : nat) (e : Entity) (v : vec3)
    (s s' : State) :
  setPosition fuel e v s = Ok s' -> QuietBut x s s'.
Proof.
  unfold setPosition. intros H. inv_bind H as t Et. apply getT_Ok in Et.
  eapply QuietBut_after_setT with (t' := withViews v (rotation t) (scaling t) t);
    [exact Et|reflexivity|].
  destruct (parentOf _ e) as [p|]; [|eapply setLocalPosition_Quiet; eauto].
  inv_bind H as pt Ept. inv_bind H as t1 Et1. apply getT_Ok in Et1.
  eapply write_Quiet; [exact Et1| |exact H]. reflexivity.
Qed.

Lemma rotateLocal_Quiet (x : option Entity) (fuel : nat) (e : Entity) (d : vec3)
    (s s' : State) :
  rotateLocal fuel e d s = Ok s' -> QuietBut x s s'.
Proof.
  unfold rotateLocal. intros H. inv_bind H as t Et. apply getT_Ok in Et.
  eapply write_Quiet; [exact Et| |exact H]. reflexivity.
Qed.

Lemma setLocalEulerAngles_Quiet (x : option Entity) (fuel : nat) (e : Entity) (d : vec3)
    (s s' : State) :
  setLocalEulerAngles fuel e d s = Ok s' -> QuietBut x s s'.
Proof.
  unfold setLocalEulerAngles. intros H. inv_bind H as t Et. apply getT_Ok in Et.
  eapply write_Quiet; [exact Et| |exact H]. reflexivity.
Qed.

Lemma flatten_Quiet (x : option Entity) (fuel : nat) :
  forall (e : Entity) (a a' : State * list Entity),
    flatten fuel e a = Ok a' -> QuietBut x (fst a) (fst a').
Proof.
  induction fuel as [|f IH]; intros e [s acc] a' H; [discriminate|].
  cbn [flatten] in H.
  destruct (childrenOf s e) as [|k kids]; [inv_Ok H; apply QuietBut_refl|].
  unfold forEach in H.
  eapply forEachLive_invariant
    with (P := fun a : State * list Entity => QuietBut x s (fst a))
    in H; [exact H| |].
  - intros c a1 a2 Ha1 Hc. eapply QuietBut_trans; [exact Ha1|].
    apply (IH c _ _ Hc).
  - simpl. apply setChildren_Quiet.
Qed.

Lemma sort_Quiet (fuel : nat) (e : Entity) (force : bool) (s s' : State)
    (r : list Entity) :
  sort fuel e force s = Ok (r, s') -> QuietBut (Some e) s s'.
Proof.
  unfold sort. intros H.
  destruct (sdirty (sortable (comps s e)) || force); [|inv_Ok H; apply QuietBut_refl].
  inv_bind H as [s1 res] E1. inv_Ok H.
  eapply QuietBut_trans; [apply (flatten_Quiet (Some e) _ _ _ E1)|]. simpl.
  split.
  - intros n. unfold nodeOf, trOf, setSortable, upd. simpl.
    destruct (Nat.eqb_spec n e) as [->|]; simpl; repeat split; auto.
    intros K. congruence.
  - exists []. split; [symmetry; apply app_nil_r|]. intros y [].
Qed.

Lemma step_Quiet (fuel : nat) (op : Op) (s s' : State) :
  step fuel op s = Ok s' -> QuietBut (sorts op) s s'.
Proof.
  intros H. destruct op; cbn [step sorts] in *.
  - eapply attach_Quiet; eauto.
  - eapply setLocalPosition_Quiet; eauto.
  - eapply setPosition_Quiet; eauto.
  - unfold translate in H. inv_bind H as [p s1] E1. inv_bind H as s2 E2.
    eapply QuietBut_trans; [eapply getPosition_Quiet; eauto|].
    eapply QuietBut_trans; [eapply setPosition_Quiet; eauto|].
    eapply setDirty_Quiet; eauto.
  - unfold translateLocal in H. inv_bind H as t Et. apply getT_Ok in Et.
    eapply write_Quiet; [exact Et| |exact H]. reflexivity.
  - unfold rotate in H.
    destruct (parentOf s e) as [p|]; [|eapply rotateLocal_Quiet; eauto].
    inv_bind H as [rot s1] E1. inv_bind H as [prot s2] E2.
    inv_bind H as t Et. apply getT_Ok in Et.
    eapply QuietBut_trans; [eapply getRotation_Quiet; eauto|].
    eapply QuietBut_trans; [eapply getRotation_Quiet; eauto|].
    eapply write_Quiet; [exact Et| |exact H]. reflexivity.
  - eapply rotateLocal_Quiet; eauto.
  - unfold setEulerAngles in H.
    destruct (parentOf s e) as [p|]; [|eapply setLocalEulerAngles_Quiet; eauto].
    inv_bind H as t Et. apply getT_Ok in Et.
    inv_bind H as [prot s2] E2. inv_bind H as t2 Et2. apply getT_Ok in Et2.
    eapply QuietBut_after_setT
      with (t' := setLocalRotationField (quat_fromEuler degrees) t);
      [exact Et|reflexivity|].
    eapply QuietBut_trans; [eapply getRotation_Quiet; eauto|].
    eapply write_Quiet; [exact Et2| |exact H]. reflexivity.
  - eapply setLocalEulerAngles_Quiet; eauto.
  - unfold scaleLocal in H. inv_bind H as t Et. apply getT_Ok in Et.
    eapply write_Quiet; [exact Et| |exact H]. reflexivity.
  - unfold setLocalScale in H. inv_bind H as t Et. apply getT_Ok in Et.
    eapply write_Quiet; [exact Et| |exact H]. reflexivity.
  - unfold dropValue in H. inv_bind H as [m s1] E1. inv_Ok H.
    eapply getLocalTransform_Quiet; eauto.
  - unfold dropValue in H. inv_bind H as [m s1] E1. inv_Ok H.
    eapply getWorldTransform_Quiet; eauto.
  - unfold dropValue in H. inv_bind H as [m s1] E1. inv_Ok H.
    eapply getPosition_Quiet; eauto.
  - unfold dropValue in H. inv_bind H as [m s1] E1. inv_Ok H.
    eapply getRotation_Quiet; eauto.
  - unfold dropValue in H. inv_bind H as [m s1] E1. inv_Ok H.
    eapply getScale_Quiet; eauto.
  - eapply matrixTransform_Quiet; eauto.
  - eapply setLocalDirty_Quiet; eauto.
  - eapply setDirty_Quiet; eauto.
  - eapply updateRenderableAABB_Quiet; eauto.
  - inv_bind H as [r s1] E1. inv_Ok H. eapply sort_Quiet; eauto.
Qed.

Lemma QuietBut_None (x : option Entity) (s s' : State) :
  QuietBut None s s' -> QuietBut x s s'.
Proof.
  intros [H K]. split; [|exact K].
  intros n. destruct (H n) as (A & B). split; [|exact B].
  intros _. apply A. discriminate.
Qed.

Lemma run_Quiet (fuel : nat) (e : Entity) :
  forall (ops : list Op) (s s' : State),
    Forall (fun op => sorts op <> Some e) ops ->
    run fuel ops s = Ok s' ->
    sortable (comps s' e) = sortable (comps s e).
Proof.
  induction ops as [|op ops IH]; intros s s' Hops H; simpl in H.
  - inv_Ok H. reflexivity.
  - inv_bind H as s1 E1. inversion Hops as [|? ? Hop Hrest]; subst.
    rewrite (IH _ _ Hrest H).
    destruct (step_Quiet _ _ _ E1) as [Q _]. destruct (Q e) as (A & _).
    apply A. exact Hop.
Qed.

(** X7.  The service never invalidates a cached paint order.  Once [sort]
    has returned for an entity, a later [sort] of it without [force] returns
    the same list and changes nothing, whatever operations ran in between
    ([attach] included), as long as none of them was a [sort] of that
    entity: no operation sets the dirty flag of a [Sortable]. *)
Theorem sort_cache_survives_operations
    (fuel : nat) (e : Entity) (force : bool) (ops : list Op)
    (s s1 s2 : State) (r : list Entity) :
  sort fuel e force s = Ok (r, s1) ->
  Forall (fun op => sorts op <> Some e) ops ->
  run fuel ops s1 = Ok s2 ->
  sort fuel e false s2 = Ok (r, s2).
Proof.
  intros Hs Hops Hrun.
  assert (K : sdirty (sortable (comps s1 e)) = false /\ sorted (sortable (comps s1 e)) = r).
  { unfold sort in Hs. destruct (sdirty (sortable (comps s e)) || force) eqn:Hd.
    - inv_bind Hs as [s0 res] E0. inv_Ok Hs.
      unfold setSortable, upd. simpl. rewrite Nat.eqb_refl. simpl. auto.
    - inv_Ok Hs. apply orb_false_iff in Hd. tauto. }
  destruct K as [Kd Ks].
  unfold sort. rewrite (@run_Quiet fuel e ops s1 s2 Hops Hrun), Kd, Ks. reflexivity.
Qed.

(** X8.  No operation of the service freezes a node, adds or removes a
    [Renderable], changes a [Geometry] or an origin, or changes the
    [Sortable] of an entity other than the one [sort] is called on. *)
Theorem operations_leave_other_components_alone
    (fuel : nat) (op : Op) (s s' : State) :
  step fuel op s = Ok s' ->
  forall n,
    (frozen (nodeOf s' n) = true -> frozen (nodeOf s n) = true) /\
    (renderable (comps s' n) = None <-> renderable (comps s n) = None) /\
    geometry (comps s' n) = geometry (comps s n) /\
    option_map origin (trOf s' n) = option_map origin (trOf s n) /\
    (sorts op <> Some n -> sortable (comps s' n) = sortable (comps s n)).
Proof.
  intros H n. destruct (step_Quiet _ _ _ H) as [Q _].
  destruct (Q n) as (A & B & C & D & F). auto.
Qed.

(** X9.  The log of [AABBChanged] events only grows, and every event an
    operation adds names an entity that carries both a [Renderable] and a
    [Geometry]. *)
Theorem events_only_for_renderables
    (fuel : nat) (op : Op) (s s' : State) :
  step fuel op s = Ok s' ->
  exists added, events s' = events s ++ added /\
    forall e, In e added ->
      renderable (comps s e) <> None /\ geometry (comps s e) <> None.
Proof.
  intros H. destruct (step_Quiet _ _ _ H) as [_ K]. exact K.
Qed.

End Quiet.

Module QuietFacts.

#[local] Existing Instance QGL.glmatrix.
#[local] Existing Instance QGL.shapes.

Import Scene Session Episodes.

Lemma layered_grows : run 10 [OpAttach 4 0 None] (snd layeredSort) = Ok layeredGrown.
Proof.
  apply RunFacts.after_returns. vm_compute. exact I.
Qed.

Lemma layeredGrown_children : childrenOf layeredGrown 0 = [2; 3; 1; 4].
Proof.
  vm_compute. reflexivity.
Qed.

Lemma sort_cache_survives_operations_witness :
  sort 10 0 false layeredGrown = Ok (fst layeredSort, layeredGrown).
Proof.
  refine (@sort_cache_survives_operations _ _ 10 0 false [OpAttach 4 0 None]
            layered (snd layeredSort) layeredGrown (fst layeredSort)
            SortFacts.sort_layered _ layered_grows).
  constructor; [discriminate|constructor].
Defined.

Lemma operations_leave_other_components_alone_witness :
  (frozen (nodeOf tour4 0) = true -> frozen (nodeOf tour3 0) = true) /\
  (renderable (comps tour4 0) = None <-> renderable (comps tour3 0) = None) /\
  geometry (comps tour4 0) = geometry (comps tour3 0) /\
  option_map origin (trOf tour4 0) = option_map origin (trOf tour3 0) /\
  (sorts (OpAttach 1 2 None) <> Some 0 ->
   sortable (comps tour4 0) = sortable (comps tour3 0)).
Proof.
  exact (@operations_leave_other_components_alone _ _ 10 (OpAttach 1 2 None)
           tour3 tour4 SessionFacts.tour4_step 0).
Defined.

Lemma square_scales : step 10 (OpSetLocalScale 0 (2, 2, 2)%Q) square = Ok squareScaled.
Proof.
  apply RunFacts.after_returns. vm_compute. exact I.
Qed.

Lemma events_only_for_renderables_witness :
  exists added, events squareScaled = events square ++ added /\
    forall e, In e added ->
      renderable (comps square e) <> None /\ geometry (comps square e) <> None.
Proof.
  exact (@events_only_for_renderables _ _ 10 (OpSetLocalScale 0 (2, 2, 2)%Q)
           square squareScaled square_scales).
Defined.

End QuietFacts.

(** ** The tree after [detach], [attach] and [detachChildren] *)

Section TreeEffects.

Context {G : GLMatrix} {Sh : Shapes G}.

Lemma detach_tree (fuel : nat) (e : Entity) (s s' : State) :
  detach fuel e s = Ok s' ->
  parentOf s' e = None /\
  (forall n, n <> e -> parentOf s' n = parentOf s n) /\
  (forall n, childrenOf s' n = kidsWithout e s n).
Proof.
  unfold detach, kidsWithout. intros H.
  destruct (parentOf s e) as [p|] eqn:Hp.
  - inv_bind H as s1 E1. inv_bind H as s3 E3. inv_Ok H.
    assert (F1 : Frame s s1) by (eapply applyTransform_Frame; exact E1).
    set (s2 := setChildren p (removeFirst e (childrenOf s1 p)) s1) in *.
    assert (F3 : Frame s2 s3) by (eapply dirtifyAABB_Frame; exact E3).
    split; [|split].
    + rewrite parentOf_setParent, Nat.eqb_refl. reflexivity.
    + intros n Hn. rewrite parentOf_setParent.
      destruct (Nat.eqb_spec n e) as [->|_]; [contradiction|].
      destruct (F3 n) as (-> & _). unfold s2. rewrite parentOf_setChildren.
      destruct (F1 n) as (-> & _). reflexivity.
    + intros n. rewrite childrenOf_setParent.
      destruct (F3 n) as (_ & -> & _). unfold s2. rewrite childrenOf_setChildren.
      destruct (F1 n) as (_ & -> & _). destruct (F1 p) as (_ & -> & _).
      destruct (Nat.eqb_spec n p) as [->|_]; reflexivity.
  - inv_Ok H. auto.
Qed.

Lemma removeFirst_NoDup (e : Entity) (l : list Entity) :
  NoDup l -> ~ In e (removeFirst e l).
Proof.
  induction l as [|x l IH]; intros Hnd; simpl; [tauto|].
  inversion Hnd as [|? ? Hx Hl]; subst.
  destruct (Nat.eqb_spec x e) as [->|Hne]; [exact Hx|].
  intros [K|K]; [contradiction|]. apply (IH Hl K).
Qed.



Lemma removeFirst_app (a : Entity) (kept rest : list Entity) :
  ~ In a kept -> removeFirst a (kept ++ a :: rest) = kept ++ rest.
Proof.
  induction kept as [|x kept IH]; intros Hn; simpl.
  - rewrite Nat.eqb_refl. reflexivity.
  - destruct (Nat.eqb_spec x a) as [->|_].
    + exfalso. apply Hn. left. reflexivity.
    + rewrite IH; [reflexivity|]. intros K. apply Hn. right. exact K.
Qed.

Lemma In_everyOther_both (l : list Entity) :
  (forall c, In c (everyOther l) -> In c l) /\
  (forall a c, In c (everyOther (a :: l)) -> In c (a :: l)).
Proof.
  induction l as [|b r [IH1 IH2]]; split.
  - intros c [].
  - intros a c [].
  - intros c Hc. apply IH2. exact Hc.
  - intros a c Hc. cbn [everyOther] in Hc.
    destruct Hc as [<-|Hc]; [right; left; reflexivity|].
    right. right. apply IH1. exact Hc.
Qed.

Lemma In_everyOther (l : list Entity) (c : Entity) :
  In c (everyOther l) -> In c l.
Proof.
  apply In_everyOther_both.
Qed.

(** Past the end of the array the loop does nothing. *)
Lemma forEachLive_exhausted {A : Type} (arr : A -> list Entity)
    (body : Entity -> A -> Res A) :
  forall (n k : nat) (a : A),
    length (arr a) <= k -> forEachLive n k arr body a = Ok a.
Proof.
  induction n as [|n IH]; intros k a Hk; simpl; [reflexivity|].
  destruct (nth_error (arr a) k) as [x|] eqn:Hx.
  - exfalso. assert (K : k < length (arr a)) by (apply nth_error_Some; congruence). lia.
  - apply IH. lia.
Qed.

Lemma detachChildren_loop (fuel : nat) (p : Entity) :
  forall (n k : nat) (s s' : State) (kept rest : list Entity),
    childrenOf s p = kept ++ rest ->
    length kept = k ->
    NoDup (kept ++ rest) ->
    (forall c, In c (kept ++ rest) -> parentOf s c = Some p) ->
    length rest <= n ->
    forEachLive n k (fun st => childrenOf st p) (fun c st => detach fuel c st) s = Ok s' ->
    childrenOf s' p = kept ++ everyOther rest /\
    (forall c, In c rest -> ~ In c (everyOther rest) -> parentOf s' c = None) /\
    (forall c, ~ In c rest \/ In c (everyOther rest) -> parentOf s' c = parentOf s c).
Proof.
  induction n as [|n IH]; intros k s s' kept rest Hch Hk Hnd Hpar Hlen H.
  - simpl in H. inv_Ok H. destruct rest as [|a rest]; [|simpl in Hlen; lia].
    simpl. split; [exact Hch|]. split; [intros c []|auto].
  - destruct rest as [|a rest].
    + rewrite forEachLive_exhausted in H; [|rewrite Hch, app_nil_r; lia].
      inv_Ok H. simpl. split; [exact Hch|]. split; [intros c []|auto].
    + cbn [forEachLive] in H.
      assert (Hnth : nth_error (childrenOf s p) k = Some a).
      { rewrite Hch, nth_error_app2 by lia.
        replace (k - length kept) with 0 by lia. reflexivity. }
      rewrite Hnth in H. inv_bind H as s1 E1.
      assert (Ha : parentOf s a = Some p).
      { apply Hpar. apply in_or_app. right. left. reflexivity. }
      edestruct detach_tree as (Pa & Po & Ch); [exact E1|].
      assert (Hnk : ~ In a kept /\ ~ In a rest).
      { apply NoDup_remove_2 in Hnd. split; intros K; apply Hnd;
          apply in_or_app; auto. }
      destruct Hnk as [Hnk Hnr].
      assert (Ch1 : childrenOf s1 p = kept ++ rest).
      { rewrite Ch. unfold kidsWithout. rewrite Ha, Nat.eqb_refl, Hch.
        apply removeFirst_app. exact Hnk. }
      assert (Hnd1 : NoDup (kept ++ rest)) by (eapply NoDup_remove_1; exact Hnd).
      assert (Hpar1 : forall c, In c (kept ++ rest) -> parentOf s1 c = Some p).
      { intros c Hc. rewrite Po.
        - apply Hpar. apply in_app_or in Hc. apply in_or_app.
          destruct Hc; [left|right; right]; assumption.
        - intros ->. apply in_app_or in Hc. tauto. }
      destruct rest as [|b rest].
      * rewrite forEachLive_exhausted in H; [|rewrite Ch1, app_nil_r; lia].
        inv_Ok H. simpl. split; [exact Ch1|]. split.
        -- intros c [<-|[]] _. exact Pa.
        -- intros c [Hc|[]]. apply Po. intros ->. apply Hc. left. reflexivity.
      * assert (Hb : ~ In b rest /\ b <> a).
        { split.
          - intros K. apply NoDup_remove_2 in Hnd1. apply Hnd1.
            apply in_or_app. right. exact K.
          - intros ->. apply Hnr. left. reflexivity. }
        destruct Hb as [Hbr Hba].
        edestruct (IH (S k) s1 s' (kept ++ [b]) rest) as (R1 & R2 & R3).
        { rewrite Ch1, <- app_assoc. reflexivity. }
        { rewrite length_app. simpl. lia. }
        { rewrite <- app_assoc. exact Hnd1. }
        { intros c Hc. apply Hpar1. rewrite <- app_assoc in Hc. exact Hc. }
        { simpl in Hlen. lia. }
        { exact H. }
        cbn [everyOther]. split; [rewrite R1, <- app_assoc; reflexivity|]. split.
        -- intros c Hc Hn. destruct Hc as [<-|[<-|Hc]].
           ++ rewrite R3; [exact Pa|]. left. intros K. apply Hnr. right. exact K.
           ++ exfalso. apply Hn. left. reflexivity.
           ++ apply R2; [exact Hc|]. intros K. apply Hn. right. exact K.
        -- intros c Hc.
           assert (Hca : c <> a).
           { intros ->. destruct Hc as [Hc|[Hc|Hc]].
             - apply Hc. left. reflexivity.
             - congruence.
             - apply Hnr. right. apply In_everyOther. exact Hc. }
           rewrite <- (Po c Hca). apply R3.
           destruct Hc as [Hc|[<-|Hc]].
           ++ left. intros K. apply Hc. right. right. exact K.
           ++ left. exact Hbr.
           ++ right. exact Hc.
Qed.


End TreeEffects.

Module TreeFacts.

#[local] Existing Instance QGL.glmatrix.
#[local] Existing Instance QGL.shapes.

Import Scene Session Families.

Lemma family_children : childrenOf family 0 = [1; 2; 3].
Proof.
  vm_compute. reflexivity.
Qed.

Lemma family_NoDup : NoDup (childrenOf family 0).
Proof.
  rewrite family_children. repeat constructor; simpl; intuition discriminate.
Qed.

Lemma family_parents :
  Forall (fun c => parentOf family c = Some 0) (childrenOf family 0).
Proof.
  rewrite family_children. repeat constructor; vm_compute; reflexivity.
Qed.

Lemma family_detach : detach 10 1 family = Ok familyLess.
Proof.
  apply RunFacts.after_returns. vm_compute. exact I.
Qed.

Lemma family_detachChildren : detachChildren 10 0 family = Ok familyHalved.
Proof.
  apply RunFacts.after_returns. vm_compute. exact I.
Qed.


Lemma tour4_attach : attach 10 1 2 None tour3 = Ok tour4.
Proof.
  unfold tour4. cbv beta iota delta [step].
  apply RunFacts.after_returns. vm_compute. exact I.
Qed.



End TreeFacts.

(** ** What the setters store *)

Section Stores.

Context {G : GLMatrix} {Sh : Shapes G}.

Lemma written_fields (fuel : nat) (e : Entity) (t' : Transform) (s s' : State) :
  setLocalDirty fuel e (setT e t' s) = Ok s' ->
  option_map localFields (trOf s' e) = Some (localFields t').
Proof.
  intros H. apply setLocalDirty_KeepsLocal in H. rewrite (H e).
  rewrite trOf_setT, Nat.eqb_refl. reflexivity.
Qed.

Lemma getters_of_fields (e : Entity) (s : State) (p : vec3) (r : quat) (sc o : vec3) :
  option_map localFields (trOf s e) = Some (p, r, sc, o) ->
  getLocalPosition e s = Ok p /\ getLocalRotation e s = Ok r /\ getLocalScale e s = Ok sc.
Proof.
  unfold getLocalPosition, getLocalRotation, getLocalScale, getT, localFields.
  destruct (trOf s e) as [t|]; simpl; [|discriminate].
  intros H. injection H as -> -> -> _. auto.
Qed.

Lemma getters_of_transform (e : Entity) (s : State) (t : Transform) :
  trOf s e = Some t ->
  getLocalPosition e s = Ok (localPosition t) /\
  getLocalRotation e s = Ok (localRotation t) /\
  getLocalScale e s = Ok (localScale t).
Proof.
  intros Ht. apply getters_of_fields with (o := origin t). rewrite Ht. reflexivity.
Qed.



Lemma inParentFrame_setT_views (e : Entity) (t : Transform) (p : vec3) (r : quat)
    (sc v : vec3) (s : State) :
  trOf s e = Some t ->
  inParentFrame (setT e (withViews p r sc t) s) e v = inParentFrame s e v.
Proof.
  intros Ht. unfold inParentFrame. rewrite parentOf_setT.
  destruct (parentOf s e) as [q|]; [|reflexivity].
  rewrite trOf_setT. destruct (Nat.eqb_spec q e) as [->|_]; [|reflexivity].
  rewrite Ht. reflexivity.
Qed.

Lemma setPosition_fields (fuel : nat) (e : Entity) (v : vec3) (s s' : State)
    (t : Transform) :
  trOf s e = Some t ->
  setPosition fuel e v s = Ok s' ->
  option_map localFields (trOf s' e) =
    Some (inParentFrame s e v, localRotation t, localScale t, origin t).
Proof.
  intros Ht H. unfold setPosition in H. unfold getT at 1 in H. rewrite Ht in H.
  cbn [bind] in H. unfold inParentFrame.
  rewrite parentOf_setT in H. destruct (parentOf s e) as [p|].
  - inv_bind H as pt Ept. inv_bind H as t1 Et1. apply getT_Ok in Ept, Et1.
    rewrite trOf_setT, Nat.eqb_refl in Et1. injection Et1 as <-.
    apply written_fields in H. rewrite H.
    rewrite trOf_setT in Ept. unfold invertOrKeep.
    destruct (Nat.eqb_spec p e) as [->|_].
    + injection Ept as <-. rewrite Ht. reflexivity.
    + rewrite Ept. reflexivity.
  - unfold setLocalPosition in H. inv_bind H as t1 Et1. apply getT_Ok in Et1.
    rewrite trOf_setT, Nat.eqb_refl in Et1. injection Et1 as <-.
    apply written_fields in H. rewrite H. reflexivity.
Qed.




End Stores.

(** ** What the world-rotation setter and the matrix operations store *)

Section StoresMore.

Context {G : GLMatrix} {Sh : Shapes G}.


Lemma matrixTransform_fields (fuel : nat) (e : Entity) (m : mat4) (s s' : State) :
  matrixTransform fuel e m s = Ok s' ->
  exists l s1,
    getLocalTransform e s = Ok (l, s1) /\
    getLocalPosition e s' = Ok (mat4_getTranslation (mat4_multiply l m)) /\
    getLocalRotation e s' = Ok (mat4_getRotation (mat4_multiply l m)) /\
    getLocalScale e s' = Ok (mat4_getScaling (mat4_multiply l m)).
Proof.
  intros H. unfold matrixTransform in H. inv_bind H as [l s1] E1.
  inv_bind H as t Et. exists l, s1. split; [reflexivity|].
  apply written_fields in H. apply getters_of_fields in H. exact H.
Qed.


Lemma getLocalTransform_value (e : Entity) (s s2 s2' : State) (l : mat4) :
  trOf s2 e = trOf s e ->
  getLocalTransform e s2 = Ok (l, s2') ->
  exists s1, getLocalTransform e s = Ok (l, s1).
Proof.
  unfold getLocalTransform, getT. intros <-.
  destruct (trOf s2 e) as [t|]; cbn [bind]; [|discriminate].
  destruct (localDirtyFlag t); intros H; injection H as <- _; eexists; reflexivity.
Qed.

Lemma renderable_setNode (e : Entity) (nd : SceneGraphNode) (s : State) (n : Entity) :
  renderable (comps (setNode e nd s) n) = renderable (comps s n).
Proof.
  unfold setNode, upd. simpl. destruct (Nat.eqb_spec n e) as [->|]; reflexivity.
Qed.


End StoresMore.

Module StoresFacts.

#[local] Existing Instance QGL.glmatrix.
#[local] Existing Instance QGL.shapes.

Import Scene Session Writes.

Lemma sized_set : setLocalScale 10 0 (2, 2, 2)%Q blank = Ok sized.
Proof.
  apply RunFacts.after_returns. vm_compute. exact I.
Qed.

Lemma turned_set : setLocalEulerAngles 10 0 halfTurn blank = Ok turned.
Proof.
  apply RunFacts.after_returns. vm_compute. exact I.
Qed.


Lemma placed_position : getLocalPosition 0 placed = Ok (3, 4, 5)%Q.
Proof.
  vm_compute. reflexivity.
Qed.

Lemma placed_rotation : getLocalRotation 0 placed = Ok qid.
Proof.
  vm_compute. reflexivity.
Qed.

Lemma placed_scale : getLocalScale 0 placed = Ok one3.
Proof.
  vm_compute. reflexivity.
Qed.

Lemma placed_moves : translateLocal 10 0 (1, 0, 0)%Q placed = Ok placedMoved.
Proof.
  apply RunFacts.after_returns. vm_compute. exact I.
Qed.

Lemma placed_scales : scaleLocal 10 0 (2, 3, 4)%Q placed = Ok placedScaled.
Proof.
  apply RunFacts.after_returns. vm_compute. exact I.
Qed.

Lemma placed_turns : rotateLocal 10 0 halfTurn placed = Ok placedTurned.
Proof.
  apply RunFacts.after_returns. vm_compute. exact I.
Qed.


Lemma tour2_setPosition : setPosition 10 1 (5, 0, 0)%Q tour2 = Ok repositioned.
Proof.
  apply RunFacts.after_returns. vm_compute. exact I.
Qed.


Lemma tour2_translate : translate 10 1 (1, 0, 0)%Q tour2 = Ok shifted.
Proof.
  apply RunFacts.after_returns. vm_compute. exact I.
Qed.


Lemma tour2_rotate : rotate 10 1 halfTurn tour2 = Ok spun.
Proof.
  apply RunFacts.after_returns. vm_compute. exact I.
Qed.


Lemma tour2_setEulerAngles : setEulerAngles 10 1 halfTurn tour2 = Ok angled.
Proof.
  apply RunFacts.after_returns. vm_compute. exact I.
Qed.


Lemma placed_times : matrixTransform 10 0 QGL.identity placed = Ok placedTimes.
Proof.
  apply RunFacts.after_returns. vm_compute. exact I.
Qed.


Lemma blank_attach : attach 10 1 0 None blank = Ok tour1.
Proof.
  unfold tour1. cbv beta iota delta [step].
  apply RunFacts.after_returns. vm_compute. exact I.
Qed.


End StoresFacts.

(** ** [visit] after [sort] *)

Section VisitAfterSort.

Context {G : GLMatrix} {Sh : Shapes G}.

Lemma sorted_lists_unique (s : State) :
  forall k1 k2 : list Entity,
    Permutation k1 k2 ->
    StronglySorted (leZ s) k1 -> StronglySorted (leZ s) k2 ->
    (forall z, filter (sameZ s z) k1 = filter (sameZ s z) k2) ->
    k1 = k2.
Proof.
  induction k1 as [|a k1 IH]; intros k2 Hp S1 S2 Hf.
  - apply Permutation_nil in Hp. congruence.
  - destruct k2 as [|b k2].
    { apply Permutation_sym, Permutation_nil in Hp. discriminate. }
    inversion S1 as [|? ? S1' F1]; subst. inversion S2 as [|? ? S2' F2]; subst.
    assert (Hab : zOf s a = zOf s b).
    { assert (L1 : (zOf s a <= zOf s b)%Z).
      { assert (Hb : In b (a :: k1)).
        { eapply Permutation_in; [apply Permutation_sym; exact Hp|left; reflexivity]. }
        destruct Hb as [<-|Hb]; [lia|].
        rewrite Forall_forall in F1. apply (F1 b Hb). }
      assert (L2 : (zOf s b <= zOf s a)%Z).
      { assert (Ha : In a (b :: k2)).
        { eapply Permutation_in; [exact Hp|left; reflexivity]. }
        destruct Ha as [<-|Ha]; [lia|].
        rewrite Forall_forall in F2. apply (F2 a Ha). }
      lia. }
    assert (E : a = b).
    { specialize (Hf (zOf s a)). cbn [filter] in Hf. unfold sameZ in Hf.
      rewrite <- Hab, Z.eqb_refl in Hf. congruence. }
    subst b. f_equal. apply IH; auto.
    + eapply Permutation_cons_inv; exact Hp.
    + intros z. specialize (Hf z). cbn [filter] in Hf.
      destruct (sameZ s z a); congruence.
Qed.

Lemma StableSortedByZ_unique (s : State) (l k1 k2 : list Entity) :
  StableSortedByZ s l k1 -> StableSortedByZ s l k2 -> k1 = k2.
Proof.
  intros [P1 S1 F1] [P2 S2 F2]. apply (sorted_lists_unique (s := s)); auto.
  - eapply perm_trans; [apply Permutation_sym; exact P1|exact P2].
  - intros z. rewrite F1, F2. reflexivity.
Qed.

Lemma visit_children (f : nat) (v : Entity -> bool) (s : State) :
  forall (kids : list Entity) (subs : list (list Entity)) (acc : list Entity),
    Forall2 (fun c r => visit f v c s = Ok r) kids subs ->
    fold_left (fun a c => l <- a ;; l' <- visit f v c s ;; Ok (l ++ l'))
      kids (Ok acc) = Ok (acc ++ concat subs).
Proof.
  intros kids subs acc H. revert acc.
  induction H as [|c r kids subs Hc _ IH]; intros acc; simpl.
  - rewrite app_nil_r. reflexivity.
  - rewrite Hc. cbn [bind]. rewrite IH, <- app_assoc. reflexivity.
Qed.

(** The walk of [visit] with a visitor that never cuts, in a store whose
    children lists are sorted along a paint order, is that paint order. *)
Lemma PaintOrder_visit (s0 s2 : State) :
  forall (f : nat) (e : Entity) (r : list Entity),
    Within s0 f e ->
    PaintOrder s0 e r ->
    (forall n, In n r -> childrenOf s2 n = sortedKids s0 n) ->
    visit f (fun _ => false) e s2 = Ok r.
Proof.
  induction f as [|f IH]; intros e r HW HP Hch; [inversion HW|].
  inversion HW as [h e' Hkids]; subst.
  inversion HP as [e' kids subs Hss HF]; subst.
  assert (Ek : kids = sortedKids s0 e).
  { eapply StableSortedByZ_unique; [exact Hss|apply sortByZIndex_spec]. }
  cbn [visit]. rewrite (Hch e (or_introl eq_refl)), <- Ek.
  rewrite (@visit_children f (fun _ => false) s2 kids subs []); [reflexivity|].
  assert (HWk : forall c, In c kids -> Within s0 f c).
  { intros c Hc. rewrite Forall_forall in Hkids. apply Hkids.
    eapply Permutation_in; [apply Permutation_sym, (ss_perm Hss)|exact Hc]. }
  assert (Hsub : forall n, In n (concat subs) -> childrenOf s2 n = sortedKids s0 n).
  { intros n Hn. apply Hch. right. exact Hn. }
  clear Hss Ek Hch HP HW Hkids.
  induction HF as [|c rc kids subs Hc _ IHF]; constructor.
  - apply IH; [apply HWk; left; reflexivity|exact Hc|].
    intros n Hn. apply Hsub. simpl. apply in_or_app. left. exact Hn.
  - apply IHF.
    + intros c' Hc'. apply HWk. right. exact Hc'.
    + intros n Hn. apply Hsub. simpl. apply in_or_app. right. exact Hn.
Qed.

(** X21.  After a forced [sort] of an entity, [visit] from that entity with
    a visitor that never cuts the walk calls the visitor on exactly the list
    [sort] returned, in that order: the children arrays that [sort] reordered
    in place make the plain pre-order walk the paint order. *)
Theorem visit_after_sort_follows_paint_order
    (fuel : nat) (e : Entity) (s s' : State) (result : list Entity) :
  Within s fuel e ->
  sort fuel e true s = Ok (result, s') ->
  visit fuel (fun _ => false) e s' = Ok result.
Proof.
  intros HW H. unfold sort in H. rewrite orb_true_r in H.
  inv_bind H as [s1 res] E1. injection H as <- <-.
  edestruct (@flatten_Flattened _ _ s fuel e s [e])
    as [(_ & _ & subs & HF & Hacc & Hin) He]; [apply During_start|exact E1|].
  simpl in Hacc, Hin, He. subst res.
  apply PaintOrder_visit with (s0 := s).
  - exact HW.
  - apply PaintOrder_sorted. exact HF.
  - intros n Hn. rewrite childrenOf_setSortable.
    destruct Hn as [<-|Hn]; [exact He|apply Hin; exact Hn].
Qed.

End VisitAfterSort.

Module VisitFacts.

#[local] Existing Instance QGL.glmatrix.
#[local] Existing Instance QGL.shapes.

Import Scene.

Lemma layered_dirty : sdirty (sortable (comps layered 0)) = true.
Proof.
  vm_compute. reflexivity.
Qed.

Lemma sort_layered_forced :
  sort 10 0 true layered = Ok (fst layeredSort, snd layeredSort).
Proof.
  rewrite <- SortFacts.sort_layered. unfold sort. rewrite layered_dirty. reflexivity.
Qed.

Lemma visit_after_sort_follows_paint_order_witness :
  visit 10 (fun _ => false) 0 (snd layeredSort) = Ok (fst layeredSort).
Proof.
  exact (@visit_after_sort_follows_paint_order _ _ 10 0 layered (snd layeredSort)
           (fst layeredSort) SortFacts.layered_Within sort_layered_forced).
Defined.

End VisitFacts.

(** ** Walks up the parent chain *)

Section Chains.

Context {G : GLMatrix} {Sh : Shapes G}.

Lemma RootIn_ext (s s' : State) :
  (forall n, parentOf s' n = parentOf s n) ->
  forall d e, RootIn s d e -> RootIn s' d e.
Proof.
  intros Hp d e H. induction H as [e He|e p d He _ IH].
  - apply RootIn_here. rewrite Hp. exact He.
  - eapply RootIn_up; [rewrite Hp; exact He|exact IH].
Qed.

Lemma parentOf_unfrozen (e : Entity) (s : State) (n : Entity) :
  parentOf (setNode e (withFrozen false (nodeOf s e)) s) n = parentOf s n.
Proof.
  destruct (SameCore_frozen e false s n) as (A & _). exact A.
Qed.

Lemma unfreezeParentToRoot_rooted (s : State) :
  forall d e, RootIn s d e ->
    forall fuel s0, (forall n, parentOf s0 n = parentOf s n) -> d < fuel ->
      exists s', unfreezeParentToRoot fuel e s0 = Ok s'.
Proof.
  intros d e H. induction H as [e He|e p d He _ IH]; intros fuel s0 Hp Hd.
  - destruct fuel as [|f]; [lia|]. cbn [unfreezeParentToRoot].
    rewrite parentOf_unfrozen, Hp, He. eauto.
  - destruct fuel as [|f]; [lia|]. cbn [unfreezeParentToRoot].
    rewrite parentOf_unfrozen, Hp, He. apply IH; [|lia].
    intros n. rewrite parentOf_unfrozen. apply Hp.
Qed.

(** X22.  The walk to the root that [setDirty] starts on a node whose world
    flag is clear returns exactly when the parent chain of the node ends at
    a node without parent, and then takes one step per link: on a chain that
    runs into a cycle it never returns, whatever the fuel.  When it returns,
    the node is not frozen. *)
Theorem unfreezeParentToRoot_returns_iff_chain_ends
    (fuel : nat) (e : Entity) (s : State) :
  ((exists s', unfreezeParentToRoot fuel e s = Ok s') <->
   (exists d, d < fuel /\ RootIn s d e)) /\
  (forall s', unfreezeParentToRoot fuel e s = Ok s' -> frozen (nodeOf s' e) = false).
Proof.
  split; [split|].
  - revert e s. induction fuel as [|f IH]; intros e s [s' H]; [discriminate|].
    cbn [unfreezeParentToRoot] in H. rewrite parentOf_unfrozen in H.
    destruct (parentOf s e) as [p|] eqn:He.
    + destruct (IH p _ (ex_intro _ s' H)) as (d & Hd & HR).
      exists (S d). split; [lia|]. eapply RootIn_up; [exact He|].
      eapply RootIn_ext; [|exact HR]. intros n. symmetry. apply parentOf_unfrozen.
    + exists 0. split; [lia|]. apply RootIn_here. exact He.
  - intros (d & Hd & HR). eapply unfreezeParentToRoot_rooted; eauto.
  - intros s' H. destruct fuel as [|f]; [discriminate|].
    cbn [unfreezeParentToRoot] in H.
    set (s1 := setNode e (withFrozen false (nodeOf s e)) s) in *.
    assert (F1 : frozen (nodeOf s1 e) = false).
    { unfold s1. rewrite nodeOf_setNode, Nat.eqb_refl. reflexivity. }
    destruct (parentOf s1 e) as [p|].
    + destruct (unfreezeParentToRoot_Quiet None _ _ _ H) as [Q _].
      destruct (Q e) as (_ & _ & _ & Fz & _).
      destruct (frozen (nodeOf s' e)); [|reflexivity].
      rewrite Fz in F1; [discriminate|reflexivity].
    + inv_Ok H. exact F1.
Qed.

Lemma getLocalTransform_returns (e : Entity) (s : State) (t : Transform) :
  trOf s e = Some t ->
  exists l s' t', getLocalTransform e s = Ok (l, s') /\ trOf s' e = Some t'.
Proof.
  intros Ht. unfold getLocalTransform, getT. rewrite Ht. cbn [bind].
  destruct (localDirtyFlag t).
  - eexists _, _, _. split; [reflexivity|]. rewrite trOf_setT, Nat.eqb_refl. reflexivity.
  - eexists _, _, _. split; [reflexivity|exact Ht].
Qed.

Lemma updateTransform_returns (e : Entity) (s : State) (t : Transform) :
  trOf s e = Some t -> exists s', updateTransform e s = Ok s'.
Proof.
  intros Ht. unfold updateTransform. unfold getT at 1. rewrite Ht. cbn [bind].
  assert (H1 : exists s1 t1,
             (if localDirtyFlag t
              then '(_, s') <- getLocalTransform e s ;; Ok s'
              else Ok s) = Ok s1 /\ trOf s1 e = Some t1).
  { destruct (localDirtyFlag t).
    - destruct (getLocalTransform_returns _ _ Ht) as (l & s1 & t1 & E & Ht1).
      rewrite E. cbn [bind]. eauto.
    - eauto. }
  destruct H1 as (s1 & t1 & E1 & Ht1). rewrite E1. cbn [bind].
  unfold getT at 1. rewrite Ht1. cbn [bind].
  destruct (dirtyFlag t1); [|eauto].
  destruct (getLocalTransform_returns _ _ Ht1) as (l & s2 & t2 & E2 & Ht2).
  destruct (match parentOf s1 e with Some p => trOf s1 p | None => None end);
    rewrite E2; cbn [bind]; unfold getT; rewrite Ht2; cbn [bind]; eauto.
Qed.

(** X23.  [getWorldTransform] returns for every node that carries a
    [Transform] and whose parent chain ends at a node without parent: with
    [d] links to that node, [d + 1] nested calls are enough. *)
Theorem getWorldTransform_returns_on_finite_chain
    (d : nat) (e : Entity) (s : State) (fuel : nat) :
  RootIn s d e ->
  trOf s e <> None ->
  d < fuel ->
  exists w s', getWorldTransform fuel e s = Ok (w, s').
Proof.
  intros HR. revert fuel. induction HR as [e He|e p d He HRp IH]; intros fuel Ht Hd.
  - destruct fuel as [|f]; [lia|]. cbn [getWorldTransform].
    destruct (trOf s e) as [t|] eqn:Et; [|congruence].
    unfold getT at 1. rewrite Et. cbn [bind].
    destruct (negb (localDirtyFlag t) && negb (dirtyFlag t)); [eauto|].
    rewrite He. cbn [bind].
    destruct (updateTransform_returns _ _ Et) as [s2 E2]. rewrite E2. cbn [bind].
    destruct (updateTransform_Frame _ _ E2 e) as (_ & _ & Hn).
    unfold getT. destruct (trOf s2 e) as [t2|]; [cbn [bind]; eauto|].
    exfalso. rewrite Et in Hn. destruct Hn as [Hn _]. discriminate (Hn eq_refl).
  - destruct fuel as [|f]; [lia|]. cbn [getWorldTransform].
    destruct (trOf s e) as [t|] eqn:Et; [|congruence].
    unfold getT at 1. rewrite Et. cbn [bind].
    destruct (negb (localDirtyFlag t) && negb (dirtyFlag t)); [eauto|].
    rewrite He.
    assert (H1 : exists s1 t1,
               match trOf s p with
               | Some _ => '(_, s') <- getWorldTransform f p s ;; Ok s'
               | None => Ok s
               end = Ok s1 /\ trOf s1 e = Some t1).
    { destruct (trOf s p) as [pt|] eqn:Ept; [|eauto].
      destruct (IH f) as (w & s1 & E1); [congruence|lia|].
      rewrite E1. cbn [bind].
      destruct (getWorldTransform_Frame _ _ _ E1 e) as (_ & _ & Hn).
      destruct (trOf s1 e) as [t1|] eqn:Et1; [eauto|].
      exfalso. rewrite Et in Hn. destruct Hn as [Hn _]. discriminate (Hn eq_refl). }
    destruct H1 as (s1 & t1 & E1 & Et1). rewrite E1. cbn [bind].
    destruct (updateTransform_returns _ _ Et1) as [s2 E2]. rewrite E2. cbn [bind].
    destruct (updateTransform_Frame _ _ E2 e) as (_ & _ & Hn).
    unfold getT. destruct (trOf s2 e) as [t2|]; [cbn [bind]; eauto|].
    exfalso. rewrite Et1 in Hn. destruct Hn as [Hn _]. discriminate (Hn eq_refl).
Qed.

End Chains.

Module ChainFacts.

#[local] Existing Instance QGL.glmatrix.
#[local] Existing Instance QGL.shapes.

Import Scene.

Lemma tour4_chain : RootIn tour4 1 1.
Proof.
  apply RootIn_up with (p := 2); [vm_compute; reflexivity|].
  apply RootIn_here. vm_compute. reflexivity.
Qed.

Lemma tour4_transform : trOf tour4 1 <> None.
Proof.
  apply RunFacts.present_not_None. vm_compute. exact I.
Qed.

Lemma unfreezeParentToRoot_returns_iff_chain_ends_witness :
  exists s', unfreezeParentToRoot 10 1 tour4 = Ok s'.
Proof.
  apply (proj2 (proj1 (@unfreezeParentToRoot_returns_iff_chain_ends _ _ 10 1 tour4))).
  exists 1. split; [lia|exact tour4_chain].
Defined.

Lemma getWorldTransform_returns_on_finite_chain_witness :
  exists w s', getWorldTransform 10 1 tour4 = Ok (w, s').
Proof.
  apply (@getWorldTransform_returns_on_finite_chain _ _ 1 1 tour4 10 tour4_chain
           tour4_transform).
  lia.
Defined.

End ChainFacts.

(** ** [detach] and [setOrigin]: what they store *)

Section DetachOrigin.

Context {G : GLMatrix} {Sh : Shapes G}.



End DetachOrigin.

(** ** Reads, and the refresh of bounding boxes *)

Section Boxes.

Context {G : GLMatrix} {Sh : Shapes G}.

Lemma Silent_refl (s : State) : Silent s s.
Proof.
  split; auto.
Qed.

Lemma Silent_trans (s1 s2 s3 : State) : Silent s1 s2 -> Silent s2 s3 -> Silent s1 s3.
Proof.
  intros [E1 H1] [E2 H2]. split; [congruence|].
  intros n. destruct (H1 n) as (A1 & B1 & C1 & D1). destruct (H2 n) as (A2 & B2 & C2 & D2).
  repeat split; congruence.
Qed.

Lemma Silent_setT (e : Entity) (t : Transform) (s : State) : Silent s (setT e t s).
Proof.
  split; [reflexivity|]. intros n. rewrite nodeOf_setT.
  unfold setT, upd. simpl. destruct (Nat.eqb_spec n e) as [->|]; auto.
Qed.

Lemma getLocalTransform_Silent (e : Entity) (s s' : State) (m : mat4) :
  getLocalTransform e s = Ok (m, s') -> Silent s s'.
Proof.
  intros H.
  destruct (getLocalTransform_inv _ _ H) as (t & Ht & [(_ & _ & ->)|(_ & _ & ->)]).
  - apply Silent_setT.
  - apply Silent_refl.
Qed.

Lemma updateTransform_Silent (e : Entity) (s s' : State) :
  updateTransform e s = Ok s' -> Silent s s'.
Proof.
  unfold updateTransform. intros H. inv_bind H as t Et. inv_bind H as s1 E1.
  assert (F1 : Silent s s1).
  { destruct (localDirtyFlag t).
    - inv_bind E1 as [m s0] E0. inv_Ok E1. eapply getLocalTransform_Silent; eauto.
    - inv_Ok E1. apply Silent_refl. }
  eapply Silent_trans; [exact F1|].
  inv_bind H as t1 Et1. destruct (dirtyFlag t1); [|inv_Ok H; apply Silent_refl].
  destruct (match parentOf s1 e with Some p => trOf s1 p | None => None end).
  - inv_bind H as [l s2] E2. inv_bind H as t2 Et2. inv_Ok H.
    eapply Silent_trans; [eapply getLocalTransform_Silent; eauto|apply Silent_setT].
  - inv_bind H as [l s2] E2. inv_bind H as t2 Et2. inv_Ok H.
    eapply Silent_trans; [eapply getLocalTransform_Silent; eauto|apply Silent_setT].
Qed.

Lemma getWorldTransform_Silent (fuel : nat) :
  forall (e : Entity) (s s' : State) (m : mat4),
    getWorldTransform fuel e s = Ok (m, s') -> Silent s s'.
Proof.
  induction fuel as [|f IH]; intros e s s' m H; [discriminate|].
  cbn [getWorldTransform] in H. inv_bind H as t Et.
  destruct (negb (localDirtyFlag t) && negb (dirtyFlag t)).
  { inv_Ok H. apply Silent_refl. }
  inv_bind H as s1 E1. inv_bind H as s2 E2. inv_bind H as t2 Et2. inv_Ok H.
  eapply Silent_trans; [|eapply updateTransform_Silent; eauto].
  destruct (parentOf s e) as [p|]; [|inv_Ok E1; apply Silent_refl].
  destruct (trOf s p); [|inv_Ok E1; apply Silent_refl].
  inv_bind E1 as [w s0] E0. inv_Ok E1. eapply IH; eauto.
Qed.

(** X26.  The read operations ([getLocalTransform], [getWorldTransform],
    [getPosition], [getRotation], [getScale]) write [Transform] components
    only: they emit no event and leave every node of the tree, every
    [Sortable], every [Renderable] and every [Geometry] as it is. *)
Theorem reads_write_transforms_only
    (fuel : nat) (op : Op) (s s' : State) :
  isRead op = true ->
  step fuel op s = Ok s' ->
  events s' = events s /\
  forall n,
    nodeOf s' n = nodeOf s n /\
    sortable (comps s' n) = sortable (comps s n) /\
    renderable (comps s' n) = renderable (comps s n) /\
    geometry (comps s' n) = geometry (comps s n).
Proof.
  intros Hr H. change (Silent s s').
  destruct op; try discriminate Hr; cbn [step] in H; unfold dropValue in H.
  - inv_bind H as [m s1] E1. inv_Ok H. eapply getLocalTransform_Silent; eauto.
  - inv_bind H as [m s1] E1. inv_Ok H. eapply getWorldTransform_Silent; eauto.
  - inv_bind H as [m s1] E1. inv_Ok H. unfold getPosition in E1.
    inv_bind E1 as [w s2] E2. inv_bind E1 as t Et. inv_Ok E1.
    eapply Silent_trans; [eapply getWorldTransform_Silent; eauto|apply Silent_setT].
  - inv_bind H as [m s1] E1. inv_Ok H. unfold getRotation in E1.
    inv_bind E1 as [w s2] E2. inv_bind E1 as t Et. inv_Ok E1.
    eapply Silent_trans; [eapply getWorldTransform_Silent; eauto|apply Silent_setT].
  - inv_bind H as [m s1] E1. inv_Ok H. unfold getScale in E1.
    inv_bind E1 as [w s2] E2. inv_bind E1 as t Et. inv_Ok E1.
    eapply Silent_trans; [eapply getWorldTransform_Silent; eauto|apply Silent_setT].
Qed.

Lemma updateRenderableAABB_result (fuel : nat) (e : Entity) (s s' : State) :
  updateRenderableAABB fuel e s = Ok s' ->
  exists box, geometry (comps s e) = Some box /\
    exists (w : mat4) (t' : Transform),
      renderable (comps s' e) =
        Some (mkRenderable (Some (setFromTransformedAABB box w)) true) /\
      trOf s' e = Some t' /\ worldTransform t' = w /\
      localDirtyFlag t' = false /\ dirtyFlag t' = false /\
      events s' = events s ++ [e].
Proof.
  unfold updateRenderableAABB. intros H.
  destruct (renderable (comps s e)) as [r|]; [|discriminate].
  destruct (geometry (comps s e)) as [box|]; [|discriminate].
  inv_bind H as [w s1] E1. inv_Ok H.
  exists box. split; [reflexivity|].
  destruct (getWorldTransform_clears _ _ _ E1) as (t' & Ht' & Hl & Hd & Hw).
  destruct (getWorldTransform_Silent _ _ _ E1) as [Ev _].
  exists w, t'. split; [|split; [|split; [|split; [|split]]]]; auto.
  - unfold emit, setRenderable, upd. simpl. rewrite Nat.eqb_refl. reflexivity.
  - change (trOf (setRenderable e
              (mkRenderable (Some (setFromTransformedAABB box w)) true) s1) e = Some t').
    rewrite trOf_setRenderable. exact Ht'.
  - simpl. rewrite Ev. reflexivity.
Qed.

(** X27.  [updateRenderableAABB] throws on an entity without [Renderable]
    or without [Geometry].  Where it returns, the box of the entity is the
    box of its [Geometry] carried by the world matrix of the entity, which
    has just been brought up to date (both flags are clear); the
    [Renderable] is marked dirty, exactly one event is appended, naming the
    entity, and no other [Renderable] changes. *)
Theorem updateRenderableAABB_stores_transformed_box
    (fuel : nat) (e : Entity) (s : State) :
  (renderable (comps s e) = None \/ geometry (comps s e) = None ->
   updateRenderableAABB fuel e s = Throw) /\
  (forall s', updateRenderableAABB fuel e s = Ok s' ->
     exists box, geometry (comps s e) = Some box /\
       exists (w : mat4) (t' : Transform),
         renderable (comps s' e) =
           Some (mkRenderable (Some (setFromTransformedAABB box w)) true) /\
         trOf s' e = Some t' /\ worldTransform t' = w /\
         localDirtyFlag t' = false /\ dirtyFlag t' = false /\
         events s' = events s ++ [e]) /\
  (forall s' n, updateRenderableAABB fuel e s = Ok s' -> n <> e ->
     renderable (comps s' n) = renderable (comps s n)).
Proof.
  split; [|split].
  - unfold updateRenderableAABB. intros [H|H].
    + rewrite H. reflexivity.
    + destruct (renderable (comps s e)); [rewrite H|]; reflexivity.
  - intros s'. apply updateRenderableAABB_result.
  - intros s' n H Hn. unfold updateRenderableAABB in H.
    destruct (renderable (comps s e)) as [r|]; [|discriminate].
    destruct (geometry (comps s e)) as [box|]; [|discriminate].
    inv_bind H as [w s1] E1. inv_Ok H.
    destruct (getWorldTransform_Silent _ _ _ E1) as [_ K].
    destruct (K n) as (_ & _ & <- & _).
    unfold emit, setRenderable, upd. simpl.
    destruct (Nat.eqb_spec n e) as [->|]; [contradiction|reflexivity].
Qed.

Lemma dirtifyWorldInternal_ends_with_refresh (fuel : nat) (e : Entity) (s s' : State) :
  dirtifyWorldInternal fuel e s = Ok s' ->
  exists f s3, QuietBut None s s3 /\ dirtifyAABB f e s3 = Ok s'.
Proof.
  destruct fuel as [|f]; intros H; [discriminate|].
  cbn [dirtifyWorldInternal] in H. inv_bind H as t Et. inv_bind H as s3 E3.
  apply getT_Ok in Et. exists f, s3. split; [|exact H].
  destruct (negb (dirtyFlag t)); [|inv_Ok E3; apply QuietBut_refl].
  unfold forEach in E3.
  set (s1 := setT e (withDirty true t) (setNode e (withFrozen false (nodeOf s e)) s)) in *.
  assert (F1 : QuietBut None s s1).
  { unfold s1.
    eapply QuietBut_trans with (s2 := setNode e (withFrozen false (nodeOf s e)) s);
      [apply QuietBut_setNode; simpl; intros K; discriminate K|].
    eapply QuietBut_setT; [rewrite trOf_setNode; exact Et|reflexivity]. }
  revert E3. apply forEachLive_invariant; [|exact F1].
  intros c st st' Fst Hb. inv_bind Hb as ct Ect.
  destruct (negb (dirtyFlag ct)); [|inv_Ok Hb; exact Fst].
  eapply QuietBut_trans; [exact Fst | eapply dirtifyWorldInternal_Quiet; eauto].
Qed.

Lemma dirtifyAABB_BoxFresh (f : nat) (e : Entity) (s0 s3 s' : State) (box : AABB) :
  QuietBut None s0 s3 ->
  renderable (comps s0 e) <> None ->
  geometry (comps s0 e) = Some box ->
  dirtifyAABB f e s3 = Ok s' ->
  BoxFresh s0 s' e box.
Proof.
  intros [Q (l & El & _)] Hr Hg H.
  destruct (Q e) as (_ & Hg3 & Hr3 & _).
  unfold dirtifyAABB in H.
  destruct (renderable (comps s3 e)) as [r3|] eqn:Er3; [|tauto].
  edestruct updateRenderableAABB_result
    as (box' & Hb & w & t' & A & B & C & D & F & Ev); [exact H|].
  assert (box' = box) by congruence. subst box'.
  exists w, t', l. repeat (split; [assumption|]).
  rewrite Ev, El, <- app_assoc. reflexivity.
Qed.

Lemma setLocalDirty_BoxFresh (fuel : nat) (e : Entity) (s s' : State) (t : Transform)
    (box : AABB) :
  trOf s e = Some t ->
  localDirtyFlag t = false ->
  renderable (comps s e) <> None ->
  geometry (comps s e) = Some box ->
  setLocalDirty fuel e s = Ok s' ->
  BoxFresh s s' e box.
Proof.
  intros Ht Hl Hr Hg H. unfold setLocalDirty, getT in H. rewrite Ht in H.
  cbn [bind] in H. rewrite Hl in H. cbn [negb] in H.
  set (s1 := setT e (withLocalDirty true t) s) in *.
  assert (Q1 : QuietBut None s s1).
  { unfold s1. eapply QuietBut_setT; [exact Ht|reflexivity]. }
  destruct (negb (dirtyFlag t)).
  - unfold setDirty in H. inv_bind H as t1 Et1. inv_bind H as s2 E2.
    assert (Q2 : QuietBut None s1 s2).
    { destruct (negb (dirtyFlag t1)); [|inv_Ok E2; apply QuietBut_refl].
      eapply unfreezeParentToRoot_Quiet; eauto. }
    edestruct dirtifyWorldInternal_ends_with_refresh as (f & s3 & Q3 & E3); [exact H|].
    eapply dirtifyAABB_BoxFresh; [|exact Hr|exact Hg|exact E3].
    eapply QuietBut_trans; [exact Q1|]. eapply QuietBut_trans; [exact Q2|exact Q3].
  - eapply dirtifyAABB_BoxFresh; [exact Q1|exact Hr|exact Hg|exact H].
Qed.

Lemma write_BoxFresh (fuel : nat) (e : Entity) (s s' : State) (t t' : Transform)
    (box : AABB) :
  trOf s e = Some t ->
  localDirtyFlag t' = false ->
  renderable (comps s e) <> None ->
  geometry (comps s e) = Some box ->
  setLocalDirty fuel e (setT e t' s) = Ok s' ->
  BoxFresh s s' e box.
Proof.
  intros Ht Hl Hr Hg H.
  destruct (Silent_setT e t' s) as [Ev K]. destruct (K e) as (_ & _ & Kr & Kg).
  edestruct setLocalDirty_BoxFresh as (w & t2 & evs & A & B & C & D & F & E);
    [rewrite trOf_setT, Nat.eqb_refl; reflexivity|exact Hl| | |exact H|].
  - rewrite Kr. exact Hr.
  - rewrite Kg. exact Hg.
  - exists w, t2, evs. rewrite Ev in E. auto 10.
Qed.


End Boxes.

Module BoxFacts.

#[local] Existing Instance QGL.glmatrix.
#[local] Existing Instance QGL.shapes.

Import Scene Session Episodes Families Boxed.

Lemma family_parent1 : parentOf family 1 = Some 0.
Proof.
  vm_compute. reflexivity.
Qed.

Lemma family_transform1 : trOf family 1 = Some familyT1.
Proof.
  unfold familyT1.
  assert (K : trOf family 1 <> None).
  { apply RunFacts.present_not_None. vm_compute. exact I. }
  destruct (trOf family 1) as [t|]; [reflexivity|congruence].
Qed.



Lemma tour3_step : step 10 (OpGetWorldTransform 1) tour2 = Ok tour3.
Proof.
  apply RunFacts.after_returns. vm_compute. exact I.
Qed.

Lemma reads_write_transforms_only_witness :
  events tour3 = events tour2 /\
  forall n,
    nodeOf tour3 n = nodeOf tour2 n /\
    sortable (comps tour3 n) = sortable (comps tour2 n) /\
    renderable (comps tour3 n) = renderable (comps tour2 n) /\
    geometry (comps tour3 n) = geometry (comps tour2 n).
Proof.
  exact (@reads_write_transforms_only _ _ 10 (OpGetWorldTransform 1) tour2 tour3
           eq_refl tour3_step).
Defined.

Lemma square_boxed : updateRenderableAABB 10 0 square = Ok squareBoxed.
Proof.
  apply RunFacts.after_returns. vm_compute. exact I.
Qed.

Lemma updateRenderableAABB_stores_transformed_box_witness :
  exists box, geometry (comps square 0) = Some box /\
    exists (w : mat4) (t' : Transform),
      renderable (comps squareBoxed 0) =
        Some (mkRenderable (Some (setFromTransformedAABB box w)) true) /\
      trOf squareBoxed 0 = Some t' /\ worldTransform t' = w /\
      localDirtyFlag t' = false /\ dirtyFlag t' = false /\
      events squareBoxed = events square ++ [0].
Proof.
  exact (proj1 (proj2 (@updateRenderableAABB_stores_transformed_box _ _ 10 0 square))
           squareBoxed square_boxed).
Defined.

Lemma square_renderable : renderable (comps square 0) <> None.
Proof.
  discriminate.
Qed.


End BoxFacts.

(** ** [attach] undone by [detach] *)

Section RoundTrip.

Context {G : GLMatrix} {Sh : Shapes G}.

Lemma removeFirst_insertedAt (index : option Z) (e : Entity) (l : list Entity) :
  ~ In e l -> removeFirst e (insertedAt index e l) = l.
Proof.
  intros Hn. destruct index as [i|]; simpl.
  - unfold spliceIn.
    set (k := Z.to_nat _).
    rewrite removeFirst_app; [apply firstn_skipn|].
    intros K. apply Hn. rewrite <- (firstn_skipn k l). apply in_or_app. left. exact K.
  - rewrite removeFirst_app; [apply app_nil_r|exact Hn].
Qed.


End RoundTrip.

Module RoundTripFacts.

#[local] Existing Instance QGL.glmatrix.
#[local] Existing Instance QGL.shapes.

Import Scene Families Boxed Returns.

Lemma blank_no_child : ~ In 1 (childrenOf blank 0).
Proof.
  intros [].
Qed.

Lemma tour1_detach : detach 10 1 tour1 = Ok returned.
Proof.
  apply RunFacts.after_returns. vm_compute. exact I.
Qed.


End RoundTripFacts.
